(** * The PLONK prover of plonkathon (prover.py), embedded and verified

    The prover is a Python class whose five rounds read and assign
    attributes of [self], mutate the caller's witness dict, call the
    trusted setup's [commit] and raise on failed assertions and lookups.
    It is embedded as a state-and-exception monad over a [World] holding
    the prover object's attributes, the witness dict and the sequence of
    [commit] calls.  Scalars are the elements of a field [F]; the proofs
    about quotient and opening polynomials go through MathComp's
    [{poly F}]. *)

From HB Require Import structures.
From mathcomp Require Import boot order algebra.
From Stdlib Require Import String Lia.

Set Implicit Arguments.
Unset Strict Implicit.
Unset Printing Implicit Defensive.

Import GRing.Theory.
Local Open Scope ring_scope.

(** ** Python values: exceptions, insertion-ordered dicts, list indexing *)

(** The assert statements of prover.py, one tag per statement, so that a
    raised [AssertionError] says which one failed (as the traceback does). *)
Inductive site :=
  | gate_check          (* round_1: the gate constraints *)
  | grand_product_check (* round_2: assert Z_values.pop() == 1 *)
  | local_check         (* round_2: the per-row accumulator identity *)
  | quotient_degree     (* round_3: QUOT has degree < 3n *)
  | chunk_check         (* round_3: T1, T2, T3 against QUOT_big.values[0] *)
  | linearization_check (* round_5: R.barycentric_eval(zeta) == 0 *)
  | W_z_degree          (* round_5: W_z_coeffs[group_order:] *)
  | W_zw_degree         (* round_5: W_zw_coeffs[group_order:] *)
  | engine_check.       (* a basis or length assertion inside poly.py *)

Inductive exn :=
  | KeyError
  | IndexError
  | AttributeError
  | AssertionError of site.

Inductive Res (A : Type) :=
  | Ok of A
  | Raise of exn.

Arguments Raise {A} _.

Definition is_ok {A} (r : Res A) : bool := if r is Ok _ then true else false.

Definition res_bind {A B} (r : Res A) (k : A -> Res B) : Res B :=
  match r with Ok x => k x | Raise e => Raise e end.

Definition site_code (s : site) : nat :=
  match s with
  | gate_check => 0 | grand_product_check => 1 | local_check => 2
  | quotient_degree => 3 | chunk_check => 4 | linearization_check => 5
  | W_z_degree => 6 | W_zw_degree => 7 | engine_check => 8
  end.

Definition raises_at {A} (s : site) (r : Res A) : bool :=
  if r is Raise (AssertionError s') then site_code s' == site_code s else false.

HB.instance Definition _ := hasDecEq.Build string String.eqb_spec.

Module Dict.
Section Dict.
Variables (K : eqType) (V : Type).

(** A dict keeps its items in insertion order, one per key. *)
Definition t := seq (K * V).

Definition keys (d : t) : seq K := [seq kv.1 | kv <- d].

Definition contains (k : K) (d : t) : bool := k \in keys d.

Fixpoint get (k : K) (d : t) : option V :=
  if d is (k', v) :: d' then if k' == k then Some v else get k d' else None.

(** [d[k] = v]: the value of an existing key is replaced where it stands,
    a new key goes to the end. *)
Fixpoint set (k : K) (v : V) (d : t) : t :=
  if d is (k', v') :: d' then
    if k' == k then (k', v) :: d' else (k', v') :: set k v d'
  else [:: (k, v)].

End Dict.
End Dict.

Section Prover.

(** ** Scalars and polynomials (poly.py, curve.py) *)

(** The scalar field.  Division is the field's total division: the inverse
    of 0 is 0, as prime-field libraries that invert by Fermat's
    exponentiation or the extended Euclid algorithm return it. *)
Variable F : fieldType.

(** Modelled from the spec: the generator of the subgroup of order [m]
    that [Scalar.roots_of_unity(m)] lists the powers of (curve.py is not
    part of the sources). *)
Variable root_of_unity : nat -> F.

Definition roots_of_unity (m : nat) : seq F :=
  [seq root_of_unity m ^+ i | i <- iota 0 m].

Definition Scalar (x : int) : F := x%:~R.

Inductive Basis := LAGRANGE | MONOMIAL.

Definition Basis_eqb (b1 b2 : Basis) : bool :=
  match b1, b2 with
  | LAGRANGE, LAGRANGE | MONOMIAL, MONOMIAL => true
  | _, _ => false
  end.

Record Polynomial := MkPolynomial { values : seq F; basis : Basis }.

Definition index_list {A} (s : seq A) (i : nat) : Res A :=
  if nth None [seq Some x | x <- s] i is Some x then Ok x else Raise IndexError.

Definition sumr (s : seq F) : F := foldr +%R 0 s.

(** Modelled from the spec: [==] on polynomials compares basis and values. *)
Definition poly_eq (p q : Polynomial) : bool :=
  Basis_eqb (basis p) (basis q) && (values p == values q).

(** Modelled from the spec: pointwise [+], basis- and length-checked
    (section 4.1, "Pointwise +, -, *, / ... all basis- and length-checked"). *)
Definition poly_add (p q : Polynomial) : Res Polynomial :=
  if Basis_eqb (basis p) (basis q) && (size (values p) == size (values q))
  then Ok (MkPolynomial [seq xy.1 + xy.2 | xy <- zip (values p) (values q)] (basis p))
  else Raise (AssertionError engine_check).

(** Modelled from the spec: pointwise [*], basis- and length-checked. *)
Definition poly_mul (p q : Polynomial) : Res Polynomial :=
  if Basis_eqb (basis p) (basis q) && (size (values p) == size (values q))
  then Ok (MkPolynomial [seq xy.1 * xy.2 | xy <- zip (values p) (values q)] (basis p))
  else Raise (AssertionError engine_check).

(** The discrete Fourier transform of size [size s] and its inverse. *)
Definition dft (s : seq F) : seq F :=
  [seq horner_rec s (root_of_unity (size s) ^+ i) | i <- iota 0 (size s)].

Definition idft (s : seq F) : seq F :=
  [seq (size s)%:R^-1 * horner_rec s ((root_of_unity (size s))^-1 ^+ i)
  | i <- iota 0 (size s)].

(** Modelled from the spec: [fft] swaps MONOMIAL for LAGRANGE by the forward
    transform of size the number of values (section 3, "LAGRANGE <->
    MONOMIAL: inverse/forward FFT of size n"). *)
Definition fft (p : Polynomial) : Res Polynomial :=
  if basis p is MONOMIAL then Ok (MkPolynomial (dft (values p)) LAGRANGE)
  else Raise (AssertionError engine_check).

(** Modelled from the spec: [ifft] swaps LAGRANGE for MONOMIAL. *)
Definition ifft (p : Polynomial) : Res Polynomial :=
  if basis p is LAGRANGE then Ok (MkPolynomial (idft (values p)) MONOMIAL)
  else Raise (AssertionError engine_check).

(** Modelled from the spec: [to_coset_extended_lagrange] goes through the
    monomial basis, substitutes [offset * X] for [X] and runs the FFT of
    four times the size (section 3); the result carries the tag the
    prover gives its own coset vectors, LAGRANGE. *)
Definition to_coset_extended_lagrange (p : Polynomial) (offset : F)
  : Res Polynomial :=
  if basis p is LAGRANGE then
    let group_order := size (values p) in
    let x_powers := idft (values p) in
    let x_powers :=
      [seq offset ^+ ix.1 * ix.2 | ix <- zip (iota 0 group_order) x_powers]
      ++ nseq (group_order * 3) 0 in
    fft (MkPolynomial x_powers MONOMIAL)
  else Raise (AssertionError engine_check).

(** Modelled from the spec: [coset_extended_lagrange_to_coeffs] is the
    inverse FFT followed by the substitution of [X / offset] for [X]. *)
Definition coset_extended_lagrange_to_coeffs (p : Polynomial) (offset : F)
  : Res Polynomial :=
  if basis p is LAGRANGE then
    let shifted_coeffs := idft (values p) in
    let inv_offset := 1 / offset in
    Ok (MkPolynomial
          [seq iv.2 * inv_offset ^+ iv.1
          | iv <- zip (iota 0 (size shifted_coeffs)) shifted_coeffs]
          MONOMIAL)
  else Raise (AssertionError engine_check).

(** Modelled from the spec: [shift] rotates the evaluations left by [k]
    positions (section 4.1). *)
Definition shift (p : Polynomial) (k : nat) : Res Polynomial :=
  if basis p is LAGRANGE then Ok (MkPolynomial (rot k (values p)) LAGRANGE)
  else Raise (AssertionError engine_check).

(** Modelled from the spec: [barycentric_eval] evaluates the interpolant of
    a LAGRANGE polynomial at [x]; at a root of unity it returns the
    corresponding value directly (section 4.1). *)
Definition barycentric_eval (p : Polynomial) (x : F) : Res F :=
  if basis p is LAGRANGE then
    let order := size (values p) in
    let rs := roots_of_unity order in
    if x \in rs then Ok (nth 0 (values p) (seq.index x rs))
    else Ok ((x ^+ order - 1) / order%:R
             * sumr [seq vr.1 * vr.2 / (x - vr.2) | vr <- zip (values p) rs])
  else Raise (AssertionError engine_check).


(** ** The prover's collaborators (transcript.py, setup.py, compiler/) *)

(** The commitment group. *)
Variable G : Type.

Record Message1 := MkMessage1 { a_1 : G; b_1 : G; c_1 : G }.
Record Message2 := MkMessage2 { z_1 : G }.
Record Message3 := MkMessage3 { t_lo_1 : G; t_mid_1 : G; t_hi_1 : G }.
Record Message4 := MkMessage4 {
  a_eval : F; b_eval : F; c_eval : F;
  s1_eval : F; s2_eval : F; z_shifted_eval : F }.
Record Message5 := MkMessage5 { W_z_1 : G; W_zw_1 : G }.

(** The Fiat-Shamir transcript: each round hook absorbs the round's message
    and squeezes challenges that are functions of all messages absorbed so
    far. *)
Record Transcript := MkTranscript {
  transcript_round_1 : Message1 -> F * F;
  transcript_round_2 : Message1 -> Message2 -> F * F;
  transcript_round_3 : Message1 -> Message2 -> Message3 -> F;
  transcript_round_4 : Message1 -> Message2 -> Message3 -> Message4 -> F }.

Record Setup := MkSetup { commit : Polynomial -> G }.

(** A gate's wires; [None] is the empty wire. *)
Record Wire := MkWire {
  wire_L : option string; wire_R : option string; wire_O : option string }.

Record CommonPreprocessedInput := MkCommonPreprocessedInput {
  QM : Polynomial; QL : Polynomial; QR : Polynomial; QO : Polynomial;
  QC : Polynomial; S1 : Polynomial; S2 : Polynomial; S3 : Polynomial }.

Record Program := MkProgram {
  program_group_order : nat;
  wires : seq Wire;
  get_public_assignments : seq string;
  common_preprocessed_input : CommonPreprocessedInput }.

(** ** class Proof *)

Record Proof := MkProof {
  msg_1 : Message1; msg_2 : Message2; msg_3 : Message3;
  msg_4 : Message4; msg_5 : Message5 }.

(** A flattened proof maps field names to group elements and scalars. *)
Inductive proof_item := Point of G | Element of F.

Definition flatten (self : Proof) : Dict.t string proof_item :=
  let proof := [::] in
  let proof := Dict.set "a_1"%string (Point (a_1 (msg_1 self))) proof in
  let proof := Dict.set "b_1"%string (Point (b_1 (msg_1 self))) proof in
  let proof := Dict.set "c_1"%string (Point (c_1 (msg_1 self))) proof in
  let proof := Dict.set "z_1"%string (Point (z_1 (msg_2 self))) proof in
  let proof := Dict.set "t_lo_1"%string (Point (t_lo_1 (msg_3 self))) proof in
  let proof := Dict.set "t_mid_1"%string (Point (t_mid_1 (msg_3 self))) proof in
  let proof := Dict.set "t_hi_1"%string (Point (t_hi_1 (msg_3 self))) proof in
  let proof := Dict.set "a_eval"%string (Element (a_eval (msg_4 self))) proof in
  let proof := Dict.set "b_eval"%string (Element (b_eval (msg_4 self))) proof in
  let proof := Dict.set "c_eval"%string (Element (c_eval (msg_4 self))) proof in
  let proof := Dict.set "s1_eval"%string (Element (s1_eval (msg_4 self))) proof in
  let proof := Dict.set "s2_eval"%string (Element (s2_eval (msg_4 self))) proof in
  let proof :=
    Dict.set "z_shifted_eval"%string (Element (z_shifted_eval (msg_4 self))) proof in
  let proof := Dict.set "W_z_1"%string (Point (W_z_1 (msg_5 self))) proof in
  let proof := Dict.set "W_zw_1"%string (Point (W_zw_1 (msg_5 self))) proof in
  proof.

(** ** class Prover: the object, its attributes and the world it runs in *)

(** The fields [__init__] assigns. *)
Record Prover := MkProver {
  group_order : nat;
  setup : Setup;
  program : Program;
  pk : CommonPreprocessedInput }.

Definition Prover_init (setup : Setup) (program : Program) : Prover :=
  MkProver (program_group_order program) setup program
           (common_preprocessed_input program).

(** The attributes the rounds assign on [self]. *)
Inductive attr :=
  | self_PI | self_A | self_B | self_C | self_beta | self_gamma | self_Z
  | self_alpha | self_fft_cofactor | self_quarter_roots
  | self_A_big | self_B_big | self_C_big
  | self_S1_big | self_S2_big | self_S3_big
  | self_T1 | self_T2 | self_T3 | self_zeta
  | self_a_eval | self_b_eval | self_c_eval
  | self_s1_eval | self_s2_eval | self_z_shifted_eval | self_v.

Definition attr_code (a : attr) : nat :=
  match a with
  | self_PI => 0 | self_A => 1 | self_B => 2 | self_C => 3 | self_beta => 4
  | self_gamma => 5 | self_Z => 6 | self_alpha => 7 | self_fft_cofactor => 8
  | self_quarter_roots => 9 | self_A_big => 10 | self_B_big => 11
  | self_C_big => 12 | self_S1_big => 13 | self_S2_big => 14
  | self_S3_big => 15 | self_T1 => 16 | self_T2 => 17 | self_T3 => 18
  | self_zeta => 19 | self_a_eval => 20 | self_b_eval => 21
  | self_c_eval => 22 | self_s1_eval => 23 | self_s2_eval => 24
  | self_z_shifted_eval => 25 | self_v => 26
  end.

Definition attr_eqb (a b : attr) : bool := eqn (attr_code a) (attr_code b).

Inductive value :=
  | VPoly of Polynomial
  | VScalar of F
  | VRoots of seq F.

(** The world a call runs in.  [attrs] is the history of the assignments
    [self.x = v], the latest first: the object's attribute [x] is its
    latest assignment.  [witness] is the caller's dict, which the prover
    receives by reference.  [commit_log] lists the arguments of the calls
    to [setup.commit], in call order. *)
Record World := MkWorld {
  attrs : seq (attr * value);
  witness : Dict.t (option string) int;
  commit_log : seq Polynomial }.

Fixpoint lookup_attr (a : attr) (h : seq (attr * value)) : option value :=
  if h is (b, v) :: h' then if attr_eqb b a then Some v else lookup_attr a h'
  else None.

(** A computation returns a result or raises, and leaves a world behind
    in both cases. *)
Definition M (A : Type) := World -> Res A * World.

Definition ret {A} (x : A) : M A := fun w => (Ok x, w).

Definition raise {A} (e : exn) : M A := fun w => (Raise e, w).

Definition bind {A B} (m : M A) (k : A -> M B) : M B :=
  fun w => match m w with
           | (Ok x, w') => k x w'
           | (Raise e, w') => (Raise e, w')
           end.

Definition lift {A} (r : Res A) : M A := fun w => (r, w).

Notation "'do' x <- m ; k" := (bind m (fun x => k))
  (at level 200, x name, m at level 100, k at level 200,
   format "'[v' 'do'  x  <-  m ; '/' k ']'").
Notation "'do' ' p <- m ; k" := (bind m (fun x => let: p := x in k))
  (at level 200, p pattern, m at level 100, k at level 200,
   format "'[v' 'do'  ' p  <-  m ; '/' k ']'").
Notation "m ;; k" := (bind m (fun _ => k))
  (at level 200, k at level 200, right associativity,
   format "'[v' m ;; '/' k ']'").

Fixpoint mapM {A B} (f : A -> M B) (s : seq A) : M (seq B) :=
  if s is x :: s' then
    do y <- f x; do ys <- mapM f s'; ret (y :: ys)
  else ret [::].

Fixpoint forM_ {A} (f : A -> M unit) (s : seq A) : M unit :=
  if s is x :: s' then f x ;; forM_ f s' else ret tt.

Definition assert_at (s : site) (b : bool) : M unit :=
  if b then ret tt else raise (AssertionError s).

Definition setattr (a : attr) (v : value) : M unit :=
  fun w => (Ok tt, MkWorld ((a, v) :: attrs w) (witness w) (commit_log w)).

Definition getattr (a : attr) : M value :=
  fun w => if lookup_attr a (attrs w) is Some v then (Ok v, w)
           else (Raise AttributeError, w).

Definition get_poly (a : attr) : M Polynomial :=
  do v <- getattr a;
  if v is VPoly p then ret p else raise AttributeError.

Definition get_scalar (a : attr) : M F :=
  do v <- getattr a;
  if v is VScalar x then ret x else raise AttributeError.

Definition get_roots (a : attr) : M (seq F) :=
  do v <- getattr a;
  if v is VRoots s then ret s else raise AttributeError.

(** [witness[k]] *)
Definition witness_get (k : option string) : M int :=
  fun w => if Dict.get k (witness w) is Some x then (Ok x, w)
           else (Raise KeyError, w).

(** [if None not in witness: witness[None] = 0] *)
Definition witness_default_None : M unit :=
  fun w => if ~~ Dict.contains None (witness w)
           then (Ok tt, MkWorld (attrs w) (Dict.set None 0 (witness w))
                                (commit_log w))
           else (Ok tt, w).


(** [s.pop()] leaves all items of [s] but the last. *)
Definition belast' {A} (s : seq A) : seq A :=
  if s is x :: s' then belast x s' else [::].

(** Python list operations that can raise. *)
Definition store_list {A} (s : seq A) (i : nat) (x : A) : Res (seq A) :=
  if (i < size s)%N then Ok (set_nth x s i x) else Raise IndexError.

Definition index_last {A} (s : seq A) : Res A :=
  if s is x :: s' then Ok (last x s') else Raise IndexError.

(** [s[-n:]]: the last [n] items, all of [s] when [n] is 0 or exceeds the
    length. *)
Definition slice_last {A} (n : nat) (s : seq A) : seq A :=
  if n == 0%N then s else drop (size s - n)%N s.

(** ** The rounds *)

Variable self : Prover.

(** [setup.commit(p)], recorded in the world. *)
Definition setup_commit (p : Polynomial) : M G :=
  fun w => (Ok (commit (setup self) p),
            MkWorld (attrs w) (witness w) (rcons (commit_log w) p)).

(** [self.rlc(term_1, term_2)] *)
Definition rlc (term_1 term_2 : F) : M F :=
  do beta <- get_scalar self_beta;
  do gamma <- get_scalar self_gamma;
  ret (term_1 + term_2 * beta + gamma).

(** [self.fft_expand(x)] *)
Definition fft_expand (x : Polynomial) : M Polynomial :=
  do fft_cofactor <- get_scalar self_fft_cofactor;
  lift (to_coset_extended_lagrange x fft_cofactor).

(** [self.expanded_evals_to_coeffs(x)] *)
Definition expanded_evals_to_coeffs (x : Polynomial) : M Polynomial :=
  do fft_cofactor <- get_scalar self_fft_cofactor;
  lift (coset_extended_lagrange_to_coeffs x fft_cofactor).

(** [for i, wire in enumerate(program.wires()): ...] from index [i] on. *)
Fixpoint assign_wires (i : nat) (ws : seq Wire)
    (A_values B_values C_values : seq int)
  : M (seq int * seq int * seq int) :=
  if ws is wire :: ws' then
    do x <- witness_get (wire_L wire);
    do A_values <- lift (store_list A_values i x);
    do y <- witness_get (wire_R wire);
    do B_values <- lift (store_list B_values i y);
    do z <- witness_get (wire_O wire);
    do C_values <- lift (store_list C_values i z);
    assign_wires i.+1 ws' A_values B_values C_values
  else ret (A_values, B_values, C_values).

(** The left-hand side of the gate assertion of round_1. *)
Definition gate_polynomial : M Polynomial :=
  do A <- get_poly self_A;
  do t1 <- lift (poly_mul A (QL (pk self)));
  do B <- get_poly self_B;
  do t2 <- lift (poly_mul B (QR (pk self)));
  do acc <- lift (poly_add t1 t2);
  do A <- get_poly self_A;
  do B <- get_poly self_B;
  do AB <- lift (poly_mul A B);
  do t3 <- lift (poly_mul AB (QM (pk self)));
  do acc <- lift (poly_add acc t3);
  do C <- get_poly self_C;
  do t4 <- lift (poly_mul C (QO (pk self)));
  do acc <- lift (poly_add acc t4);
  do PI <- get_poly self_PI;
  do acc <- lift (poly_add acc PI);
  lift (poly_add acc (QC (pk self))).

Definition round_1 : M Message1 :=
  let program := program self in
  let group_order := group_order self in
  witness_default_None ;;
  let A_values := nseq group_order (0 : int) in
  let B_values := nseq group_order (0 : int) in
  let C_values := nseq group_order (0 : int) in
  do '(A_values, B_values, C_values) <-
    assign_wires 0 (wires program) A_values B_values C_values;
  let A := MkPolynomial [seq Scalar x | x <- A_values] LAGRANGE in
  let B := MkPolynomial [seq Scalar x | x <- B_values] LAGRANGE in
  let C := MkPolynomial [seq Scalar x | x <- C_values] LAGRANGE in
  setattr self_A (VPoly A) ;;
  setattr self_B (VPoly B) ;;
  setattr self_C (VPoly C) ;;
  do a_1 <- setup_commit A;
  do b_1 <- setup_commit B;
  do c_1 <- setup_commit C;
  do lhs <- gate_polynomial;
  assert_at gate_check
    (poly_eq lhs (MkPolynomial (nseq group_order (Scalar 0)) LAGRANGE)) ;;
  ret (MkMessage1 a_1 b_1 c_1).

(** [self.X.values[i]] *)
Definition attr_value_at (a : attr) (i : nat) : M F :=
  do p <- get_poly a;
  lift (index_list (values p) i).

(** The numerator and the denominator of the accumulator step at row [i]. *)
Definition permutation_numerator (roots_of_unity : seq F) (i : nat)
  : M (F * F * F) :=
  do a <- attr_value_at self_A i;
  do r <- lift (index_list roots_of_unity i);
  do fa <- rlc a r;
  do b <- attr_value_at self_B i;
  do r <- lift (index_list roots_of_unity i);
  do fb <- rlc b (2%:R * r);
  do c <- attr_value_at self_C i;
  do r <- lift (index_list roots_of_unity i);
  do fc <- rlc c (3%:R * r);
  ret (fa, fb, fc).

Definition permutation_denominator (i : nat) : M (F * F * F) :=
  do a <- attr_value_at self_A i;
  do s1 <- lift (index_list (values (S1 (pk self))) i);
  do ga <- rlc a s1;
  do b <- attr_value_at self_B i;
  do s2 <- lift (index_list (values (S2 (pk self))) i);
  do gb <- rlc b s2;
  do c <- attr_value_at self_C i;
  do s3 <- lift (index_list (values (S3 (pk self))) i);
  do gc <- rlc c s3;
  ret (ga, gb, gc).

(** [for i in range(group_order): Z_values.append(...)] over the rows [rows]. *)
Fixpoint accumulate (roots_of_unity : seq F) (rows : seq nat) (Z_values : seq F)
  : M (seq F) :=
  if rows is i :: rows' then
    do z <- lift (index_last Z_values);
    do '(fa, fb, fc) <- permutation_numerator roots_of_unity i;
    do '(ga, gb, gc) <- permutation_denominator i;
    accumulate roots_of_unity rows'
      (rcons Z_values (z * fa * fb * fc / ga / gb / gc))
  else ret Z_values.

(** The body of the sanity loop of round_2 at row [i]. *)
Definition check_row (roots_of_unity : seq F) (Z_values : seq F) (i : nat)
  : M unit :=
  let group_order := group_order self in
  do '(fa, fb, fc) <- permutation_numerator roots_of_unity i;
  do z <- lift (index_list Z_values i);
  do '(ga, gb, gc) <- permutation_denominator i;
  do z' <- lift (index_list Z_values ((i + 1) %% group_order)%N);
  assert_at local_check (fa * fb * fc * z - ga * gb * gc * z' == 0).

Definition round_2 : M Message2 :=
  let group_order := group_order self in
  let roots_of_unity := roots_of_unity group_order in
  do Z_values <- accumulate roots_of_unity (iota 0 group_order) [:: Scalar 1];
  do Z_n <- lift (index_last Z_values);
  let Z_values := belast' Z_values in
  assert_at grand_product_check (Z_n == 1) ;;
  forM_ (check_row roots_of_unity Z_values) (iota 0 group_order) ;;
  let Z := MkPolynomial Z_values LAGRANGE in
  do z_1 <- setup_commit Z;
  setattr self_Z (VPoly Z) ;;
  ret (MkMessage2 z_1).


(** The coset polynomials the quotient of round_3 is computed from. *)
Record coset_inputs := MkCosetInputs {
  in_A_big : Polynomial; in_B_big : Polynomial; in_C_big : Polynomial;
  in_PI_big : Polynomial;
  in_QL_big : Polynomial; in_QR_big : Polynomial; in_QM_big : Polynomial;
  in_QO_big : Polynomial; in_QC_big : Polynomial;
  in_Z_big : Polynomial; in_Z_shifted_big : Polynomial;
  in_S1_big : Polynomial; in_S2_big : Polynomial; in_S3_big : Polynomial;
  in_ZH_big : Polynomial; in_L0_big : Polynomial }.

(** The item of [QUOT_values] at index [i]; an item [X_big.values[i]] that
    the expression reads several times is read once, at its first use. *)
Definition QUOT_value (e : coset_inputs) (fft_cofactor alpha : F)
    (quarter_roots : seq F) (i : nat) : M F :=
  do a <- lift (index_list (values (in_A_big e)) i);
  do ql <- lift (index_list (values (in_QL_big e)) i);
  do b <- lift (index_list (values (in_B_big e)) i);
  do qr <- lift (index_list (values (in_QR_big e)) i);
  do qm <- lift (index_list (values (in_QM_big e)) i);
  do c <- lift (index_list (values (in_C_big e)) i);
  do qo <- lift (index_list (values (in_QO_big e)) i);
  do pi <- lift (index_list (values (in_PI_big e)) i);
  do qc <- lift (index_list (values (in_QC_big e)) i);
  do q <- lift (index_list quarter_roots i);
  do fa <- rlc a (fft_cofactor * q);
  do fb <- rlc b (2%:R * fft_cofactor * q);
  do fc <- rlc c (3%:R * fft_cofactor * q);
  do z <- lift (index_list (values (in_Z_big e)) i);
  do s1 <- lift (index_list (values (in_S1_big e)) i);
  do ga <- rlc a s1;
  do s2 <- lift (index_list (values (in_S2_big e)) i);
  do gb <- rlc b s2;
  do s3 <- lift (index_list (values (in_S3_big e)) i);
  do gc <- rlc c s3;
  do zs <- lift (index_list (values (in_Z_shifted_big e)) i);
  do l0 <- lift (index_list (values (in_L0_big e)) i);
  do alpha' <- get_scalar self_alpha;
  do zh <- lift (index_list (values (in_ZH_big e)) i);
  ret (((a * ql + b * qr + a * b * qm + c * qo + pi + qc)
        + (fa * fb * fc) * alpha * z
        - (ga * gb * gc) * alpha * zs
        + ((z - 1) * l0 * alpha' ^+ 2)) / zh).

(** [L0]: 1 at the first root of unity, 0 at the others. *)
Definition L0_polynomial (group_order : nat) : Polynomial :=
  MkPolynomial (Scalar 1 :: nseq (group_order - 1) (Scalar 0)) LAGRANGE.

(** round_3 up to [QUOT_big] (the lines before its first assertion). *)
Definition quotient_polynomial (fft_cofactor alpha : F) : M Polynomial :=
  let group_order := group_order self in
  let quarter_roots := roots_of_unity (group_order * 4) in
  setattr self_quarter_roots (VRoots quarter_roots) ;;
  do A <- get_poly self_A;
  do A_big <- fft_expand A;
  do B <- get_poly self_B;
  do B_big <- fft_expand B;
  do C <- get_poly self_C;
  do C_big <- fft_expand C;
  setattr self_A_big (VPoly A_big) ;;
  setattr self_B_big (VPoly B_big) ;;
  setattr self_C_big (VPoly C_big) ;;
  do PI <- get_poly self_PI;
  do PI_big <- fft_expand PI;
  do QL_big <- fft_expand (QL (pk self));
  do QR_big <- fft_expand (QR (pk self));
  do QM_big <- fft_expand (QM (pk self));
  do QO_big <- fft_expand (QO (pk self));
  do QC_big <- fft_expand (QC (pk self));
  do Z <- get_poly self_Z;
  do Z_big <- fft_expand Z;
  do Z_shifted_big <- lift (shift Z_big 4);
  do S1_big <- fft_expand (S1 (pk self));
  do S2_big <- fft_expand (S2 (pk self));
  do S3_big <- fft_expand (S3 (pk self));
  setattr self_S1_big (VPoly S1_big) ;;
  setattr self_S2_big (VPoly S2_big) ;;
  setattr self_S3_big (VPoly S3_big) ;;
  let ZH_values :=
    [seq (w * fft_cofactor) ^+ group_order - 1 | w <- quarter_roots] in
  let ZH_big := MkPolynomial ZH_values LAGRANGE in
  do L0_big <- fft_expand (L0_polynomial group_order);
  let e := MkCosetInputs A_big B_big C_big PI_big QL_big QR_big QM_big QO_big
             QC_big Z_big Z_shifted_big S1_big S2_big S3_big ZH_big L0_big in
  do QUOT_values <-
    mapM (QUOT_value e fft_cofactor alpha quarter_roots)
         (iota 0 (group_order * 4));
  ret (MkPolynomial QUOT_values LAGRANGE).

(** The three chunks of the quotient's coefficients, as round_3 slices them. *)
Definition chunk_lo (group_order : nat) (coeffs : seq F) : seq F :=
  take group_order coeffs.
Definition chunk_mid (group_order : nat) (coeffs : seq F) : seq F :=
  drop group_order (take (group_order * 2) coeffs).
Definition chunk_hi (group_order : nat) (coeffs : seq F) : seq F :=
  drop (group_order * 2) (take (group_order * 3) coeffs).

(** The left-hand side of the chunk assertion of round_3. *)
Definition chunk_sum (T1 T2 T3 : Polynomial) (fft_cofactor : F) : M F :=
  let group_order := group_order self in
  do e1 <- lift (barycentric_eval T1 fft_cofactor);
  do e2 <- lift (barycentric_eval T2 fft_cofactor);
  do e3 <- lift (barycentric_eval T3 fft_cofactor);
  ret (e1 + e2 * fft_cofactor ^+ group_order
          + e3 * fft_cofactor ^+ (group_order * 2)).

Definition round_3 : M Message3 :=
  let group_order := group_order self in
  do fft_cofactor <- get_scalar self_fft_cofactor;
  do alpha <- get_scalar self_alpha;
  do QUOT_big <- quotient_polynomial fft_cofactor alpha;
  do coeffs <- expanded_evals_to_coeffs QUOT_big;
  assert_at quotient_degree
    (slice_last group_order (values coeffs) == nseq group_order 0) ;;
  do QUOT_coeffs <- lift (coset_extended_lagrange_to_coeffs QUOT_big fft_cofactor);
  do T1 <- lift (fft (MkPolynomial
                        (chunk_lo group_order (values QUOT_coeffs)) MONOMIAL));
  do T2 <- lift (fft (MkPolynomial
                        (chunk_mid group_order (values QUOT_coeffs)) MONOMIAL));
  do T3 <- lift (fft (MkPolynomial
                        (chunk_hi group_order (values QUOT_coeffs)) MONOMIAL));
  setattr self_T1 (VPoly T1) ;;
  setattr self_T2 (VPoly T2) ;;
  setattr self_T3 (VPoly T3) ;;
  do lhs <- chunk_sum T1 T2 T3 fft_cofactor;
  do rhs <- lift (index_list (values QUOT_big) 0);
  assert_at chunk_check (lhs == rhs) ;;
  do t_lo_1 <- setup_commit T1;
  do t_mid_1 <- setup_commit T2;
  do t_hi_1 <- setup_commit T3;
  ret (MkMessage3 t_lo_1 t_mid_1 t_hi_1).

Definition round_4 : M Message4 :=
  do zeta <- get_scalar self_zeta;
  do omega <- lift (index_list (roots_of_unity (group_order self)) 1);
  do A <- get_poly self_A;
  do a_eval <- lift (barycentric_eval A zeta);
  do B <- get_poly self_B;
  do b_eval <- lift (barycentric_eval B zeta);
  do C <- get_poly self_C;
  do c_eval <- lift (barycentric_eval C zeta);
  do s1_eval <- lift (barycentric_eval (S1 (pk self)) zeta);
  do s2_eval <- lift (barycentric_eval (S2 (pk self)) zeta);
  do Z <- get_poly self_Z;
  do z_shifted_eval <- lift (barycentric_eval Z (zeta * omega));
  setattr self_a_eval (VScalar a_eval) ;;
  setattr self_b_eval (VScalar b_eval) ;;
  setattr self_c_eval (VScalar c_eval) ;;
  setattr self_s1_eval (VScalar s1_eval) ;;
  setattr self_s2_eval (VScalar s2_eval) ;;
  setattr self_z_shifted_eval (VScalar z_shifted_eval) ;;
  ret (MkMessage4 a_eval b_eval c_eval s1_eval s2_eval z_shifted_eval).


(** The scalars round_5 holds in local variables. *)
Record scalars := MkScalars {
  sc_alpha : F; sc_beta : F; sc_gamma : F; sc_omega : F; sc_zeta : F;
  sc_fft_cofactor : F; sc_v : F;
  sc_a_eval : F; sc_b_eval : F; sc_c_eval : F;
  sc_s1_eval : F; sc_s2_eval : F; sc_z_shifted_eval : F;
  sc_pi_eval : F; sc_l0_eval : F; sc_zh_eval : F }.

(** The coset polynomials the linearization polynomial is computed from. *)
Record linearization_inputs := MkLinearizationInputs {
  lin_T1_big : Polynomial; lin_T2_big : Polynomial; lin_T3_big : Polynomial;
  lin_QL_big : Polynomial; lin_QR_big : Polynomial; lin_QM_big : Polynomial;
  lin_QO_big : Polynomial; lin_QC_big : Polynomial;
  lin_Z_big : Polynomial; lin_S3_big : Polynomial }.

(** The item of [R_values] at index [i]. *)
Definition R_value (sc : scalars) (e : linearization_inputs) (i : nat) : Res F :=
  let group_order := group_order self in
  let alpha := sc_alpha sc in let beta := sc_beta sc in
  let gamma := sc_gamma sc in let zeta := sc_zeta sc in
  let a_eval := sc_a_eval sc in let b_eval := sc_b_eval sc in
  let c_eval := sc_c_eval sc in let s1_eval := sc_s1_eval sc in
  let s2_eval := sc_s2_eval sc in
  let z_shifted_eval := sc_z_shifted_eval sc in
  let pi_eval := sc_pi_eval sc in let l0_eval := sc_l0_eval sc in
  let zh_eval := sc_zh_eval sc in
  res_bind (index_list (values (lin_QL_big e)) i) (fun ql =>
  res_bind (index_list (values (lin_QR_big e)) i) (fun qr =>
  res_bind (index_list (values (lin_QM_big e)) i) (fun qm =>
  res_bind (index_list (values (lin_QO_big e)) i) (fun qo =>
  res_bind (index_list (values (lin_QC_big e)) i) (fun qc =>
  res_bind (index_list (values (lin_Z_big e)) i) (fun z =>
  res_bind (index_list (values (lin_S3_big e)) i) (fun s3 =>
  res_bind (index_list (values (lin_T1_big e)) i) (fun t1 =>
  res_bind (index_list (values (lin_T2_big e)) i) (fun t2 =>
  res_bind (index_list (values (lin_T3_big e)) i) (fun t3 =>
  Ok ((a_eval * ql + b_eval * qr + a_eval * b_eval * qm + c_eval * qo
       + pi_eval + qc)
      + (a_eval + beta * zeta + gamma)
        * (b_eval + beta * 2%:R * zeta + gamma)
        * (c_eval + beta * 3%:R * zeta + gamma)
        * alpha * z
      - (a_eval + beta * s1_eval + gamma)
        * (b_eval + beta * s2_eval + gamma)
        * (c_eval + beta * s3 + gamma)
        * alpha * z_shifted_eval
      + (z - 1) * l0_eval * alpha ^+ 2
      - (t1 + zeta ^+ group_order * t2 + zeta ^+ (group_order * 2) * t3)
        * zh_eval))))))))))).

(** The item of [W_z_values] at index [i]. *)
Definition W_z_value (sc : scalars) (R_big A_big B_big C_big S1_big S2_big
    : Polynomial) (quarter_roots : seq F) (i : nat) : Res F :=
  let v := sc_v sc in
  res_bind (index_list (values R_big) i) (fun r =>
  res_bind (index_list (values A_big) i) (fun a =>
  res_bind (index_list (values B_big) i) (fun b =>
  res_bind (index_list (values C_big) i) (fun c =>
  res_bind (index_list (values S1_big) i) (fun s1 =>
  res_bind (index_list (values S2_big) i) (fun s2 =>
  res_bind (index_list quarter_roots i) (fun q =>
  Ok ((r + v * (a - sc_a_eval sc) + v ^+ 2 * (b - sc_b_eval sc)
         + v ^+ 3 * (c - sc_c_eval sc) + v ^+ 4 * (s1 - sc_s1_eval sc)
         + v ^+ 5 * (s2 - sc_s2_eval sc))
      / (sc_fft_cofactor sc * q - sc_zeta sc))))))))).

(** The item of [W_zw_values] at index [i]. *)
Definition W_zw_value (sc : scalars) (Z_big : Polynomial)
    (quarter_roots : seq F) (i : nat) : Res F :=
  res_bind (index_list (values Z_big) i) (fun z =>
  res_bind (index_list quarter_roots i) (fun q =>
  Ok ((z - sc_z_shifted_eval sc)
      / (sc_fft_cofactor sc * q - sc_zeta sc * sc_omega sc)))).

(** round_5 up to its local variables: the scalars and the coset
    polynomials of the linearization (the lines before [R_values]). *)
Definition round_5_locals : M (scalars * linearization_inputs) :=
  let group_order := group_order self in
  do alpha <- get_scalar self_alpha;
  do beta <- get_scalar self_beta;
  do gamma <- get_scalar self_gamma;
  do omega <- lift (index_list (roots_of_unity group_order) 1);
  do zeta <- get_scalar self_zeta;
  do fft_cofactor <- get_scalar self_fft_cofactor;
  do v <- get_scalar self_v;
  do a_eval <- get_scalar self_a_eval;
  do b_eval <- get_scalar self_b_eval;
  do c_eval <- get_scalar self_c_eval;
  do s1_eval <- get_scalar self_s1_eval;
  do s2_eval <- get_scalar self_s2_eval;
  do z_shifted_eval <- get_scalar self_z_shifted_eval;
  do PI <- get_poly self_PI;
  do pi_eval <- lift (barycentric_eval PI zeta);
  do l0_eval <- lift (barycentric_eval (L0_polynomial group_order) zeta);
  let zh_eval := zeta ^+ group_order - 1 in
  do T1 <- get_poly self_T1;
  do T1_big <- lift (to_coset_extended_lagrange T1 fft_cofactor);
  do T2 <- get_poly self_T2;
  do T2_big <- lift (to_coset_extended_lagrange T2 fft_cofactor);
  do T3 <- get_poly self_T3;
  do T3_big <- lift (to_coset_extended_lagrange T3 fft_cofactor);
  do QL_big <- lift (to_coset_extended_lagrange (QL (pk self)) fft_cofactor);
  do QR_big <- lift (to_coset_extended_lagrange (QR (pk self)) fft_cofactor);
  do QM_big <- lift (to_coset_extended_lagrange (QM (pk self)) fft_cofactor);
  do QO_big <- lift (to_coset_extended_lagrange (QO (pk self)) fft_cofactor);
  do QC_big <- lift (to_coset_extended_lagrange (QC (pk self)) fft_cofactor);
  do Z <- get_poly self_Z;
  do Z_big <- lift (to_coset_extended_lagrange Z fft_cofactor);
  do S3_big <- lift (to_coset_extended_lagrange (S3 (pk self)) fft_cofactor);
  ret (MkScalars alpha beta gamma omega zeta fft_cofactor v
         a_eval b_eval c_eval s1_eval s2_eval z_shifted_eval
         pi_eval l0_eval zh_eval,
       MkLinearizationInputs T1_big T2_big T3_big QL_big QR_big QM_big QO_big
         QC_big Z_big S3_big).

Fixpoint mapR {A B} (f : A -> Res B) (s : seq A) : Res (seq B) :=
  if s is x :: s' then
    res_bind (f x) (fun y => res_bind (mapR f s') (fun ys => Ok (y :: ys)))
  else Ok [::].

(** The linearization polynomial: [R_big] on the coset and [R], the FFT of
    its low [group_order] coefficients. *)
Definition linearization (sc : scalars) (e : linearization_inputs)
  : Res (Polynomial * Polynomial) :=
  let group_order := group_order self in
  res_bind (mapR (R_value sc e) (iota 0 (4 * group_order))) (fun R_values =>
  let R_big := MkPolynomial R_values LAGRANGE in
  res_bind (coset_extended_lagrange_to_coeffs R_big (sc_fft_cofactor sc))
    (fun R_coeffs =>
  res_bind (fft (MkPolynomial (take group_order (values R_coeffs)) MONOMIAL))
    (fun R => Ok (R_big, R)))).

(** The coefficients of the two opening polynomials. *)
Definition W_z_coefficients (sc : scalars) (R_big A_big B_big C_big S1_big
    S2_big : Polynomial) (quarter_roots : seq F) : Res (seq F) :=
  let group_order := group_order self in
  res_bind (mapR (W_z_value sc R_big A_big B_big C_big S1_big S2_big
                    quarter_roots) (iota 0 (group_order * 4)))
    (fun W_z_values =>
  let W_z_big := MkPolynomial W_z_values LAGRANGE in
  res_bind (coset_extended_lagrange_to_coeffs W_z_big (sc_fft_cofactor sc))
    (fun p => Ok (values p))).

Definition W_zw_coefficients (sc : scalars) (Z_big : Polynomial)
    (quarter_roots : seq F) : Res (seq F) :=
  let group_order := group_order self in
  res_bind (mapR (W_zw_value sc Z_big quarter_roots) (iota 0 (group_order * 4)))
    (fun W_zw_values =>
  let W_zw_big := MkPolynomial W_zw_values LAGRANGE in
  res_bind (coset_extended_lagrange_to_coeffs W_zw_big (sc_fft_cofactor sc))
    (fun p => Ok (values p))).

Definition round_5 : M Message5 :=
  let group_order := group_order self in
  do '(sc, e) <- round_5_locals;
  do '(R_big, R) <- lift (linearization sc e);
  do r_zeta <- lift (barycentric_eval R (sc_zeta sc));
  assert_at linearization_check (r_zeta == 0) ;;
  do A_big <- get_poly self_A_big;
  do B_big <- get_poly self_B_big;
  do C_big <- get_poly self_C_big;
  do S1_big <- get_poly self_S1_big;
  do S2_big <- get_poly self_S2_big;
  do quarter_roots <- get_roots self_quarter_roots;
  do W_z_coeffs <-
    lift (W_z_coefficients sc R_big A_big B_big C_big S1_big S2_big
            quarter_roots);
  assert_at W_z_degree
    (drop group_order W_z_coeffs == nseq (group_order * 3) 0) ;;
  do W_z <- lift (fft (MkPolynomial (take group_order W_z_coeffs) MONOMIAL));
  do W_z_1 <- setup_commit W_z;
  do W_zw_coeffs <- lift (W_zw_coefficients sc (lin_Z_big e) quarter_roots);
  assert_at W_zw_degree
    (drop group_order W_zw_coeffs == nseq (group_order * 3) 0) ;;
  do W_zw <- lift (fft (MkPolynomial (take group_order W_zw_coeffs) MONOMIAL));
  do W_zw_1 <- setup_commit W_zw;
  ret (MkMessage5 W_z_1 W_zw_1).

(** ** prove *)

Variable transcript : Transcript.

(** [Scalar(-witness[v])] for a public variable [v]. *)
Definition public_input (v : string) : M F :=
  do x <- witness_get (Some v);
  ret (Scalar (- x)).

Definition prove : M Proof :=
  let public_vars := get_public_assignments (program self) in
  do inputs <- mapM public_input public_vars;
  let PI :=
    MkPolynomial
      (inputs ++ nseq (group_order self - size public_vars) (Scalar 0))
      LAGRANGE in
  setattr self_PI (VPoly PI) ;;
  do msg_1 <- round_1;
  let: (beta, gamma) := transcript_round_1 transcript msg_1 in
  setattr self_beta (VScalar beta) ;;
  setattr self_gamma (VScalar gamma) ;;
  do msg_2 <- round_2;
  let: (alpha, fft_cofactor) := transcript_round_2 transcript msg_1 msg_2 in
  setattr self_alpha (VScalar alpha) ;;
  setattr self_fft_cofactor (VScalar fft_cofactor) ;;
  do msg_3 <- round_3;
  let zeta := transcript_round_3 transcript msg_1 msg_2 msg_3 in
  setattr self_zeta (VScalar zeta) ;;
  do msg_4 <- round_4;
  let v := transcript_round_4 transcript msg_1 msg_2 msg_3 msg_4 in
  setattr self_v (VScalar v) ;;
  do msg_5 <- round_5;
  ret (MkProof msg_1 msg_2 msg_3 msg_4 msg_5).

End Prover.

(** * Theory of the polynomial engine *)

Section Fourier.

Variable F : fieldType.
Variables (m : nat) (u : F).
Hypothesis prim_u : m.-primitive_root u.

Lemma prim_natf_neq0 : m%:R != 0 :> F.
Proof. exact: (prim_root_dvd_eq0 prim_u (dvdnn m)). Qed.

Lemma prim_sum_powers (k : nat) :
  \sum_(i < m) (u ^+ k) ^+ i = if (m %| k)%N then m%:R else 0.
Proof.
case: ifP => [/dvdnP [q ->]|ndiv].
  rewrite mulnC exprM (prim_expr_order prim_u) expr1n.
  under eq_bigr do rewrite expr1n.
  by rewrite sumr_const card_ord.
have neq1 : u ^+ k - 1 != 0.
  by rewrite subr_eq0 -(prim_order_dvd prim_u) ndiv.
apply: (mulfI neq1); rewrite mulr0 -subrX1 -exprM mulnC exprM.
by rewrite (prim_expr_order prim_u) expr1n subrr.
Qed.

Lemma prim_orthogonality (k j : nat) : (k < m)%N -> (j < m)%N ->
  \sum_(i < m) (u ^+ k) ^+ i * (u ^+ (m - j)) ^+ i
  = if k == j then m%:R else 0.
Proof.
move=> ltkm ltjm.
under eq_bigr do rewrite -exprMn -exprD.
rewrite prim_sum_powers.
case: (ltngtP k j) => [ltkj|ltjk|->]; last by rewrite subnKC ?dvdnn // ltnW.
  rewrite gtnNdvd //; first by rewrite addn_gt0 subn_gt0 ltjm orbT.
  by rewrite -[X in (_ < X)%N](subnKC (ltnW ltjm)) ltn_add2r.
rewrite addnBA ?(ltnW ltjm) // addnC -addnBA ?(ltnW ltjk) //.
rewrite dvdn_addr ?dvdnn // gtnNdvd ?subn_gt0 //.
by apply: leq_ltn_trans ltkm; apply: leq_subr.
Qed.

(** Orthogonality, in the shape both transforms need. *)
Lemma fourier_inversion (a : nat -> F) (j : nat) : (j < m)%N ->
  \sum_(i < m) (\sum_(k < m) a k * (u ^+ k) ^+ i) * (u ^+ (m - j)) ^+ i
  = m%:R * a j.
Proof.
move=> ltjm.
have -> : \sum_(i < m) (\sum_(k < m) a k * (u ^+ k) ^+ i) * (u ^+ (m - j)) ^+ i
  = \sum_(k < m) a k * (if (k : nat) == j then m%:R else 0).
  rewrite (eq_bigr (fun i : 'I_m => \sum_(k < m) a k * ((u ^+ k) ^+ i * (u ^+ (m - j)) ^+ i))).
    by move=> i _; rewrite mulr_suml; apply: eq_bigr => k _; rewrite mulrA.
  rewrite exchange_big /=; apply: eq_bigr => k _.
  by rewrite -mulr_sumr prim_orthogonality.
rewrite (bigD1 (Ordinal ltjm)) //= eqxx big1 ?addr0 1?mulrC // => k nekj.
by rewrite -val_eqE /= in nekj; rewrite (negPf nekj) mulr0.
Qed.

Lemma prim_neq0 : u != 0.
Proof.
apply: contraTneq (prim_order_gt0 prim_u) => u0.
have := prim_expr_order prim_u; rewrite u0; case: (m) => [|k]; rewrite ?ltnn //.
by rewrite expr0n /= => /eqP; rewrite eq_sym oner_eq0.
Qed.

Lemma prim_inv_exp (j : nat) : (j <= m)%N -> u^-1 ^+ j = u ^+ (m - j).
Proof.
move=> lejm; have uu : u \is a GRing.unit by rewrite unitfE prim_neq0.
apply: (mulIr (unitrX j uu)).
by rewrite -exprMn mulVr // expr1n -exprD subnK // (prim_expr_order prim_u).
Qed.

Lemma prim_inv : m.-primitive_root u^-1.
Proof.
have m_gt0 := prim_order_gt0 prim_u.
rewrite -[u^-1]expr1 prim_inv_exp // prim_root_exp_coprime //.
by case: (m) m_gt0 => [//|k] _; rewrite subn1 /= coprimenS.
Qed.

End Fourier.

Section Transforms.

Variable F : fieldType.
Variable root_of_unity : nat -> F.

Local Notation dft := (dft root_of_unity).
Local Notation idft := (idft root_of_unity).

Lemma horner_rec_sum (s : seq F) (x : F) (n : nat) : (size s <= n)%N ->
  horner_rec s x = \sum_(i < n) s`_i * x ^+ i.
Proof.
move=> les; rewrite -horner_Poly (@horner_coef_wide _ n) ?(leq_trans (size_Poly s)) //. 
by apply: eq_bigr => i _; rewrite coef_Poly.
Qed.

Lemma size_dft (s : seq F) : size (dft s) = size s.
Proof. by rewrite /dft size_map size_iota. Qed.

Lemma size_idft (s : seq F) : size (idft s) = size s.
Proof. by rewrite /idft size_map size_iota. Qed.

Lemma nth_dft (s : seq F) (i : nat) : (i < size s)%N ->
  (dft s)`_i = horner_rec s (root_of_unity (size s) ^+ i).
Proof.
by move=> lti; rewrite (nth_map 0%N) ?size_iota // nth_iota.
Qed.

Lemma nth_idft (s : seq F) (i : nat) : (i < size s)%N ->
  (idft s)`_i
  = (size s)%:R^-1 * horner_rec s ((root_of_unity (size s))^-1 ^+ i).
Proof.
by move=> lti; rewrite (nth_map 0%N) ?size_iota // nth_iota.
Qed.

Variable m : nat.
Hypothesis prim : m.-primitive_root (root_of_unity m).
Let w := root_of_unity m.

(** The inverse transform of the evaluations of a polynomial of size at
    most [m] lists its coefficients. *)
Lemma idft_evals (p : {poly F}) : (size p <= m)%N ->
  idft [seq p.[w ^+ i] | i <- iota 0 m] = [seq p`_j | j <- iota 0 m].
Proof.
move=> lepm; apply: (@eq_from_nth _ 0); rewrite size_idft !size_map size_iota //.
move=> j ltjm; rewrite nth_idft ?size_map ?size_iota //.
rewrite (nth_map 0%N) ?size_iota // nth_iota // add0n.
rewrite (@horner_rec_sum _ _ m) ?size_map ?size_iota // -/w.
rewrite (prim_inv_exp prim) ?(ltnW ltjm) //.
rewrite (eq_bigr (fun i : 'I_m =>
           (\sum_(k < m) p`_k * (w ^+ k) ^+ i) * (w ^+ (m - j)) ^+ i)).
  move=> i _; rewrite (nth_map 0%N) ?size_iota // nth_iota // add0n.
  rewrite (@horner_coef_wide _ m) //; congr (_ * _).
  by apply: eq_bigr => k _; rewrite -!exprM mulnC.
by rewrite (fourier_inversion prim) // mulrA mulVf ?mul1r // (prim_natf_neq0 prim).
Qed.

Lemma idft_dft (s : seq F) : size s = m -> idft (dft s) = s.
Proof.
move=> szs.
have -> : dft s = [seq (Poly s).[w ^+ i] | i <- iota 0 m].
  by rewrite /dft szs; apply: eq_map => i; rewrite horner_Poly.
rewrite idft_evals ?(leq_trans (size_Poly s)) ?szs //.
apply: (@eq_from_nth _ 0); rewrite size_map size_iota ?szs // => j ltjm.
by rewrite (nth_map 0%N) ?size_iota // nth_iota // add0n coef_Poly.
Qed.

Lemma dft_idft (s : seq F) : size s = m -> dft (idft s) = s.
Proof.
move=> szs; apply: (@eq_from_nth _ 0); rewrite size_dft size_idft // szs.
move=> i ltim; rewrite nth_dft ?size_idft ?szs //.
rewrite (@horner_rec_sum _ _ m) ?size_idft ?szs // -/w.
have primV := prim_inv prim.
have -> : w ^+ i = w^-1 ^+ (m - i).
  by rewrite -[in LHS](invrK w) (prim_inv_exp primV) ?(ltnW ltim).
rewrite (eq_bigr (fun j : 'I_m =>
           m%:R^-1 * ((\sum_(l < m) s`_l * (w^-1 ^+ l) ^+ j)
                      * (w^-1 ^+ (m - i)) ^+ j))).
  move=> j _; rewrite nth_idft ?szs // -mulrA; congr (_ * (_ * _)).
  rewrite (@horner_rec_sum _ _ m) ?szs //.
  by apply: eq_bigr => l _; rewrite -!exprM mulnC.
rewrite -mulr_sumr (fourier_inversion primV) //.
by rewrite mulrA mulVf ?mul1r // (prim_natf_neq0 prim).
Qed.

(** The interpolant of the values [s] over the roots of unity. *)
Definition interpolant (s : seq F) : {poly F} := Poly (idft s).

Lemma size_interpolant (s : seq F) : (size (interpolant s) <= size s)%N.
Proof. by rewrite (leq_trans (size_Poly _)) ?size_idft. Qed.

Lemma interpolantE (s : seq F) (i : nat) : size s = m -> (i < m)%N ->
  (interpolant s).[w ^+ i] = s`_i.
Proof.
move=> szs ltim; rewrite horner_Poly.
by rewrite -[in RHS](dft_idft szs) nth_dft size_idft szs.
Qed.

Lemma coefs_Poly (p : {poly F}) : (size p <= m)%N ->
  Poly [seq p`_j | j <- iota 0 m] = p.
Proof.
move=> lepm; apply/polyP => j; rewrite coef_Poly.
case: (ltnP j m) => [ltjm|lemj].
  by rewrite (nth_map 0%N) ?size_iota // nth_iota.
by rewrite !nth_default ?size_map ?size_iota // (leq_trans lepm).
Qed.

(** A polynomial of size at most [m] is the interpolant of its values. *)
Lemma interpolant_unique (p : {poly F}) (s : seq F) :
  size s = m -> (size p <= m)%N ->
  (forall i, (i < m)%N -> p.[w ^+ i] = s`_i) -> interpolant s = p.
Proof.
move=> szs lepm evp; rewrite /interpolant.
have -> : s = [seq p.[w ^+ i] | i <- iota 0 m].
  apply: (@eq_from_nth _ 0); rewrite ?size_map ?size_iota ?szs // => i ltim.
  by rewrite (nth_map 0%N) ?size_iota // nth_iota // add0n evp.
by rewrite idft_evals // coefs_Poly.
Qed.

Lemma interpolant_evals (p : {poly F}) : (size p <= m)%N ->
  interpolant [seq p.[w ^+ i] | i <- iota 0 m] = p.
Proof.
move=> lepm; apply: interpolant_unique; rewrite ?size_map ?size_iota //.
by move=> i ltim; rewrite (nth_map 0%N) ?size_iota // nth_iota.
Qed.

Lemma interpolant_dft (s : seq F) : size s = m -> interpolant (dft s) = Poly s.
Proof. by move=> szs; rewrite /interpolant idft_dft. Qed.

(** The roots of unity the library lists are the [m] solutions of
    [x ^ m = 1], each once. *)
Lemma mem_roots_of_unity (x : F) :
  (x \in roots_of_unity root_of_unity m) = (x ^+ m == 1).
Proof.
apply/mapP/eqP => [[i _ ->]|xm1].
  by rewrite -exprM mulnC exprM (prim_expr_order prim) expr1n.
by have [i ->] := prim_rootP prim xm1; exists (i : nat);
   rewrite ?mem_iota ?add0n /=.
Qed.

Lemma nth_roots_of_unity (i : nat) : (i < m)%N ->
  (roots_of_unity root_of_unity m)`_i = w ^+ i.
Proof. by move=> ltim; rewrite (nth_map 0%N) ?size_iota // nth_iota. Qed.

Lemma size_roots_of_unity (n : nat) : size (roots_of_unity root_of_unity n) = n.
Proof. by rewrite size_map size_iota. Qed.

Lemma sumr_zip_roots (s : seq F) (g : F * F -> F) : size s = m ->
  sumr [seq g vr | vr <- zip s (roots_of_unity root_of_unity m)]
  = \sum_(i < m) g (s`_i, w ^+ i).
Proof.
move=> szs; rewrite /sumr foldrE big_map (big_nth (0, 0)) size_zip szs.
rewrite size_roots_of_unity minnn big_mkord; apply: eq_bigr => i _.
by rewrite nth_zip ?szs ?size_roots_of_unity //= nth_roots_of_unity.
Qed.

(** Off the roots of unity, [w ^ i / (x - w ^ i)] is a polynomial in [x]
    divided by [x ^ m - 1]. *)
Lemma barycentric_weight (x : F) (i : nat) : x ^+ m != 1 ->
  w ^+ i / (x - w ^+ i)
  = (x ^+ m - 1)^-1 * \sum_(l < m) x ^+ (m.-1 - l) * (w ^+ i) ^+ l.+1.
Proof.
move=> xm1; have := subrXX x (w ^+ i) m.
rewrite -[(w ^+ i) ^+ m]exprM mulnC exprM (prim_expr_order prim) expr1n => eq.
have nz : x ^+ m - 1 != 0 by rewrite subr_eq0.
have xw : x - w ^+ i != 0 by apply: contraNneq nz => e0; rewrite eq e0 mul0r.
rewrite (eq_bigr (fun l : 'I_m => w ^+ i * (x ^+ (m.-1 - l) * (w ^+ i) ^+ l))).
  by move=> l _; rewrite exprS mulrCA.
rewrite -mulr_sumr; set S := \sum_(l < m) _ in eq *.
have Snz : S != 0 by apply: contraNneq nz => e0; rewrite eq e0 mulr0.
by rewrite eq; field; rewrite xw Snz.
Qed.

(** [barycentric_eval] evaluates the interpolant, at every point. *)
Lemma barycentric_evalE (s : seq F) (x : F) : size s = m ->
  barycentric_eval root_of_unity (MkPolynomial s LAGRANGE) x
  = Ok (interpolant s).[x].
Proof.
move=> szs; rewrite /barycentric_eval /= szs.
case: ifPn => [xin|xnotin]; congr Ok.
  have lti : (seq.index x (roots_of_unity root_of_unity m) < m)%N.
    by rewrite -[X in (_ < X)%N](size_roots_of_unity m) index_mem.
  by rewrite -[in RHS](nth_index 0 xin) nth_roots_of_unity // interpolantE.
move: xnotin; rewrite mem_roots_of_unity => xm1.
rewrite (sumr_zip_roots _ szs) /=.
rewrite (eq_bigr (fun i : 'I_m => (x ^+ m - 1)^-1
          * \sum_(l < m) x ^+ (m.-1 - l) * (s`_i * (w ^+ l.+1) ^+ i))).
  move=> i _; rewrite -mulrA barycentric_weight // mulrCA; congr (_ * _).
  rewrite mulr_sumr; apply: eq_bigr => l _.
  by rewrite mulrCA -!exprM mulnC.
rewrite -mulr_sumr exchange_big /=.
have nz : x ^+ m - 1 != 0 by rewrite subr_eq0.
have mnz := prim_natf_neq0 prim.
rewrite mulrAC mulrA divff // mul1r mulrC mulr_sumr.
rewrite horner_Poly (@horner_rec_sum _ _ m) ?size_idft ?szs //.
rewrite (reindex_inj rev_ord_inj) /=; apply: eq_bigr => l _.
have lelm := ltnW (ltn_ord l).
rewrite nth_idft ?szs // (prim_inv_exp prim) // (@horner_rec_sum _ _ m) ?szs //.
rewrite -/w subnSK // -subn1 -subnDA add1n subnSK // subKn //.
by rewrite -mulr_sumr; ring.
Qed.

End Transforms.

Section Coset.

Variable F : fieldType.
Variable root_of_unity : nat -> F.

Local Notation interpolant := (interpolant root_of_unity).

Lemma horner_rec_nseq0 (k : nat) (y : F) : horner_rec (nseq k 0) y = 0.
Proof. by elim: k => //= k ->; rewrite mul0r addr0. Qed.

Lemma horner_rec_scale (offset y : F) (c : seq F) (a k : nat) :
  horner_rec ([seq offset ^+ ix.1 * ix.2 | ix <- zip (iota a (size c)) c]
              ++ nseq k 0) y
  = offset ^+ a * horner_rec c (offset * y).
Proof.
elim: c a => [|x c IH] a /=; first by rewrite horner_rec_nseq0 mulr0.
by rewrite IH exprS; ring.
Qed.

(** The coset extension lists the values of the interpolant over the coset
    [offset * mu ^ i] of the domain of four times the size. *)
Lemma to_coset_extended_lagrangeE (s : seq F) (offset : F) :
  to_coset_extended_lagrange root_of_unity (MkPolynomial s LAGRANGE) offset
  = Ok (MkPolynomial
          [seq (interpolant s).[offset * root_of_unity (size s * 4) ^+ i]
          | i <- iota 0 (size s * 4)] LAGRANGE).
Proof.
rewrite /to_coset_extended_lagrange /= /fft /= /dft.
rewrite size_cat size_map size_zip size_iota size_idft minnn size_nseq.
have -> : (size s + size s * 3 = size s * 4)%N by rewrite -mulnS.
congr (Ok (MkPolynomial _ _)); apply: eq_map => i.
by rewrite -(size_idft root_of_unity s) horner_rec_scale expr0 mul1r horner_Poly.
Qed.

Variable n : nat.
Hypothesis prim4 : (n * 4).-primitive_root (root_of_unity (n * 4)).
Let mu := root_of_unity (n * 4).

(** The values of [T] over the coset, as a list. *)
Definition coset_evals (T : {poly F}) (offset : F) : seq F :=
  [seq T.[offset * mu ^+ i] | i <- iota 0 (n * 4)].

Lemma size_coset_evals T offset : size (coset_evals T offset) = (n * 4)%N.
Proof. by rewrite size_map size_iota. Qed.

Lemma nth_coset_evals T offset i : (i < n * 4)%N ->
  (coset_evals T offset)`_i = T.[offset * mu ^+ i].
Proof. by move=> lti; rewrite (nth_map 0%N) ?size_iota // nth_iota. Qed.

(** Back from the coset: coefficient [j] of a polynomial of size at most
    [4n] comes back multiplied by [offset ^ j / offset ^ j]. *)
Lemma coset_extended_lagrange_to_coeffsE (T : {poly F}) (offset : F) :
  (size T <= n * 4)%N ->
  coset_extended_lagrange_to_coeffs root_of_unity
    (MkPolynomial (coset_evals T offset) LAGRANGE) offset
  = Ok (MkPolynomial
          [seq T`_j * offset ^+ j * offset^-1 ^+ j | j <- iota 0 (n * 4)]
          MONOMIAL).
Proof.
move=> leT; rewrite /coset_extended_lagrange_to_coeffs /=.
pose Tk := \poly_(j < n * 4) (T`_j * offset ^+ j).
have -> : coset_evals T offset = [seq Tk.[mu ^+ i] | i <- iota 0 (n * 4)].
  apply: eq_map => i; rewrite horner_poly (@horner_coef_wide _ (n * 4)) //.
  by apply: eq_bigr => j _; rewrite exprMn mulrA.
rewrite (idft_evals prim4) ?size_poly // size_map size_iota.
congr (Ok (MkPolynomial _ _)).
apply: (@eq_from_nth _ 0).
  by rewrite !size_map size_zip size_iota size_map size_iota minnn.
move=> j; rewrite size_map size_zip size_iota size_map size_iota minnn => ltj.
rewrite (nth_map (0%N, 0)) ?size_zip ?size_iota ?size_map ?size_iota ?minnn //.
rewrite nth_zip ?size_iota ?size_map ?size_iota //= nth_iota // add0n.
rewrite !(nth_map 0%N) ?size_iota // nth_iota // add0n coef_poly ltj.
by rewrite mul1r.
Qed.

End Coset.

(** Bounds on sizes of polynomials, by linear arithmetic. *)
Ltac size_lia :=
  first [apply/leP | apply/ltP | idtac];
  repeat match goal with
         | H : is_true (_ <= _)%N |- _ => move/leP: H
         | H : is_true (_ < _)%N |- _ => move/ltP: H
         end;
  rewrite -?plusE -?multE -?minusE; lia.

Section SizeBounds.

Variable R : idomainType.
Implicit Types p q : {poly R}.

Lemma size_mul_bound p q (a b : nat) :
  (size p <= a)%N -> (size q <= b)%N -> (size (p * q)%R <= (a + b).-1)%N.
Proof.
move=> lea leb; apply: leq_trans (size_polyMleq p q) _.
by move: (size p) (size q) lea leb => sp sq lea leb; size_lia.
Qed.

Lemma size_add_bound p q (a : nat) :
  (size p <= a)%N -> (size q <= a)%N -> (size (p + q)%R <= a)%N.
Proof.
move=> lea leb; apply: leq_trans (size_polyD p q) _.
by rewrite geq_max lea leb.
Qed.

Lemma size_sub_bound p q (a : nat) :
  (size p <= a)%N -> (size q <= a)%N -> (size (p - q)%R <= a)%N.
Proof. by move=> lea leb; apply: size_add_bound; rewrite ?size_polyN. Qed.

Lemma size_const_bound (c : R) (a : nat) : (0 < a)%N -> (size c%:P <= a)%N.
Proof. by move=> lt; apply: leq_trans (size_polyC_leq1 c) lt. Qed.

Lemma size_scaleX_bound (c : R) (a : nat) :
  (1 < a)%N -> (size (c *: 'X)%R <= a)%N.
Proof.
move=> lt; apply: leq_trans (size_scale_leq _ _) _.
by rewrite size_polyX.
Qed.

End SizeBounds.

(** * Running the rounds *)

Section MonadLaws.

Variable F : fieldType.

Notation World := (World F).
Notation M := (M F).

Lemma bind_ok A B (m : M A) (k : A -> M B) (w w1 : World) (x : A) :
  m w = (Ok x, w1) -> bind m k w = k x w1.
Proof. by rewrite /bind => ->. Qed.

Lemma bind_raise A B (m : M A) (k : A -> M B) (w w1 : World) (e : exn) :
  m w = (Raise e, w1) -> bind m k w = (Raise e, w1).
Proof. by rewrite /bind => ->. Qed.

Lemma bind_lift_ok A B (r : Res A) (k : A -> M B) (w : World) (x : A) :
  r = Ok x -> bind (lift r) k w = k x w.
Proof. by move=> ->. Qed.

Lemma bind_lift_raise A B (r : Res A) (k : A -> M B) (w : World) (e : exn) :
  r = Raise e -> bind (lift r) k w = (Raise e, w).
Proof. by move=> ->. Qed.

End MonadLaws.

(** One step of a run: the first computation of a sequence returns. *)
Tactic Notation "step" open_constr(H) :=
  rewrite (bind_ok _ H); cbv beta iota.
Tactic Notation "step_lift" open_constr(H) :=
  rewrite (bind_lift_ok _ _ H); cbv beta iota.

Section Runs.

Variable F : fieldType.
Variable root_of_unity : nat -> F.
Variable G : Type.

Notation World := (World F).
Notation M := (M F).

(** The worlds the assignments, the commits and the default of the witness
    leave. *)
Definition with_attr (a : attr) (v : value F) (w : World) : World :=
  MkWorld ((a, v) :: attrs w) (witness w) (commit_log w).

Definition with_commit (p : Polynomial F) (w : World) : World :=
  MkWorld (attrs w) (witness w) (rcons (commit_log w) p).

Definition witness_after (d : Dict.t (option string) int)
  : Dict.t (option string) int :=
  if ~~ Dict.contains None d then Dict.set None 0 d else d.

Definition with_witness_default (w : World) : World :=
  MkWorld (attrs w) (witness_after (witness w)) (commit_log w).

Lemma setattr_run (a : attr) (v : value F) (w : World) :
  setattr a v w = (Ok tt, with_attr a v w).
Proof. by []. Qed.

Lemma witness_default_None_run (w : World) :
  witness_default_None w = (Ok tt, with_witness_default w).
Proof.
rewrite /witness_default_None /with_witness_default /witness_after.
by case: ifP => //; case: w.
Qed.

(** Attribute [a] of the object holds [v] in the world [w]. *)
Definition has_attr (w : World) (a : attr) (v : value F) : Prop :=
  lookup_attr a (attrs w) = Some v.

Lemma get_poly_ok (w : World) (a : attr) (p : Polynomial F) :
  has_attr w a (VPoly p) -> get_poly a w = (Ok p, w).
Proof. by rewrite /has_attr /get_poly /bind /getattr => ->. Qed.

Lemma get_scalar_ok (w : World) (a : attr) (x : F) :
  has_attr w a (VScalar x) -> get_scalar a w = (Ok x, w).
Proof. by rewrite /has_attr /get_scalar /bind /getattr => ->. Qed.

Lemma get_roots_ok (w : World) (a : attr) (s : seq F) :
  has_attr w a (VRoots s) -> get_roots a w = (Ok s, w).
Proof. by rewrite /has_attr /get_roots /bind /getattr => ->. Qed.

Lemma index_list_ok A (x0 : A) (s : seq A) (i : nat) :
  (i < size s)%N -> index_list s i = Ok (nth x0 s i).
Proof.
by move=> lti; rewrite /index_list (nth_map x0).
Qed.

Lemma index_last_rcons A (s : seq A) (x : A) : index_last (rcons s x) = Ok x.
Proof. by case: s => [|y s] //=; rewrite last_rcons. Qed.

Lemma index_list_raise A (s : seq A) (i : nat) :
  (size s <= i)%N -> index_list s i = Raise IndexError.
Proof. by move=> lei; rewrite /index_list nth_default ?size_map. Qed.

Lemma set_nth_in A (x0 x1 : A) (s : seq A) (i : nat) (y : A) :
  (i < size s)%N -> set_nth x0 s i y = set_nth x1 s i y.
Proof. by elim: s i => [|x s IH] [|i] //= /IH ->. Qed.

Lemma Dict_get_contains (K : eqType) V (k : K) (d : Dict.t K V) :
  Dict.contains k d = isSome (Dict.get k d).
Proof.
rewrite /Dict.contains /Dict.keys.
elim: d => [|[k' v] d IH] //=; rewrite in_cons eq_sym.
by case: eqP => //= _.
Qed.

Lemma witness_get_ok (w : World) (k : option string) :
  Dict.contains k (witness w) ->
  witness_get k w = (Ok (odflt 0 (Dict.get k (witness w))), w).
Proof.
by rewrite Dict_get_contains /witness_get; case: (Dict.get k (witness w)).
Qed.

Lemma witness_get_raise (w : World) (k : option string) :
  ~~ Dict.contains k (witness w) -> witness_get k w = (Raise KeyError, w).
Proof.
by rewrite Dict_get_contains /witness_get; case: (Dict.get k (witness w)).
Qed.

(** ** round_1 *)

Variable self : Prover F G.
Let n := group_order self.

(** The wires of a gate are bound by the dict [d]. *)
Definition wire_bound (d : Dict.t (option string) int) (wire : Wire) : bool :=
  [&& Dict.contains (wire_L wire) d, Dict.contains (wire_R wire) d
    & Dict.contains (wire_O wire) d].

(** What the loop of round_1 leaves in a column, from row [i] on. *)
Fixpoint fill_column (d : Dict.t (option string) int)
    (proj : Wire -> option string) (i : nat) (ws : seq Wire) (col : seq int)
  : seq int :=
  if ws is wire :: ws' then
    let x := odflt 0 (Dict.get (proj wire) d) in
    fill_column d proj i.+1 ws' (set_nth x col i x)
  else col.

Lemma assign_wires_ok (w : World) (ws : seq Wire) (i : nat)
    (A_values B_values C_values : seq int) :
  all (wire_bound (witness w)) ws ->
  (i + size ws <= size A_values)%N -> (i + size ws <= size B_values)%N ->
  (i + size ws <= size C_values)%N ->
  assign_wires i ws A_values B_values C_values w
  = (Ok (fill_column (witness w) wire_L i ws A_values,
         fill_column (witness w) wire_R i ws B_values,
         fill_column (witness w) wire_O i ws C_values), w).
Proof.
elim: ws i A_values B_values C_values => [|wire ws IH] i As Bs Cs //=.
case/andP => /and3P [bL bR bO] bound; rewrite addnS => leA leB leC.
have ltA : (i < size As)%N by apply: leq_trans leA; rewrite ltnS leq_addr.
have ltB : (i < size Bs)%N by apply: leq_trans leB; rewrite ltnS leq_addr.
have ltC : (i < size Cs)%N by apply: leq_trans leC; rewrite ltnS leq_addr.
rewrite (bind_ok _ (witness_get_ok bL)) /bind /lift /store_list ltA.
rewrite (witness_get_ok bR) ltB (witness_get_ok bO) ltC.
by apply: IH; rewrite // size_set_nth (maxn_idPr _) // addSn.
Qed.

Lemma size_fill_column d proj i ws col :
  (i + size ws <= size col)%N -> size (fill_column d proj i ws col) = size col.
Proof.
elim: ws i col => [|wire ws IH] i col //=; rewrite addnS => le.
have lt : (i < size col)%N by apply: leq_trans le; rewrite ltnS leq_addr.
by rewrite IH size_set_nth (maxn_idPr _) // addSn.
Qed.

Lemma nth_fill_column d proj i ws col j :
  (i + size ws <= size col)%N ->
  nth 0 (fill_column d proj i ws col) j
  = if (i <= j < i + size ws)%N
    then odflt 0 (Dict.get (proj (nth (MkWire None None None) ws (j - i))) d)
    else nth 0 col j.
Proof.
elim: ws i col => [|wire ws IH] i col /=.
  by rewrite addn0; case: (leqP i j) => // leij; rewrite ltnNge leij.
rewrite addnS => le.
have lt : (i < size col)%N by apply: leq_trans le; rewrite ltnS leq_addr.
rewrite IH ?size_set_nth ?(maxn_idPr _) ?addSn //.
rewrite (set_nth_in _ 0) // nth_set_nth /=.
case: (ltngtP i j) => [ltij|ltji|->].
- by rewrite -[(j - i)%N]prednK ?subn_gt0 // -subnS.
- by [].
- by rewrite subnn ltnS leq_addr.
Qed.

Definition wire_column (d : Dict.t (option string) int)
    (proj : Wire -> option string) : seq int :=
  [seq odflt 0 (Dict.get (proj wire) d) | wire <- wires (program self)]
  ++ nseq (n - size (wires (program self))) 0.

Lemma fill_column_nseq d proj :
  (size (wires (program self)) <= n)%N ->
  fill_column d proj 0 (wires (program self)) (nseq n 0) = wire_column d proj.
Proof.
move=> le.
have le0 : (0 + size (wires (program self)) <= size (nseq n (0 : int)))%N.
  by rewrite add0n size_nseq.
apply: (@eq_from_nth _ 0).
  by rewrite (size_fill_column _ _ le0) size_nseq size_cat size_map size_nseq
             subnKC.
move=> j; rewrite (size_fill_column _ _ le0) size_nseq => ltj.
rewrite (nth_fill_column _ _ _ le0) add0n leq0n /= subn0 nth_cat size_map.
case: ifP => ltjs; first by rewrite (nth_map (MkWire None None None)).
by rewrite !nth_nseq !if_same.
Qed.

(** LAGRANGE polynomials, and the pointwise operations on them. *)
Definition lag (s : seq F) : Polynomial F := MkPolynomial s LAGRANGE.

Definition is_lag (k : nat) (p : Polynomial F) : bool :=
  Basis_eqb (basis p) LAGRANGE && (size (values p) == k).

Lemma is_lagP k p : reflect (p = lag (values p) /\ size (values p) = k) (is_lag k p).
Proof.
by case: p => s [] /=; rewrite /is_lag /lag /=; apply: (iffP idP) => //;
   [move/eqP | case=> _ /eqP | case].
Qed.

Lemma poly_mul_lag (s t : seq F) (k : nat) : size s = k -> size t = k ->
  poly_mul (lag s) (lag t) = Ok (lag (mkseq (fun i => s`_i * t`_i) k)).
Proof.
move=> szs szt; rewrite /poly_mul /= szs szt eqxx; congr (Ok (lag _)).
apply: (@eq_from_nth _ 0); rewrite size_map size_zip szs szt minnn ?size_mkseq //.
move=> i lti; rewrite (nth_map (0, 0)) ?size_zip ?szs ?szt ?minnn //.
by rewrite nth_zip ?szs ?szt //= nth_mkseq.
Qed.

Lemma poly_add_lag (s t : seq F) (k : nat) : size s = k -> size t = k ->
  poly_add (lag s) (lag t) = Ok (lag (mkseq (fun i => s`_i + t`_i) k)).
Proof.
move=> szs szt; rewrite /poly_add /= szs szt eqxx; congr (Ok (lag _)).
apply: (@eq_from_nth _ 0); rewrite size_map size_zip szs szt minnn ?size_mkseq //.
move=> i lti; rewrite (nth_map (0, 0)) ?size_zip ?szs ?szt ?minnn //.
by rewrite nth_zip ?szs ?szt //= nth_mkseq.
Qed.

Lemma mkseq_eq_nseq0 (f : nat -> F) (k : nat) :
  (mkseq f k == nseq k 0) = all (fun i => f i == 0) (iota 0 k).
Proof.
apply/eqP/allP => [eq i|all0].
  rewrite mem_iota add0n /= => lti.
  by rewrite -(nth_mkseq 0 f lti) eq nth_nseq lti.
apply: (@eq_from_nth _ 0); rewrite size_mkseq ?size_nseq // => i lti.
by rewrite nth_mkseq // nth_nseq lti; apply/eqP/all0; rewrite mem_iota.
Qed.

(** The preprocessed input is made of LAGRANGE polynomials of size [n]. *)
Definition pk_wf : bool :=
  all (is_lag n) [:: QM (pk self); QL (pk self); QR (pk self); QO (pk self);
                     QC (pk self); S1 (pk self); S2 (pk self); S3 (pk self)].

(** The gate expression at row [i]. *)
Definition gate_row (A B C PI : seq F) (i : nat) : F :=
  A`_i * (values (QL (pk self)))`_i + B`_i * (values (QR (pk self)))`_i
  + A`_i * B`_i * (values (QM (pk self)))`_i
  + C`_i * (values (QO (pk self)))`_i + PI`_i + (values (QC (pk self)))`_i.

Lemma gate_polynomial_ok (w : World) (A B C PI : seq F) :
  pk_wf -> size A = n -> size B = n -> size C = n -> size PI = n ->
  has_attr w self_A (VPoly (lag A)) -> has_attr w self_B (VPoly (lag B)) ->
  has_attr w self_C (VPoly (lag C)) -> has_attr w self_PI (VPoly (lag PI)) ->
  gate_polynomial self w = (Ok (lag (mkseq (gate_row A B C PI) n)), w).
Proof.
case/and5P => /is_lagP [eQM szQM] /is_lagP [eQL szQL] /is_lagP [eQR szQR].
move=> /is_lagP [eQO szQO] /and4P [/is_lagP [eQC szQC] _ _ _].
move=> szA szB szC szPI hA hB hC hPI.
rewrite /gate_polynomial eQL eQR eQM eQO eQC.
step (get_poly_ok hA); step_lift (poly_mul_lag szA szQL).
step (get_poly_ok hB); step_lift (poly_mul_lag szB szQR).
step_lift (poly_add_lag (size_mkseq _ _) (size_mkseq _ _)).
step (get_poly_ok hA); step (get_poly_ok hB).
step_lift (poly_mul_lag szA szB).
step_lift (poly_mul_lag (size_mkseq _ _) szQM).
step_lift (poly_add_lag (size_mkseq _ _) (size_mkseq _ _)).
step (get_poly_ok hC); step_lift (poly_mul_lag szC szQO).
step_lift (poly_add_lag (size_mkseq _ _) (size_mkseq _ _)).
step (get_poly_ok hPI).
step_lift (poly_add_lag (size_mkseq _ _) szPI).
rewrite /lift (poly_add_lag (size_mkseq _ _) szQC).
congr (Ok (lag _), _); apply/eq_in_map => i; rewrite mem_iota add0n /= => lti.
by rewrite !nth_mkseq.
Qed.

Lemma setup_commit_run (p : Polynomial F) (w : World) :
  setup_commit self p w = (Ok (commit (setup self) p), with_commit p w).
Proof. by []. Qed.

(** The wire polynomials round_1 builds from the dict [d]. *)
Definition wire_polynomial (d : Dict.t (option string) int)
    (proj : Wire -> option string) : Polynomial F :=
  lag [seq Scalar F x | x <- wire_column d proj].

Lemma size_wire_column d proj :
  (size (wires (program self)) <= n)%N -> size (wire_column d proj) = n.
Proof. by move=> le; rewrite size_cat size_map size_nseq subnKC. Qed.

(** The world round_1 leaves once the wire polynomials are built. *)
Definition world_after_round_1 (w : World) : World :=
  let d := witness_after (witness w) in
  let A := wire_polynomial d wire_L in
  let B := wire_polynomial d wire_R in
  let C := wire_polynomial d wire_O in
  MkWorld [:: (self_C, VPoly C), (self_B, VPoly B), (self_A, VPoly A)
            & attrs w] d (commit_log w ++ [:: A; B; C]).

(** The gate identity holds at every row, for the wire polynomials built
    from the dict [d] and the public-input values [PI]. *)
Definition gate_identity (d : Dict.t (option string) int) (PI : seq F) : bool :=
  all (fun i => gate_row (values (wire_polynomial d wire_L))
                  (values (wire_polynomial d wire_R))
                  (values (wire_polynomial d wire_O)) PI i == 0)
      (iota 0 n).

Lemma round_1_run (w : World) (PI : seq F) :
  let d := witness_after (witness w) in
  pk_wf -> size PI = n -> has_attr w self_PI (VPoly (lag PI)) ->
  (size (wires (program self)) <= n)%N ->
  all (wire_bound d) (wires (program self)) ->
  round_1 self w
  = (if gate_identity d PI
     then Ok (MkMessage1 (commit (setup self) (wire_polynomial d wire_L))
                (commit (setup self) (wire_polynomial d wire_R))
                (commit (setup self) (wire_polynomial d wire_O)))
     else Raise (AssertionError gate_check),
     world_after_round_1 w).
Proof.
move=> d wf szPI hPI le bound; rewrite /round_1.
step (witness_default_None_run w).
have le0 : (0 + size (wires (program self)) <= size (nseq n (0 : int)))%N.
  by rewrite add0n size_nseq.
step (@assign_wires_ok (with_witness_default w) _ 0 _ _ _ bound le0 le0 le0).
rewrite /= !fill_column_nseq // -/d.
step (setattr_run _ _ _); step (setattr_run _ _ _); step (setattr_run _ _ _).
step (setup_commit_run _ _); step (setup_commit_run _ _).
step (setup_commit_run _ _).
set w1 := with_commit _ _.
have -> : w1 = world_after_round_1 w.
  by rewrite /w1 /world_after_round_1 /with_commit /= -!cats1 -!catA.
have szcol proj : size [seq Scalar F x | x <- wire_column d proj] = n.
  by rewrite size_map size_wire_column.
step (@gate_polynomial_ok (world_after_round_1 w) _ _ _ PI wf
        (szcol wire_L) (szcol wire_R) (szcol wire_O) szPI
        (erefl _) (erefl _) (erefl _) hPI).
rewrite /poly_eq /= -/n -/(gate_identity d PI).
have -> : Scalar F 0 = 0 by [].
by rewrite mkseq_eq_nseq0 -/(gate_identity d PI); case: (gate_identity d PI).
Qed.

(** ** round_2 *)

Section WithWires.

Variables (A B C : seq F) (beta gamma : F).
Hypothesis wf : pk_wf.
Hypotheses (szA : size A = n) (szB : size B = n) (szC : size C = n).

Let omega := root_of_unity n.
Let S1v := values (S1 (pk self)).
Let S2v := values (S2 (pk self)).
Let S3v := values (S3 (pk self)).

(** [rlc] as a function of the challenges. *)
Definition rlc_of (term_1 term_2 : F) : F := term_1 + term_2 * beta + gamma.

Definition numerators (i : nat) : F * F * F :=
  (rlc_of A`_i (omega ^+ i), rlc_of B`_i (2%:R * omega ^+ i),
   rlc_of C`_i (3%:R * omega ^+ i)).

Definition denominators (i : nat) : F * F * F :=
  (rlc_of A`_i S1v`_i, rlc_of B`_i S2v`_i, rlc_of C`_i S3v`_i).

Definition numerator (i : nat) : F :=
  let: (fa, fb, fc) := numerators i in fa * fb * fc.

Definition denominator (i : nat) : F :=
  let: (ga, gb, gc) := denominators i in ga * gb * gc.

(** The world holds the wire polynomials and the challenges of round 1. *)
Definition round_1_done (w : World) : Prop :=
  [/\ has_attr w self_A (VPoly (lag A)), has_attr w self_B (VPoly (lag B)),
      has_attr w self_C (VPoly (lag C)), has_attr w self_beta (VScalar beta)
    & has_attr w self_gamma (VScalar gamma)].

Lemma rlc_run (w : World) (t1 t2 : F) : round_1_done w ->
  rlc t1 t2 w = (Ok (rlc_of t1 t2), w).
Proof.
case=> _ _ _ hb hg; rewrite /rlc.
by step (get_scalar_ok hb); step (get_scalar_ok hg).
Qed.

Lemma attr_value_at_ok (w : World) (a : attr) (s : seq F) (i : nat) :
  has_attr w a (VPoly (lag s)) -> (i < size s)%N ->
  attr_value_at a i w = (Ok s`_i, w).
Proof.
move=> h lti; rewrite /attr_value_at; step (get_poly_ok h).
by rewrite /lift (index_list_ok 0).
Qed.

Lemma sizes_S : [/\ size S1v = n, size S2v = n & size S3v = n].
Proof.
case/and5P: wf => _ _ _ _ /and4P [_ /is_lagP [_ s1] /is_lagP [_ s2]].
by rewrite andbT => /is_lagP [_ s3].
Qed.

Lemma permutation_numerator_ok (w : World) (i : nat) :
  round_1_done w -> (i < n)%N ->
  permutation_numerator (roots_of_unity root_of_unity n) i w
  = (Ok (numerators i), w).
Proof.
move=> done lti; have [hA hB hC _ _] := done.
have ri : index_list (roots_of_unity root_of_unity n) i = Ok (omega ^+ i).
  by rewrite (index_list_ok 0) ?size_roots_of_unity // (nth_map 0%N)
             ?size_iota // nth_iota.
have ltA : (i < size A)%N by rewrite szA.
have ltB : (i < size B)%N by rewrite szB.
have ltC : (i < size C)%N by rewrite szC.
rewrite /permutation_numerator.
step (attr_value_at_ok hA ltA); step_lift ri; step (rlc_run _ _ done).
step (attr_value_at_ok hB ltB); step_lift ri; step (rlc_run _ _ done).
by step (attr_value_at_ok hC ltC); step_lift ri; step (rlc_run _ _ done).
Qed.

Lemma permutation_denominator_ok (w : World) (i : nat) :
  round_1_done w -> (i < n)%N ->
  permutation_denominator self i w = (Ok (denominators i), w).
Proof.
move=> done lti; have [hA hB hC _ _] := done; have [s1 s2 s3] := sizes_S.
have ltA : (i < size A)%N by rewrite szA.
have ltB : (i < size B)%N by rewrite szB.
have ltC : (i < size C)%N by rewrite szC.
have lt1 : (i < size S1v)%N by rewrite s1.
have lt2 : (i < size S2v)%N by rewrite s2.
have lt3 : (i < size S3v)%N by rewrite s3.
rewrite /permutation_denominator.
step (attr_value_at_ok hA ltA); step_lift (index_list_ok 0 lt1).
step (rlc_run _ _ done).
step (attr_value_at_ok hB ltB); step_lift (index_list_ok 0 lt2).
step (rlc_run _ _ done).
step (attr_value_at_ok hC ltC); step_lift (index_list_ok 0 lt3).
by step (rlc_run _ _ done).
Qed.

(** One step of the accumulator, as the loop computes it. *)
Definition accumulator_step (z : F) (i : nat) : F :=
  let: (fa, fb, fc) := numerators i in
  let: (ga, gb, gc) := denominators i in
  z * fa * fb * fc / ga / gb / gc.

(** The accumulator values [Z_0, Z_1, ...]. *)
Fixpoint Z_value (i : nat) : F :=
  if i is i'.+1 then accumulator_step (Z_value i') i' else 1.

Lemma accumulate_cons (rs : seq F) (i : nat) (rows : seq nat) (Zs : seq F) :
  accumulate self rs (i :: rows) Zs
  = bind (lift (index_last Zs)) (fun z =>
    bind (permutation_numerator rs i) (fun fs =>
    let: (fa, fb, fc) := fs in
    bind (permutation_denominator self i) (fun gs =>
    let: (ga, gb, gc) := gs in
    accumulate self rs rows (rcons Zs (z * fa * fb * fc / ga / gb / gc))))).
Proof. by []. Qed.

Lemma accumulate_ok (w : World) (k m : nat) :
  round_1_done w -> (k + m <= n)%N ->
  accumulate self (roots_of_unity root_of_unity n) (iota k m)
    (mkseq Z_value k.+1) w
  = (Ok (mkseq Z_value (k + m).+1), w).
Proof.
move=> done; elim: m k => [|m IH] k; first by rewrite addn0.
rewrite addnS => le; rewrite [iota k m.+1]/= accumulate_cons.
have ltk : (k < n)%N by apply: leq_trans le; rewrite ltnS leq_addr.
have lastZ : index_last (mkseq Z_value k.+1) = Ok (Z_value k).
  by rewrite mkseqS index_last_rcons.
step_lift lastZ.
step (permutation_numerator_ok done ltk); rewrite {1}/numerators.
step (permutation_denominator_ok done ltk); rewrite {1}/denominators.
cbv beta iota.
set z := (_ / _ / _ / _).
have -> : rcons (mkseq Z_value k.+1) z = mkseq Z_value k.+2.
  by rewrite [RHS]mkseqS.
by rewrite IH ?addSn // addSnnS.
Qed.

(** The identity the sanity loop of round_2 asserts at row [i]. *)
Definition local_identity (i : nat) : bool :=
  let: (fa, fb, fc) := numerators i in
  let: (ga, gb, gc) := denominators i in
  fa * fb * fc * (mkseq Z_value n)`_i
  - ga * gb * gc * (mkseq Z_value n)`_((i + 1) %% n) == 0.

Lemma check_row_run (w : World) (i : nat) :
  round_1_done w -> (i < n)%N ->
  check_row self (roots_of_unity root_of_unity n) (mkseq Z_value n) i w
  = (if local_identity i then Ok tt else Raise (AssertionError local_check), w).
Proof.
move=> done lti; rewrite /check_row /local_identity.
have n_gt0 : (0 < n)%N by apply: leq_ltn_trans lti.
have lt1 : (i < size (mkseq Z_value n))%N by rewrite size_mkseq.
have lt2 : ((i + 1) %% n < size (mkseq Z_value n))%N.
  by rewrite size_mkseq ltn_mod.
step (permutation_numerator_ok done lti); rewrite /numerators.
step_lift (index_list_ok 0 lt1).
step (permutation_denominator_ok done lti); rewrite /denominators.
step_lift (index_list_ok 0 lt2).
by rewrite /assert_at -/n; case: ifP.
Qed.

Lemma forM__run (T : eqType) (f : T -> M unit) (P : pred T) (e : exn)
    (s : seq T) (w : World) :
  (forall x, x \in s -> f x w = (if P x then Ok tt else Raise e, w)) ->
  forM_ f s w = (if all P s then Ok tt else Raise e, w).
Proof.
elim: s => [|x s IH] //= run.
rewrite /bind run ?mem_head //; case: (P x) => //=.
by apply: IH => y yin; rewrite run // in_cons yin orbT.
Qed.

Lemma belast'_rcons (T : Type) (s : seq T) (x : T) : belast' (rcons s x) = s.
Proof. by case: s => [|y s] //=; rewrite belast_rcons. Qed.

(** The accumulator polynomial and the world round_2 leaves on success. *)
Definition Z_polynomial : Polynomial F := lag (mkseq Z_value n).

Definition world_after_round_2 (w : World) : World :=
  with_attr self_Z (VPoly Z_polynomial) (with_commit Z_polynomial w).

Lemma round_2_run (w : World) : round_1_done w ->
  round_2 root_of_unity self w
  = if Z_value n == 1 then
      if all local_identity (iota 0 n)
      then (Ok (MkMessage2 (commit (setup self) Z_polynomial)),
            world_after_round_2 w)
      else (Raise (AssertionError local_check), w)
    else (Raise (AssertionError grand_product_check), w).
Proof.
move=> done; rewrite /round_2 -/n.
have -> : [:: Scalar F 1] = mkseq Z_value 1 by [].
step (@accumulate_ok w 0 n done (leqnn _)); rewrite add0n mkseqS.
step_lift (index_last_rcons _ _); rewrite belast'_rcons.
case: (Z_value n == 1); last by [].
rewrite /assert_at; step (erefl : ret tt w = (Ok tt, w)).
rewrite /bind (@forM__run _ _ local_identity (AssertionError local_check)).
  by move=> i; rewrite mem_iota add0n /= => lti; rewrite check_row_run.
by case: (all _ _).
Qed.

(** Once the accumulator has come back to 1, the row identities hold:
    no denominator was 0, and the wrap-around row closes on [Z_0 = Z_n]. *)
Lemma Z_value_eq0 (j k : nat) : (j <= k)%N -> Z_value j = 0 -> Z_value k = 0.
Proof.
move=> lejk zj; elim: k lejk => [|k IH]; first by rewrite leqn0 => /eqP <-.
rewrite leq_eqVlt => /orP [/eqP <- //|]; rewrite ltnS => /IH /= ->.
by rewrite /accumulator_step /numerators /denominators !mul0r.
Qed.

Lemma local_identity_holds (i : nat) :
  Z_value n = 1 -> (i < n)%N -> local_identity i.
Proof.
move=> Zn lti; rewrite /local_identity.
have nz : Z_value i.+1 != 0.
  apply/eqP => /(Z_value_eq0 lti) /eqP.
  by rewrite Zn oner_eq0.
have -> : (mkseq Z_value n)`_((i + 1) %% n) = Z_value i.+1.
  move: lti; rewrite addn1 leq_eqVlt => /orP [/eqP eq|lt].
    by rewrite eq modnn nth_mkseq ?Zn // -eq.
  by rewrite modn_small // nth_mkseq.
rewrite nth_mkseq //; move: nz => /=.
rewrite /accumulator_step /numerators /denominators.
set fa := rlc_of _ _; set fb := rlc_of _ _; set fc := rlc_of _ _.
set ga := rlc_of _ _; set gb := rlc_of _ _; set gc := rlc_of _ _.
rewrite !mulf_eq0 !invr_eq0 !negb_or -!andbA.
case/and5P => _ _ _ _ /and3P [ga0 gb0 gc0].
by apply/eqP; field; rewrite ga0 gb0 gc0.
Qed.

Lemma all_local_identity : Z_value n = 1 -> all local_identity (iota 0 n).
Proof.
move=> Zn; apply/allP => i; rewrite mem_iota add0n /=.
exact: local_identity_holds.
Qed.

(** ** round_3 *)

Lemma mapM_run (T : eqType) (U : Type) (f : T -> M U) (g : T -> U)
    (s : seq T) (w : World) :
  (forall x, x \in s -> f x w = (Ok (g x), w)) ->
  mapM f s w = (Ok [seq g x | x <- s], w).
Proof.
elim: s => [|x s IH] //= run.
rewrite (bind_ok _ (run x (mem_head _ _))) (bind_ok _ (IH _)) //.
by move=> y yin; rewrite run // in_cons yin orbT.
Qed.

(** The values of the interpolant of [s] over the coset of the domain of
    four times the size. *)
Definition coset_list (s : seq F) (offset : F) : seq F :=
  [seq (interpolant root_of_unity s).[offset * root_of_unity (size s * 4) ^+ i]
  | i <- iota 0 (size s * 4)].

Arguments coset_list : simpl never.

Lemma size_coset_list s offset : size (coset_list s offset) = (size s * 4)%N.
Proof. by rewrite size_map size_iota. Qed.

Lemma fft_expand_run (w : World) (s : seq F) (offset : F) :
  has_attr w self_fft_cofactor (VScalar offset) ->
  fft_expand root_of_unity (lag s) w = (Ok (lag (coset_list s offset)), w).
Proof.
move=> h; rewrite /fft_expand; step (get_scalar_ok h).
by rewrite /lift to_coset_extended_lagrangeE.
Qed.

Variables (Zs PI : seq F) (alpha kappa : F).
Hypotheses (szZ : size Zs = n) (szPI : size PI = n).

(** The world holds what rounds 1 and 2 and their challenges left. *)
Definition round_2_done (w : World) : Prop :=
  [/\ round_1_done w, has_attr w self_PI (VPoly (lag PI)),
      has_attr w self_Z (VPoly (lag Zs)),
      has_attr w self_alpha (VScalar alpha)
    & has_attr w self_fft_cofactor (VScalar kappa)].

(** The item of [QUOT_values] at index [i], from the items at index [i]
    of the coset vectors. *)
Definition QUOT_item (e : coset_inputs F) (quarter_roots : seq F) (i : nat) : F :=
  let a := (values (in_A_big e))`_i in
  let b := (values (in_B_big e))`_i in
  let c := (values (in_C_big e))`_i in
  let z := (values (in_Z_big e))`_i in
  let q := quarter_roots`_i in
  ((a * (values (in_QL_big e))`_i + b * (values (in_QR_big e))`_i
    + a * b * (values (in_QM_big e))`_i + c * (values (in_QO_big e))`_i
    + (values (in_PI_big e))`_i + (values (in_QC_big e))`_i)
   + (rlc_of a (kappa * q) * rlc_of b (2%:R * kappa * q)
      * rlc_of c (3%:R * kappa * q)) * alpha * z
   - (rlc_of a (values (in_S1_big e))`_i * rlc_of b (values (in_S2_big e))`_i
      * rlc_of c (values (in_S3_big e))`_i)
     * alpha * (values (in_Z_shifted_big e))`_i
   + ((z - 1) * (values (in_L0_big e))`_i * alpha ^+ 2))
  / (values (in_ZH_big e))`_i.

Definition coset_sized (e : coset_inputs F) (k : nat) : bool :=
  all (fun p => size (values p) == k)
    [:: in_A_big e; in_B_big e; in_C_big e; in_PI_big e; in_QL_big e;
        in_QR_big e; in_QM_big e; in_QO_big e; in_QC_big e; in_Z_big e;
        in_Z_shifted_big e; in_S1_big e; in_S2_big e; in_S3_big e;
        in_ZH_big e; in_L0_big e].

Lemma QUOT_value_run (w : World) (e : coset_inputs F) (quarter_roots : seq F)
    (k i : nat) :
  round_1_done w -> has_attr w self_alpha (VScalar alpha) ->
  coset_sized e k -> size quarter_roots = k -> (i < k)%N ->
  QUOT_value e kappa alpha quarter_roots i w
  = (Ok (QUOT_item e quarter_roots i), w).
Proof.
move=> done ha /and5P [/eqP s1 /eqP s2 /eqP s3 /eqP s4].
move=> /and5P [/eqP s5 /eqP s6 /eqP s7 /eqP s8].
move=> /and5P [/eqP s9 /eqP s10 /eqP s11 /eqP s12].
move=> /and5P [/eqP s13 /eqP s14 /eqP s15 /eqP s16 _] sq lti.
have idx (s : seq F) : size s = k -> index_list s i = Ok s`_i.
  by move=> sz; rewrite (index_list_ok 0) // sz.
rewrite /QUOT_value.
step_lift (idx _ s1); step_lift (idx _ s5); step_lift (idx _ s2).
step_lift (idx _ s6); step_lift (idx _ s7); step_lift (idx _ s3).
step_lift (idx _ s8); step_lift (idx _ s4); step_lift (idx _ s9).
step_lift (idx _ sq).
step (rlc_run _ _ done); step (rlc_run _ _ done); step (rlc_run _ _ done).
step_lift (idx _ s10); step_lift (idx _ s12); step (rlc_run _ _ done).
step_lift (idx _ s13); step (rlc_run _ _ done).
step_lift (idx _ s14); step (rlc_run _ _ done).
step_lift (idx _ s11); step_lift (idx _ s16).
step (get_scalar_ok ha); step_lift (idx _ s15).
by [].
Qed.

Lemma has_attr_with_attr (w : World) (a b : attr) (x v : value F) :
  attr_eqb b a = false -> has_attr w a v -> has_attr (with_attr b x w) a v.
Proof. by rewrite /has_attr /= => ->. Qed.

Lemma has_attr_with_commit (w : World) (a : attr) (p : Polynomial F)
    (v : value F) :
  has_attr w a v -> has_attr (with_commit p w) a v.
Proof. by []. Qed.

(** The attributes round 3 reads and does not assign. *)
Definition round_2_attrs : seq attr :=
  [:: self_A; self_B; self_C; self_beta; self_gamma; self_PI; self_Z;
      self_alpha; self_fft_cofactor].

Lemma round_2_done_with_attr (w : World) (b : attr) (x : value F) :
  all (fun a => ~~ attr_eqb b a) round_2_attrs ->
  round_2_done w -> round_2_done (with_attr b x w).
Proof.
move=> /and5P [/negbTE nA /negbTE nB /negbTE nC /negbTE nb].
move=> /and5P [/negbTE ng /negbTE nPI /negbTE nZ /negbTE na].
rewrite andbT => /negbTE nk [[hA hB hC hb hg] hPI hZ ha hk].
by split; first split; apply: has_attr_with_attr.
Qed.

Let QLv := values (QL (pk self)).
Let QRv := values (QR (pk self)).
Let QMv := values (QM (pk self)).
Let QOv := values (QO (pk self)).
Let QCv := values (QC (pk self)).

Lemma pk_lag :
  [/\ QL (pk self) = lag QLv, QR (pk self) = lag QRv, QM (pk self) = lag QMv,
      QO (pk self) = lag QOv & QC (pk self) = lag QCv]
  /\ [/\ S1 (pk self) = lag S1v, S2 (pk self) = lag S2v
        & S3 (pk self) = lag S3v].
Proof.
case/and5P: wf => /is_lagP [eQM _] /is_lagP [eQL _] /is_lagP [eQR _].
move=> /is_lagP [eQO _] /and4P [/is_lagP [eQC _] /is_lagP [e1 _]].
by move=> /is_lagP [e2 _]; rewrite andbT => /is_lagP [e3 _].
Qed.

Lemma pk_sizes :
  [/\ size QLv = n, size QRv = n, size QMv = n, size QOv = n & size QCv = n].
Proof.
case/and5P: wf => /is_lagP [_ sQM] /is_lagP [_ sQL] /is_lagP [_ sQR].
by move=> /is_lagP [_ sQO] /and4P [/is_lagP [_ sQC] _ _ _].
Qed.

Definition quarter_roots_list : seq F := roots_of_unity root_of_unity (n * 4).

Definition L0_values : seq F := Scalar F 1 :: nseq (n - 1) (Scalar F 0).

Arguments L0_values : simpl never.

Definition ZH_values : seq F :=
  [seq (w * kappa) ^+ n - 1 | w <- quarter_roots_list].

(** The coset vectors round_3 computes the quotient from. *)
Definition round_3_inputs : coset_inputs F :=
  MkCosetInputs (lag (coset_list A kappa)) (lag (coset_list B kappa))
    (lag (coset_list C kappa)) (lag (coset_list PI kappa))
    (lag (coset_list QLv kappa)) (lag (coset_list QRv kappa))
    (lag (coset_list QMv kappa)) (lag (coset_list QOv kappa))
    (lag (coset_list QCv kappa)) (lag (coset_list Zs kappa))
    (lag (rot 4 (coset_list Zs kappa)))
    (lag (coset_list S1v kappa)) (lag (coset_list S2v kappa))
    (lag (coset_list S3v kappa)) (lag ZH_values)
    (lag (coset_list L0_values kappa)).

Definition QUOT_values_list : seq F :=
  [seq QUOT_item round_3_inputs quarter_roots_list i | i <- iota 0 (n * 4)].

Definition world_after_quotient (w : World) : World :=
  with_attr self_S3_big (VPoly (lag (coset_list S3v kappa)))
    (with_attr self_S2_big (VPoly (lag (coset_list S2v kappa)))
      (with_attr self_S1_big (VPoly (lag (coset_list S1v kappa)))
        (with_attr self_C_big (VPoly (lag (coset_list C kappa)))
          (with_attr self_B_big (VPoly (lag (coset_list B kappa)))
            (with_attr self_A_big (VPoly (lag (coset_list A kappa)))
              (with_attr self_quarter_roots (VRoots quarter_roots_list)
                w)))))).

Lemma round_2_done_after_quotient (w : World) :
  round_2_done w -> round_2_done (world_after_quotient w).
Proof. by move=> done; do 7!apply: round_2_done_with_attr => //. Qed.

Lemma size_L0_values : (0 < n)%N -> size L0_values = n.
Proof. by move=> n_gt0; rewrite /L0_values /= size_nseq subn1 prednK. Qed.

Lemma round_3_inputs_sized : (0 < n)%N -> coset_sized round_3_inputs (n * 4).
Proof.
move=> n_gt0; have [s1 s2 s3] := sizes_S; have [sL sR sM sO sC] := pk_sizes.
rewrite /coset_sized /round_3_inputs.
cbn [all in_A_big in_B_big in_C_big in_PI_big in_QL_big in_QR_big in_QM_big
     in_QO_big in_QC_big in_Z_big in_Z_shifted_big in_S1_big in_S2_big
     in_S3_big in_ZH_big in_L0_big values lag].
rewrite size_rot !size_coset_list szA szB szC szPI szZ.
rewrite sL sR sM sO sC s1 s2 s3 size_L0_values // !eqxx.
by rewrite size_map size_roots_of_unity eqxx.
Qed.

Lemma quotient_polynomial_run (w : World) : (0 < n)%N -> round_2_done w ->
  quotient_polynomial root_of_unity self kappa alpha w
  = (Ok (lag QUOT_values_list), world_after_quotient w).
Proof.
move=> n_gt0 done; rewrite /quotient_polynomial -/n.
have [[eQL eQR eQM eQO eQC] [e1 e2 e3]] := pk_lag.
rewrite eQL eQR eQM eQO eQC e1 e2 e3.
step (setattr_run _ _ _); set w1 := with_attr _ _ w.
have done1 : round_2_done w1 by apply: round_2_done_with_attr.
have [[hA hB hC _ _] hPI hZ ha hk] := done1.
step (get_poly_ok hA); step (fft_expand_run _ hk).
step (get_poly_ok hB); step (fft_expand_run _ hk).
step (get_poly_ok hC); step (fft_expand_run _ hk).
step (setattr_run _ _ _); step (setattr_run _ _ _); step (setattr_run _ _ _).
set w4 := with_attr _ _ (with_attr _ _ (with_attr _ _ w1)).
have done4 : round_2_done w4 by do 3!apply: round_2_done_with_attr => //.
have {hA hB hC hPI hZ ha hk} [_ hPI hZ ha hk] := done4.
step (get_poly_ok hPI); step (fft_expand_run _ hk).
step (fft_expand_run _ hk); step (fft_expand_run _ hk).
step (fft_expand_run _ hk); step (fft_expand_run _ hk).
step (fft_expand_run _ hk).
step (get_poly_ok hZ); step (fft_expand_run _ hk).
step_lift (erefl : shift (lag (coset_list Zs kappa)) 4 = Ok (lag _)).
step (fft_expand_run _ hk); step (fft_expand_run _ hk).
step (fft_expand_run _ hk).
step (setattr_run _ _ _); step (setattr_run _ _ _); step (setattr_run _ _ _).
rewrite -/(world_after_quotient w).
have done7 := round_2_done_after_quotient done.
have {hPI hZ ha hk} [done_1 _ _ ha hk] := done7.
step (fft_expand_run _ hk).
rewrite -/L0_values -/quarter_roots_list -/ZH_values -/round_3_inputs.
rewrite (bind_ok _ (@mapM_run _ _ _ (QUOT_item round_3_inputs quarter_roots_list)
                      _ _ _)) //.
move=> i; rewrite mem_iota add0n /= => lti.
apply: (QUOT_value_run done_1 ha (round_3_inputs_sized n_gt0)) => //.
by rewrite size_roots_of_unity.
Qed.

(** The value [barycentric_eval] returns on a LAGRANGE polynomial. *)
Definition barycentric_value (s : seq F) (x : F) : F :=
  let rs := roots_of_unity root_of_unity (size s) in
  if x \in rs then s`_(seq.index x rs)
  else (x ^+ size s - 1) / (size s)%:R
       * sumr [seq vr.1 * vr.2 / (x - vr.2) | vr <- zip s rs].

Lemma barycentric_eval_lag (s : seq F) (x : F) :
  barycentric_eval root_of_unity (lag s) x = Ok (barycentric_value s x).
Proof. by rewrite /barycentric_eval /barycentric_value /=; case: ifP. Qed.

(** The coefficients [coset_extended_lagrange_to_coeffs] returns. *)
Definition coset_coeffs (s : seq F) (offset : F) : seq F :=
  [seq iv.2 * (1 / offset) ^+ iv.1
  | iv <- zip (iota 0 (size (idft root_of_unity s))) (idft root_of_unity s)].

Arguments coset_coeffs : simpl never.

Lemma coset_to_coeffs_lag (s : seq F) (offset : F) :
  coset_extended_lagrange_to_coeffs root_of_unity (lag s) offset
  = Ok (MkPolynomial (coset_coeffs s offset) MONOMIAL).
Proof. by []. Qed.

Lemma size_coset_coeffs (s : seq F) (offset : F) :
  size (coset_coeffs s offset) = size s.
Proof.
by rewrite /coset_coeffs size_map size_zip size_iota minnn size_idft.
Qed.

Lemma expanded_evals_to_coeffs_run (w : World) (s : seq F) (offset : F) :
  has_attr w self_fft_cofactor (VScalar offset) ->
  expanded_evals_to_coeffs root_of_unity (lag s) w
  = (Ok (MkPolynomial (coset_coeffs s offset) MONOMIAL), w).
Proof.
by move=> h; rewrite /expanded_evals_to_coeffs; step (get_scalar_ok h).
Qed.

Lemma fft_monomial (s : seq F) :
  fft root_of_unity (MkPolynomial s MONOMIAL) = Ok (lag (dft root_of_unity s)).
Proof. by []. Qed.

(** The quotient's coefficients, its three chunks and the two sides of the
    chunk assertion. *)
Definition QUOT_coeffs_list : seq F := coset_coeffs QUOT_values_list kappa.

Definition T1_polynomial : Polynomial F :=
  lag (dft root_of_unity (chunk_lo n QUOT_coeffs_list)).
Definition T2_polynomial : Polynomial F :=
  lag (dft root_of_unity (chunk_mid n QUOT_coeffs_list)).
Definition T3_polynomial : Polynomial F :=
  lag (dft root_of_unity (chunk_hi n QUOT_coeffs_list)).

Definition chunk_lhs : F :=
  barycentric_value (values T1_polynomial) kappa
  + barycentric_value (values T2_polynomial) kappa * kappa ^+ n
  + barycentric_value (values T3_polynomial) kappa * kappa ^+ (n * 2).

Definition quotient_degree_ok : bool :=
  slice_last n QUOT_coeffs_list == nseq n 0.

Definition chunk_ok : bool := chunk_lhs == QUOT_values_list`_0.

Definition world_before_chunk_check (w : World) : World :=
  with_attr self_T3 (VPoly T3_polynomial)
    (with_attr self_T2 (VPoly T2_polynomial)
      (with_attr self_T1 (VPoly T1_polynomial) (world_after_quotient w))).

Definition world_after_round_3 (w : World) : World :=
  with_commit T3_polynomial
    (with_commit T2_polynomial
      (with_commit T1_polynomial (world_before_chunk_check w))).

Definition round_3_message : Message3 G :=
  MkMessage3 (commit (setup self) T1_polynomial)
    (commit (setup self) T2_polynomial) (commit (setup self) T3_polynomial).

Lemma chunk_sum_run (w : World) :
  chunk_sum root_of_unity self T1_polynomial T2_polynomial T3_polynomial
    kappa w
  = (Ok chunk_lhs, w).
Proof.
rewrite /chunk_sum.
step_lift (barycentric_eval_lag _ _); step_lift (barycentric_eval_lag _ _).
by step_lift (barycentric_eval_lag _ _).
Qed.

Lemma round_3_run (w : World) : (0 < n)%N -> round_2_done w ->
  round_3 root_of_unity self w
  = if quotient_degree_ok then
      if chunk_ok then (Ok round_3_message, world_after_round_3 w)
      else (Raise (AssertionError chunk_check), world_before_chunk_check w)
    else (Raise (AssertionError quotient_degree), world_after_quotient w).
Proof.
move=> n_gt0 done; have [_ _ _ ha hk] := done.
have [_ _ _ _ hk7] := round_2_done_after_quotient done.
rewrite /round_3 -/n.
step (get_scalar_ok hk); step (get_scalar_ok ha).
step (quotient_polynomial_run n_gt0 done).
step (expanded_evals_to_coeffs_run _ hk7).
rewrite [values _]/= -/QUOT_coeffs_list -/quotient_degree_ok.
case: quotient_degree_ok; last by [].
rewrite /assert_at; step (erefl : ret tt _ = (Ok tt, _)).
step_lift (coset_to_coeffs_lag _ _).
rewrite [values _]/= -/QUOT_coeffs_list.
step_lift (fft_monomial _); step_lift (fft_monomial _).
step_lift (fft_monomial _).
rewrite -/T1_polynomial -/T2_polynomial -/T3_polynomial.
step (setattr_run _ _ _); step (setattr_run _ _ _); step (setattr_run _ _ _).
rewrite -/(world_before_chunk_check w).
step (chunk_sum_run _).
have lt0 : (0 < size QUOT_values_list)%N.
  by rewrite size_map size_iota muln_gt0 n_gt0.
step_lift (index_list_ok 0 lt0).
rewrite -/chunk_ok; case: chunk_ok; last by [].
step (erefl : ret tt _ = (Ok tt, _)).
by step (setup_commit_run _ _); step (setup_commit_run _ _).
Qed.

(** ** The quotient as a polynomial *)

Hypothesis prim_n : n.-primitive_root (root_of_unity n).
Hypothesis prim_4n : (n * 4).-primitive_root (root_of_unity (n * 4)).
Hypothesis root_compat : root_of_unity (n * 4) ^+ 4 = root_of_unity n.

Let mu := root_of_unity (n * 4).

Local Notation interp := (interpolant root_of_unity).

Lemma n_gt0 : (0 < n)%N.
Proof. exact: prim_order_gt0 prim_n. Qed.

Lemma coset_list_evals (s : seq F) (offset : F) : size s = n ->
  coset_list s offset = coset_evals root_of_unity n (interp s) offset.
Proof. by move=> sz; rewrite /coset_list /coset_evals sz. Qed.

Lemma nth_coset_list (s : seq F) (offset : F) (i : nat) :
  size s = n -> (i < n * 4)%N ->
  (coset_list s offset)`_i = (interp s).[offset * mu ^+ i].
Proof. by move=> sz lti; rewrite coset_list_evals // nth_coset_evals. Qed.

Lemma size_interp (s : seq F) : size s = n -> (size (interp s) <= n)%N.
Proof. by move=> <-; exact: size_interpolant. Qed.

(** [p (omega * X)] *)
Definition shifted (p : {poly F}) : {poly F} :=
  \poly_(j < n) (p`_j * omega ^+ j).

Lemma size_shifted (p : {poly F}) : (size (shifted p) <= n)%N.
Proof. exact: size_poly. Qed.

Lemma horner_shifted (p : {poly F}) (x : F) :
  (size p <= n)%N -> (shifted p).[x] = p.[omega * x].
Proof.
move=> le; rewrite horner_poly (@horner_coef_wide _ n) //.
by apply: eq_bigr => j _; rewrite exprMn mulrA.
Qed.

Lemma nth_rot_coset_list (s : seq F) (offset : F) (i : nat) :
  size s = n -> (i < n * 4)%N ->
  (rot 4 (coset_list s offset))`_i = (shifted (interp s)).[offset * mu ^+ i].
Proof.
move=> sz lti; rewrite horner_shifted ?size_interp //.
have mu4n : mu ^+ (n * 4) = 1 by exact: prim_expr_order prim_4n.
have le4 : (4 <= n * 4)%N by rewrite -[X in (X <= _)%N]mul1n leq_mul2r n_gt0 orbT.
have -> : omega * (offset * mu ^+ i) = offset * mu ^+ (i + 4).
  by rewrite exprD root_compat -/omega; ring.
rewrite /rot nth_cat size_drop size_coset_list sz.
case: ltnP => [lt|ge].
  rewrite nth_drop nth_coset_list ?[(4 + i)%N]addnC //.
  by rewrite addnC -ltn_subRL.
have lt4 : (i - (n * 4 - 4) < 4)%N by rewrite ltn_subLR // subnK.
have lt' : (i - (n * 4 - 4) < n * 4)%N.
  by apply: leq_ltn_trans lti; apply: leq_subr.
rewrite nth_take // nth_coset_list //; congr (_.[_ * _]).
by rewrite -[in RHS](subnK ge) -addnA subnK // exprD mu4n mulr1.
Qed.

(** The interpolants of the wires, of the accumulator and of the
    preprocessed input, and the numerator of the quotient. *)
Definition rlc_X (c : F) (p : {poly F}) : {poly F} :=
  p + (c * beta) *: 'X + gamma%:P.

Definition rlc_S (p s : {poly F}) : {poly F} := p + beta *: s + gamma%:P.

Definition gate_poly : {poly F} :=
  interp A * interp QLv + interp B * interp QRv
  + interp A * interp B * interp QMv + interp C * interp QOv
  + interp PI + interp QCv.

Definition permutation_poly : {poly F} :=
  rlc_X 1 (interp A) * rlc_X 2%:R (interp B) * rlc_X 3%:R (interp C)
  * alpha%:P * interp Zs
  - rlc_S (interp A) (interp S1v) * rlc_S (interp B) (interp S2v)
    * rlc_S (interp C) (interp S3v) * alpha%:P * shifted (interp Zs).

Definition boundary_poly : {poly F} :=
  (interp Zs - 1%:P) * interp L0_values * (alpha ^+ 2)%:P.

Definition numerator_poly : {poly F} :=
  gate_poly + permutation_poly + boundary_poly.

(** The quotient's items are the numerator over the vanishing polynomial,
    at the points of the coset. *)
Lemma QUOT_item_poly (i : nat) : (i < n * 4)%N ->
  QUOT_item round_3_inputs quarter_roots_list i
  = numerator_poly.[kappa * mu ^+ i] / ((kappa * mu ^+ i) ^+ n - 1).
Proof.
move=> lti; have [s1 s2 s3] := sizes_S; have [sL sR sM sO sC] := pk_sizes.
have sL0 := size_L0_values n_gt0.
rewrite /QUOT_item /round_3_inputs.
cbn [in_A_big in_B_big in_C_big in_PI_big in_QL_big in_QR_big in_QM_big
     in_QO_big in_QC_big in_Z_big in_Z_shifted_big in_S1_big in_S2_big
     in_S3_big in_ZH_big in_L0_big values lag].
rewrite nth_rot_coset_list // !nth_coset_list //.
have qi : quarter_roots_list`_i = mu ^+ i.
  by rewrite /quarter_roots_list (nth_map 0%N) ?size_iota // nth_iota.
rewrite /ZH_values (nth_map 0) ?size_roots_of_unity // qi.
rewrite /numerator_poly /gate_poly /permutation_poly /boundary_poly.
rewrite /rlc_X /rlc_S /rlc_of.
rewrite !(hornerD, hornerN, hornerM, hornerZ, hornerC, hornerX).
congr (_ / _); first by ring.
by rewrite [_ * kappa]mulrC.
Qed.

(** ** The numerator vanishes on the domain *)

(** The accumulator identity at row [i], for the accumulator values [zs]. *)
Definition accumulator_row (zs : seq F) (i : nat) : bool :=
  let: (fa, fb, fc) := numerators i in
  let: (ga, gb, gc) := denominators i in
  fa * fb * fc * zs`_i - ga * gb * gc * zs`_((i + 1) %% n) == 0.

Definition gate_rows : bool :=
  all (fun i => gate_row A B C PI i == 0) (iota 0 n).

Definition accumulator_rows : bool :=
  all (accumulator_row Zs) (iota 0 n) && (Zs`_0 == 1).

Lemma horner_L0 (k : nat) : (k < n)%N ->
  (interp L0_values).[omega ^+ k] = (k == 0%N)%:R.
Proof.
move=> ltk; rewrite (interpolantE prim_n) ?size_L0_values ?n_gt0 //.
rewrite /L0_values; case: k ltk => [|k] ltk //=.
by rewrite nth_nseq /Scalar; case: ifP.
Qed.

Lemma numerator_poly_root (k : nat) :
  gate_rows -> accumulator_rows -> (k < n)%N ->
  numerator_poly.[omega ^+ k] = 0.
Proof.
move=> /allP gate /andP [/allP perm /eqP Z0] ltk.
have [s1 s2 s3] := sizes_S; have [sL sR sM sO sC] := pk_sizes.
have kin : k \in iota 0 n by rewrite mem_iota add0n.
have /eqP := gate k kin; have := perm k kin.
rewrite /accumulator_row /gate_row /numerators /denominators /rlc_of.
move=> /eqP rowk gatek.
have omega_n : omega ^+ n = 1 by exact: prim_expr_order prim_n.
have shiftk : (shifted (interp Zs)).[omega ^+ k] = Zs`_((k + 1) %% n).
  rewrite horner_shifted ?size_interp // -exprS -addn1.
  by rewrite -(expr_mod _ omega_n) (interpolantE prim_n) // ltn_mod n_gt0.
rewrite /numerator_poly /gate_poly /permutation_poly /boundary_poly.
rewrite /rlc_X /rlc_S.
rewrite !(hornerD, hornerN, hornerM, hornerZ, hornerC, hornerX).
rewrite shiftk horner_L0 // !(interpolantE prim_n) // -/QLv -/QRv -/QMv.
rewrite -/QOv -/QCv gatek add0r.
set bd := (Zs`_k - 1) * _ * _.
have -> : bd = 0.
  by rewrite /bd; case: (k) => [|k'] /=; rewrite ?Z0 ?subrr ?mul0r ?mulr0 ?mul0r.
rewrite addr0; move: rowk; rewrite -/S1v -/S2v -/S3v.
set fa := (A`_k + _ + _); set fb := (B`_k + _ + _); set fc := (C`_k + _ + _).
set ga := (A`_k + _ + _); set gb := (B`_k + _ + _); set gc := (C`_k + _ + _).
move=> rowk.
set lhs := (X in X = 0).
have -> : lhs = alpha * (fa * fb * fc * Zs`_k
                         - ga * gb * gc * Zs`_((k + 1) %% n)).
  by rewrite /lhs /fa /fb /fc /ga /gb /gc; ring.
by rewrite rowk mulr0.
Qed.

(** So the vanishing polynomial divides it, and the quotient has size at
    most [3n]. *)
Lemma vanishing_dvd_numerator :
  gate_rows -> accumulator_rows -> 'X^n - 1 %| numerator_poly.
Proof.
move=> gate perm.
rewrite -(factor_Xn_sub_1 prim_n) /index_iota subn0.
rewrite -(big_map (fun i => omega ^+ i) xpredT (fun z => 'X - z%:P)).
apply: uniq_roots_dvdp.
  apply/allP => x /mapP [k]; rewrite mem_iota add0n /= => ltk ->.
  by rewrite rootE numerator_poly_root.
rewrite uniq_rootsE map_inj_in_uniq ?iota_uniq // => i j.
rewrite !mem_iota !add0n /= => lti ltj /eqP.
by rewrite (eq_prim_root_expr prim_n) !modn_small // => /eqP.
Qed.

Definition quotient_poly : {poly F} := numerator_poly %/ ('X^n - 1).

Lemma numerator_polyE :
  gate_rows -> accumulator_rows ->
  numerator_poly = quotient_poly * ('X^n - 1).
Proof. by move=> gate perm; rewrite divpK // vanishing_dvd_numerator. Qed.

Lemma size_rlc_X (c : F) (s : seq F) :
  size s = n -> (size (rlc_X c (interp s)) <= n.+1)%N.
Proof.
move=> sz; have := n_gt0 => lt0; rewrite /rlc_X.
apply: size_add_bound; last exact: size_const_bound.
apply: size_add_bound; last exact: size_scaleX_bound.
exact: leq_trans (size_interp sz) _.
Qed.

Lemma size_rlc_S (s t : seq F) :
  size s = n -> size t = n -> (size (rlc_S (interp s) (interp t)) <= n)%N.
Proof.
move=> sz tz; rewrite /rlc_S.
apply: size_add_bound; last exact: size_const_bound n_gt0.
apply: size_add_bound; first exact: size_interp.
exact: leq_trans (size_scale_leq _ _) (size_interp tz).
Qed.

Lemma size_numerator_poly : (size numerator_poly <= n * 4)%N.
Proof.
have [s1 s2 s3] := sizes_S; have [sL sR sM sO sC] := pk_sizes.
have lt0 := n_gt0.
have le3 : (n <= n * 4)%N by rewrite leq_pmulr.
have wk a (p : {poly F}) :
    (size p <= a)%N -> (a <= n * 4)%N -> (size p <= n * 4)%N.
  by move=> le lea; exact: leq_trans le lea.
rewrite /numerator_poly /gate_poly /permutation_poly /boundary_poly.
apply: size_add_bound; first apply: size_add_bound.
- apply: size_add_bound;
      [apply: size_add_bound;
         [apply: size_add_bound;
            [apply: size_add_bound; [apply: size_add_bound|]|]|]|].
  + apply: wk (size_mul_bound (size_interp szA) (size_interp sL)) _.
    by size_lia.
  + apply: wk (size_mul_bound (size_interp szB) (size_interp sR)) _.
    by size_lia.
  + apply: wk (size_mul_bound (size_mul_bound (size_interp szA)
                 (size_interp szB)) (size_interp sM)) _.
    by size_lia.
  + apply: wk (size_mul_bound (size_interp szC) (size_interp sO)) _.
    by size_lia.
  + exact: wk (size_interp szPI) _.
  + exact: wk (size_interp sC) _.
- apply: size_sub_bound.
  + apply: wk (size_mul_bound (size_mul_bound (size_mul_bound
                 (size_mul_bound (size_rlc_X _ szA) (size_rlc_X _ szB))
                 (size_rlc_X _ szC)) (size_polyC_leq1 alpha))
                 (size_interp szZ)) _.
    by size_lia.
  + apply: wk (size_mul_bound (size_mul_bound (size_mul_bound
                 (size_mul_bound (size_rlc_S szA s1) (size_rlc_S szB s2))
                 (size_rlc_S szC s3)) (size_polyC_leq1 alpha))
                 (size_shifted _)) _.
    by size_lia.
- have szZ1 : (size (interp Zs - 1%:P)%R <= n)%N.
    by apply: size_sub_bound; [exact: size_interp | exact: size_const_bound].
  apply: wk (size_mul_bound (size_mul_bound szZ1
               (size_interp (size_L0_values lt0)))
               (size_polyC_leq1 (alpha ^+ 2))) _.
  by size_lia.
Qed.

Lemma size_quotient_poly : (size quotient_poly <= n * 3)%N.
Proof.
have lt0 := n_gt0.
have nz : 'X^n - 1 != 0 :> {poly F} by rewrite -size_poly_gt0 size_Xn_sub_1.
rewrite /quotient_poly size_divp // size_Xn_sub_1 //=.
have := size_numerator_poly; move: (size _) => sz le.
by size_lia.
Qed.

(** ** The degree of the quotient *)

Lemma horner_vanishing (x : F) : ('X^n - 1).[x] = x ^+ n - 1.
Proof. by rewrite -polyC1 hornerD hornerN hornerXn hornerC. Qed.

(** The coset misses the domain when [kappa ^ (4n)] is not 1. *)
Definition coset_off_domain : bool := kappa ^+ (n * 4) != 1.

Lemma vanishing_neq0 (i : nat) :
  coset_off_domain -> (kappa * mu ^+ i) ^+ n - 1 != 0.
Proof.
apply: contraNneq => /eqP; rewrite subr_eq0 => /eqP eq1.
have : ((kappa * mu ^+ i) ^+ n) ^+ 4 = 1 by rewrite eq1 expr1n.
rewrite -exprM exprMn -[(mu ^+ i) ^+ _]exprM [(i * _)%N]mulnC [mu ^+ _]exprM.
by rewrite (prim_expr_order prim_4n) expr1n mulr1 => ->.
Qed.

Lemma QUOT_values_quotient :
  gate_rows -> accumulator_rows -> coset_off_domain ->
  QUOT_values_list = coset_evals root_of_unity n quotient_poly kappa.
Proof.
move=> gate perm off; apply/eq_in_map => i; rewrite mem_iota add0n /= => lti.
rewrite QUOT_item_poly // numerator_polyE // hornerM horner_vanishing.
by rewrite mulfK // vanishing_neq0.
Qed.

Lemma coset_coeffs_evals (T : {poly F}) (offset : F) : (size T <= n * 4)%N ->
  coset_coeffs (coset_evals root_of_unity n T offset) offset
  = [seq T`_j * offset ^+ j * offset^-1 ^+ j | j <- iota 0 (n * 4)].
Proof.
move=> le; have := coset_extended_lagrange_to_coeffsE prim_4n offset le.
by rewrite -/(lag _) coset_to_coeffs_lag => -[].
Qed.

Lemma QUOT_coeffs_quotient :
  gate_rows -> accumulator_rows -> coset_off_domain ->
  QUOT_coeffs_list
  = [seq quotient_poly`_j * kappa ^+ j * kappa^-1 ^+ j | j <- iota 0 (n * 4)].
Proof.
move=> gate perm off; rewrite /QUOT_coeffs_list QUOT_values_quotient //.
apply: coset_coeffs_evals; apply: leq_trans size_quotient_poly _.
by rewrite leq_pmul2l ?n_gt0.
Qed.

(** The coefficients of the quotient at the indices [3n, 4n) are 0: the
    degree assertion of round_3 holds. *)
Lemma QUOT_coeffs_top (j : nat) :
  gate_rows -> accumulator_rows -> coset_off_domain ->
  (n * 3 <= j)%N -> QUOT_coeffs_list`_j = 0.
Proof.
move=> gate perm off lej; rewrite QUOT_coeffs_quotient //.
case: (ltnP j (n * 4)) => [ltj|gej]; last first.
  by rewrite nth_default // size_map size_iota.
rewrite (nth_map 0%N) ?size_iota // nth_iota // add0n.
have /leq_sizeP -> // := size_quotient_poly.
by rewrite !mul0r.
Qed.

Lemma quotient_degree_holds :
  gate_rows -> accumulator_rows -> coset_off_domain -> quotient_degree_ok.
Proof.
move=> gate perm off; have lt0 := n_gt0.
rewrite /quotient_degree_ok /slice_last -[n == 0%N]negbK -lt0n lt0 /=.
have sz : size QUOT_coeffs_list = (n * 4)%N.
  by rewrite size_coset_coeffs size_map size_iota.
have sub : (n * 4 - n = n * 3)%N by size_lia.
rewrite sz sub; apply/eqP/(@eq_from_nth _ 0).
  by rewrite size_drop sz size_nseq; size_lia.
move=> i _; rewrite nth_drop nth_nseq if_same QUOT_coeffs_top //.
exact: leq_addr.
Qed.

(** ** The chunks of the quotient *)

Lemma horner_rec_cat (s t : seq F) (x : F) :
  horner_rec (s ++ t) x = horner_rec s x + x ^+ size s * horner_rec t x.
Proof.
elim: s => [|a s IH] /=; first by rewrite expr0 mul1r add0r.
by rewrite IH exprS; ring.
Qed.

Lemma barycentric_value_interp (s : seq F) (x : F) :
  size s = n -> barycentric_value s x = (interp s).[x].
Proof.
move=> sz; have := barycentric_evalE prim_n x sz.
by rewrite -/(lag s) barycentric_eval_lag => -[].
Qed.

Lemma barycentric_value_dft (s : seq F) (x : F) :
  size s = n -> barycentric_value (dft root_of_unity s) x = horner_rec s x.
Proof.
move=> sz; rewrite barycentric_value_interp ?size_dft //.
by rewrite (interpolant_dft prim_n) // horner_Poly.
Qed.

Lemma size_QUOT_values : size QUOT_values_list = (n * 4)%N.
Proof. by rewrite size_map size_iota. Qed.

Lemma size_QUOT_coeffs : size QUOT_coeffs_list = (n * 4)%N.
Proof. by rewrite size_coset_coeffs size_QUOT_values. Qed.

(** The three chunks, recombined at a point [x], evaluate the quotient's
    coefficient list at [x]. *)
Lemma chunk_horner (x : F) :
  quotient_degree_ok ->
  barycentric_value (values T1_polynomial) x
  + barycentric_value (values T2_polynomial) x * x ^+ n
  + barycentric_value (values T3_polynomial) x * x ^+ (n * 2)
  = horner_rec QUOT_coeffs_list x.
Proof.
have lt0 := n_gt0; have sz := size_QUOT_coeffs.
rewrite /quotient_degree_ok /slice_last -[n == 0%N]negbK -lt0n lt0 /=.
have sub : (n * 4 - n = n * 3)%N by size_lia.
rewrite sz sub => /eqP top.
have szlo : size (chunk_lo n QUOT_coeffs_list) = n.
  by rewrite /chunk_lo size_take sz; case: ifP => // /negbT; rewrite -leqNgt;
     move=> le; size_lia.
have szmid : size (chunk_mid n QUOT_coeffs_list) = n.
  rewrite /chunk_mid size_drop size_take sz.
  by case: ifP => [_|/negbT]; [|rewrite -leqNgt => le]; size_lia.
have szhi : size (chunk_hi n QUOT_coeffs_list) = n.
  rewrite /chunk_hi size_drop size_take sz.
  by case: ifP => [_|/negbT]; [|rewrite -leqNgt => le]; size_lia.
rewrite /T1_polynomial /T2_polynomial /T3_polynomial /=.
rewrite !barycentric_value_dft //.
have split3 : QUOT_coeffs_list
    = chunk_lo n QUOT_coeffs_list
      ++ (chunk_mid n QUOT_coeffs_list
          ++ (chunk_hi n QUOT_coeffs_list ++ nseq n 0)).
  rewrite -top /chunk_lo /chunk_mid /chunk_hi.
  have le23 : (n * 2 <= n * 3)%N by size_lia.
  have le12 : (n <= n * 2)%N by size_lia.
  rewrite -[take n _](take_takel _ le12) catA cat_take_drop.
  rewrite -[take (n * 2) _](take_takel _ le23) catA cat_take_drop.
  by rewrite cat_take_drop.
rewrite [in RHS]split3 !horner_rec_cat szlo szmid szhi horner_rec_nseq0.
by rewrite exprM; ring.
Qed.

(** The left-hand side of the chunk assertion is the quotient's
    coefficient list, evaluated at [kappa]. *)
Lemma chunk_lhsE :
  quotient_degree_ok -> chunk_lhs = horner_rec QUOT_coeffs_list kappa.
Proof. exact: chunk_horner. Qed.

Lemma horner_rec_unscale (a x : F) (c : seq F) (k : nat) :
  horner_rec [seq iv.2 * a ^+ iv.1 | iv <- zip (iota k (size c)) c] x
  = a ^+ k * horner_rec c (a * x).
Proof.
elim: c k => [|y c IH] k /=; first by rewrite mulr0.
by rewrite IH exprS; ring.
Qed.

Lemma horner_coset_coeffs (s : seq F) (offset : F) :
  horner_rec (coset_coeffs s offset) offset
  = horner_rec (idft root_of_unity s) (1 / offset * offset).
Proof. by rewrite /coset_coeffs horner_rec_unscale expr0 mul1r. Qed.

Lemma horner_rec0 (s : seq F) : horner_rec s 0 = s`_0.
Proof. by case: s => [|x s] //=; rewrite mulr0 add0r. Qed.

(** The chunk assertion of round_3 holds whenever its degree assertion
    does. *)
Lemma chunk_check_holds : quotient_degree_ok -> chunk_ok.
Proof.
move=> deg; rewrite /chunk_ok chunk_lhsE // /QUOT_coeffs_list.
rewrite horner_coset_coeffs; have lt0 := n_gt0.
have lt4 : (0 < n * 4)%N by rewrite muln_gt0 lt0.
have szQ := size_QUOT_values.
case: (eqVneq kappa 0) => [k0|knz]; last first.
  rewrite div1r mulVf // -[1](expr0 (root_of_unity (n * 4))).
  have := nth_dft root_of_unity (s := idft root_of_unity QUOT_values_list) (i := 0).
  rewrite size_idft szQ => <- //.
  by rewrite (dft_idft prim_4n).
rewrite k0 mulr0 horner_rec0.
pose q0 := numerator_poly.[0] / (0 ^+ n - 1).
have -> : QUOT_values_list
          = [seq (q0%:P).[mu ^+ i] | i <- iota 0 (n * 4)].
  apply/eq_in_map => i; rewrite mem_iota add0n /= => lti.
  by rewrite QUOT_item_poly // k0 mul0r hornerC.
rewrite (idft_evals prim_4n) ?(leq_trans (size_polyC_leq1 _)) //.
by rewrite !(nth_map 0%N) ?size_iota // nth_iota // coefC hornerC.
Qed.

Lemma size_T_polynomials :
  [/\ size (values T1_polynomial) = n, size (values T2_polynomial) = n
     & size (values T3_polynomial) = n].
Proof.
have sz := size_QUOT_coeffs.
rewrite /T1_polynomial /T2_polynomial /T3_polynomial /= !size_dft.
rewrite /chunk_lo /chunk_mid /chunk_hi !size_drop !size_take sz.
by split; case: ifP => [_|/negbT]; rewrite -?leqNgt => *; size_lia.
Qed.

(** ** round_4 *)

Variable zeta : F.

Definition round_4_message : Message4 F :=
  MkMessage4 (barycentric_value A zeta) (barycentric_value B zeta)
    (barycentric_value C zeta) (barycentric_value S1v zeta)
    (barycentric_value S2v zeta) (barycentric_value Zs (zeta * omega)).

Definition world_after_round_4 (w : World) : World :=
  with_attr self_z_shifted_eval (VScalar (z_shifted_eval round_4_message))
    (with_attr self_s2_eval (VScalar (s2_eval round_4_message))
      (with_attr self_s1_eval (VScalar (s1_eval round_4_message))
        (with_attr self_c_eval (VScalar (c_eval round_4_message))
          (with_attr self_b_eval (VScalar (b_eval round_4_message))
            (with_attr self_a_eval (VScalar (a_eval round_4_message)) w))))).

Lemma index_omega : (1 < n)%N ->
  index_list (roots_of_unity root_of_unity n) 1 = Ok omega.
Proof.
move=> lt1; rewrite (index_list_ok 0) ?size_roots_of_unity //.
by rewrite (nth_map 0%N) ?size_iota // nth_iota // expr1.
Qed.

Lemma round_4_run (w : World) :
  (1 < n)%N -> round_2_done w -> has_attr w self_zeta (VScalar zeta) ->
  round_4 root_of_unity self w = (Ok round_4_message, world_after_round_4 w).
Proof.
move=> lt1 [[hA hB hC _ _] _ hZ _ _] hz.
have [[eQL eQR eQM eQO eQC] [e1 e2 e3]] := pk_lag.
rewrite /round_4 -/n e1 e2.
step (get_scalar_ok hz); step_lift (index_omega lt1).
step (get_poly_ok hA); step_lift (barycentric_eval_lag _ _).
step (get_poly_ok hB); step_lift (barycentric_eval_lag _ _).
step (get_poly_ok hC); step_lift (barycentric_eval_lag _ _).
step_lift (barycentric_eval_lag _ _); step_lift (barycentric_eval_lag _ _).
step (get_poly_ok hZ); step_lift (barycentric_eval_lag _ _).
by do 6!step (setattr_run _ _ _).
Qed.

(** ** round_5 *)

Variables (T1v T2v T3v : seq F) (v : F).

Fixpoint has_attrs (w : World) (l : seq (attr * value F)) : Prop :=
  if l is av :: l' then has_attr w av.1 av.2 /\ has_attrs w l' else True.

(** What round 5 reads, besides what rounds 1 and 2 left. *)
Definition round_5_reads : seq (attr * value F) :=
  [:: (self_zeta, VScalar zeta); (self_v, VScalar v);
      (self_a_eval, VScalar (a_eval round_4_message));
      (self_b_eval, VScalar (b_eval round_4_message));
      (self_c_eval, VScalar (c_eval round_4_message));
      (self_s1_eval, VScalar (s1_eval round_4_message));
      (self_s2_eval, VScalar (s2_eval round_4_message));
      (self_z_shifted_eval, VScalar (z_shifted_eval round_4_message));
      (self_T1, VPoly (lag T1v)); (self_T2, VPoly (lag T2v));
      (self_T3, VPoly (lag T3v));
      (self_A_big, VPoly (lag (coset_list A kappa)));
      (self_B_big, VPoly (lag (coset_list B kappa)));
      (self_C_big, VPoly (lag (coset_list C kappa)));
      (self_S1_big, VPoly (lag (coset_list S1v kappa)));
      (self_S2_big, VPoly (lag (coset_list S2v kappa)));
      (self_quarter_roots, VRoots quarter_roots_list)].

Definition round_4_done (w : World) : Prop :=
  round_2_done w /\ has_attrs w round_5_reads.

Definition round_5_scalars : scalars F :=
  MkScalars alpha beta gamma omega zeta kappa v
    (a_eval round_4_message) (b_eval round_4_message)
    (c_eval round_4_message) (s1_eval round_4_message)
    (s2_eval round_4_message) (z_shifted_eval round_4_message)
    (barycentric_value PI zeta) (barycentric_value L0_values zeta)
    (zeta ^+ n - 1).

Definition round_5_inputs : linearization_inputs F :=
  MkLinearizationInputs (lag (coset_list T1v kappa))
    (lag (coset_list T2v kappa)) (lag (coset_list T3v kappa))
    (lag (coset_list QLv kappa)) (lag (coset_list QRv kappa))
    (lag (coset_list QMv kappa)) (lag (coset_list QOv kappa))
    (lag (coset_list QCv kappa)) (lag (coset_list Zs kappa))
    (lag (coset_list S3v kappa)).

Lemma round_5_locals_run (w : World) : (1 < n)%N -> round_4_done w ->
  round_5_locals root_of_unity self w
  = (Ok (round_5_scalars, round_5_inputs), w).
Proof.
move=> lt1 [[[hA hB hC hb hg] hPI hZ ha hk]] /=.
move=> [hz [hv [h1 [h2 [h3 [h4 [h5 [h6 [hT1 [hT2 [hT3 _]]]]]]]]]]].
have [[eQL eQR eQM eQO eQC] [e1 e2 e3]] := pk_lag.
rewrite /round_5_locals -/n eQL eQR eQM eQO eQC e3.
step (get_scalar_ok ha); step (get_scalar_ok hb); step (get_scalar_ok hg).
step_lift (index_omega lt1).
step (get_scalar_ok hz); step (get_scalar_ok hk); step (get_scalar_ok hv).
step (get_scalar_ok h1); step (get_scalar_ok h2); step (get_scalar_ok h3).
step (get_scalar_ok h4); step (get_scalar_ok h5); step (get_scalar_ok h6).
step (get_poly_ok hPI); step_lift (barycentric_eval_lag _ _).
rewrite /L0_polynomial -/L0_values -/(lag L0_values).
step_lift (barycentric_eval_lag _ _).
step (get_poly_ok hT1); step_lift (to_coset_extended_lagrangeE _ _ _).
step (get_poly_ok hT2); step_lift (to_coset_extended_lagrangeE _ _ _).
step (get_poly_ok hT3); step_lift (to_coset_extended_lagrangeE _ _ _).
step_lift (to_coset_extended_lagrangeE _ _ _).
step_lift (to_coset_extended_lagrangeE _ _ _).
step_lift (to_coset_extended_lagrangeE _ _ _).
step_lift (to_coset_extended_lagrangeE _ _ _).
step_lift (to_coset_extended_lagrangeE _ _ _).
step (get_poly_ok hZ); step_lift (to_coset_extended_lagrangeE _ _ _).
by step_lift (to_coset_extended_lagrangeE _ _ _).
Qed.

Lemma res_bind_ok (T U : Type) (r : Res T) (x : T) (k : T -> Res U) :
  r = Ok x -> res_bind r k = k x.
Proof. by move=> ->. Qed.

Lemma mapR_run (T : eqType) (U : Type) (f : T -> Res U) (g : T -> U)
    (s : seq T) :
  (forall x, x \in s -> f x = Ok (g x)) -> mapR f s = Ok [seq g x | x <- s].
Proof.
elim: s => [|x s IH] //= run; rewrite run ?mem_head //= IH //.
by move=> y yin; rewrite run // in_cons yin orbT.
Qed.

(** The item of [R_values] at index [i]. *)
Definition R_item (i : nat) : F :=
  let sc := round_5_scalars in
  (sc_a_eval sc * (coset_list QLv kappa)`_i
   + sc_b_eval sc * (coset_list QRv kappa)`_i
   + sc_a_eval sc * sc_b_eval sc * (coset_list QMv kappa)`_i
   + sc_c_eval sc * (coset_list QOv kappa)`_i
   + sc_pi_eval sc + (coset_list QCv kappa)`_i)
  + (sc_a_eval sc + beta * zeta + gamma)
    * (sc_b_eval sc + beta * 2%:R * zeta + gamma)
    * (sc_c_eval sc + beta * 3%:R * zeta + gamma)
    * alpha * (coset_list Zs kappa)`_i
  - (sc_a_eval sc + beta * sc_s1_eval sc + gamma)
    * (sc_b_eval sc + beta * sc_s2_eval sc + gamma)
    * (sc_c_eval sc + beta * (coset_list S3v kappa)`_i + gamma)
    * alpha * sc_z_shifted_eval sc
  + ((coset_list Zs kappa)`_i - 1) * sc_l0_eval sc * alpha ^+ 2
  - ((coset_list T1v kappa)`_i + zeta ^+ n * (coset_list T2v kappa)`_i
     + zeta ^+ (n * 2) * (coset_list T3v kappa)`_i)
    * sc_zh_eval sc.

Definition R_values_list : seq F := [seq R_item i | i <- iota 0 (4 * n)].

Definition R_polynomial : Polynomial F :=
  lag (dft root_of_unity (take n (coset_coeffs R_values_list kappa))).

Hypotheses (szT1 : size T1v = n) (szT2 : size T2v = n) (szT3 : size T3v = n).

Lemma R_value_run (i : nat) : (i < 4 * n)%N ->
  R_value self round_5_scalars round_5_inputs i = Ok (R_item i).
Proof.
move=> lti; have [s1 s2 s3] := sizes_S; have [sL sR sM sO sC] := pk_sizes.
have idx (s : seq F) :
    size s = n -> index_list (coset_list s kappa) i = Ok (coset_list s kappa)`_i.
  by move=> sz; rewrite (index_list_ok 0) // size_coset_list sz mulnC.
rewrite /R_value /round_5_inputs.
cbn [lin_T1_big lin_T2_big lin_T3_big lin_QL_big lin_QR_big lin_QM_big
     lin_QO_big lin_QC_big lin_Z_big lin_S3_big values lag].
rewrite (res_bind_ok _ (idx _ sL)) (res_bind_ok _ (idx _ sR)).
rewrite (res_bind_ok _ (idx _ sM)) (res_bind_ok _ (idx _ sO)).
rewrite (res_bind_ok _ (idx _ sC)) (res_bind_ok _ (idx _ szZ)).
rewrite (res_bind_ok _ (idx _ s3)) (res_bind_ok _ (idx _ szT1)).
by rewrite (res_bind_ok _ (idx _ szT2)) (res_bind_ok _ (idx _ szT3)).
Qed.

Lemma linearization_run :
  linearization root_of_unity self round_5_scalars round_5_inputs
  = Ok (lag R_values_list, R_polynomial).
Proof.
rewrite /linearization (@mapR_run _ _ _ R_item) //.
by move=> i; rewrite mem_iota add0n /=; apply: R_value_run.
Qed.

(** The items of [W_z_values] and [W_zw_values] at index [i]. *)
Definition W_z_item (i : nat) : F :=
  let sc := round_5_scalars in
  (R_values_list`_i + v * ((coset_list A kappa)`_i - sc_a_eval sc)
   + v ^+ 2 * ((coset_list B kappa)`_i - sc_b_eval sc)
   + v ^+ 3 * ((coset_list C kappa)`_i - sc_c_eval sc)
   + v ^+ 4 * ((coset_list S1v kappa)`_i - sc_s1_eval sc)
   + v ^+ 5 * ((coset_list S2v kappa)`_i - sc_s2_eval sc))
  / (kappa * quarter_roots_list`_i - zeta).

Definition W_zw_item (i : nat) : F :=
  ((coset_list Zs kappa)`_i - sc_z_shifted_eval round_5_scalars)
  / (kappa * quarter_roots_list`_i - zeta * omega).

Definition W_z_coeffs_list : seq F :=
  coset_coeffs [seq W_z_item i | i <- iota 0 (n * 4)] kappa.

Definition W_zw_coeffs_list : seq F :=
  coset_coeffs [seq W_zw_item i | i <- iota 0 (n * 4)] kappa.

Definition W_z_polynomial : Polynomial F :=
  lag (dft root_of_unity (take n W_z_coeffs_list)).

Definition W_zw_polynomial : Polynomial F :=
  lag (dft root_of_unity (take n W_zw_coeffs_list)).

Definition linearization_ok : bool :=
  barycentric_value (values R_polynomial) zeta == 0.

Definition W_z_degree_ok : bool :=
  drop n W_z_coeffs_list == nseq (n * 3) 0.

Definition W_zw_degree_ok : bool :=
  drop n W_zw_coeffs_list == nseq (n * 3) 0.

Definition round_5_message : Message5 G :=
  MkMessage5 (commit (setup self) W_z_polynomial)
    (commit (setup self) W_zw_polynomial).

Lemma size_R_values : size R_values_list = (n * 4)%N.
Proof. by rewrite size_map size_iota mulnC. Qed.

Lemma W_z_coefficients_run :
  W_z_coefficients root_of_unity self round_5_scalars (lag R_values_list)
    (lag (coset_list A kappa)) (lag (coset_list B kappa))
    (lag (coset_list C kappa)) (lag (coset_list S1v kappa))
    (lag (coset_list S2v kappa)) quarter_roots_list
  = Ok W_z_coeffs_list.
Proof.
rewrite /W_z_coefficients (@mapR_run _ _ _ W_z_item) // => i.
rewrite mem_iota add0n /= -/n => lti; have [s1 s2 s3] := sizes_S.
have idx (s : seq F) :
    size s = n -> index_list (coset_list s kappa) i = Ok (coset_list s kappa)`_i.
  by move=> sz; rewrite (index_list_ok 0) // size_coset_list sz.
rewrite /W_z_value; cbn [values lag].
rewrite (res_bind_ok _ (index_list_ok 0 _)) ?size_R_values //.
rewrite (res_bind_ok _ (idx _ szA)) (res_bind_ok _ (idx _ szB)).
rewrite (res_bind_ok _ (idx _ szC)) (res_bind_ok _ (idx _ s1)).
rewrite (res_bind_ok _ (idx _ s2)).
by rewrite (res_bind_ok _ (index_list_ok 0 _)) ?size_roots_of_unity.
Qed.

Lemma W_zw_coefficients_run :
  W_zw_coefficients root_of_unity self round_5_scalars (lag (coset_list Zs kappa))
    quarter_roots_list
  = Ok W_zw_coeffs_list.
Proof.
rewrite /W_zw_coefficients (@mapR_run _ _ _ W_zw_item) // => i.
rewrite mem_iota add0n /= -/n => lti.
rewrite /W_zw_value; cbn [values lag].
rewrite (res_bind_ok _ (index_list_ok 0 _)) ?size_coset_list ?szZ //.
by rewrite (res_bind_ok _ (index_list_ok 0 _)) ?size_roots_of_unity.
Qed.

Lemma round_5_run (w : World) : (1 < n)%N -> round_4_done w ->
  round_5 root_of_unity self w
  = if linearization_ok then
      if W_z_degree_ok then
        if W_zw_degree_ok
        then (Ok round_5_message,
              with_commit W_zw_polynomial (with_commit W_z_polynomial w))
        else (Raise (AssertionError W_zw_degree),
              with_commit W_z_polynomial w)
      else (Raise (AssertionError W_z_degree), w)
    else (Raise (AssertionError linearization_check), w).
Proof.
move=> lt1 done; rewrite /round_5 -/n.
step (round_5_locals_run lt1 done); step_lift linearization_run.
step_lift (barycentric_eval_lag _ _).
rewrite [sc_zeta _]/= -/linearization_ok.
case: linearization_ok; last by [].
rewrite /assert_at; step (erefl : ret tt w = (Ok tt, w)).
case: done => _ /=.
move=> [_ [_ [_ [_ [_ [_ [_ [_ [_ [_ [_ [hA [hB [hC [h1 [h2 [hq _]]]]]]]]]]]]]]]]].
step (get_poly_ok hA); step (get_poly_ok hB); step (get_poly_ok hC).
step (get_poly_ok h1); step (get_poly_ok h2); step (get_roots_ok hq).
step_lift W_z_coefficients_run; rewrite -/W_z_degree_ok.
case: W_z_degree_ok; last by [].
step (erefl : ret tt w = (Ok tt, w)).
step_lift (fft_monomial _); step (setup_commit_run _ _).
step_lift W_zw_coefficients_run.
rewrite -/W_zw_degree_ok; case: W_zw_degree_ok; last by [].
step (erefl : ret tt _ = (Ok tt, _)).
by step_lift (fft_monomial _); step (setup_commit_run _ _).
Qed.

(** ** The linearization polynomial *)

(** The coefficients read back from the coset values of a polynomial of
    size at most [n]: its [n] coefficients, then zeros. *)
Lemma coset_coeffs_low (T : {poly F}) : (size T <= n)%N -> kappa != 0 ->
  coset_coeffs (coset_evals root_of_unity n T kappa) kappa
  = [seq T`_j | j <- iota 0 n] ++ nseq (n * 3) 0.
Proof.
move=> le knz; have lt0 := n_gt0.
have le4 : (size T <= n * 4)%N by apply: leq_trans le _; rewrite leq_pmulr.
rewrite coset_coeffs_evals //; apply: (@eq_from_nth _ 0).
  by rewrite size_cat !size_map !size_iota size_nseq; size_lia.
move=> j; rewrite size_map size_iota => ltj.
rewrite (nth_map 0%N) ?size_iota // nth_iota // add0n.
rewrite -mulrA -exprMn mulfV // expr1n mulr1 nth_cat size_map size_iota.
case: ltnP => [lt|ge]; first by rewrite (nth_map 0%N) ?size_iota // nth_iota.
by rewrite nth_nseq if_same; apply/leq_sizeP: ge; exact: le.
Qed.

Lemma horner_rec_coefs (T : {poly F}) (k : nat) (x : F) : (size T <= k)%N ->
  horner_rec [seq T`_j | j <- iota 0 k] x = T.[x].
Proof.
move=> le; by rewrite -horner_Poly (coefs_Poly le).
Qed.

(** A polynomial of size at most [n], pushed through the coset and back,
    passes the degree assertion and evaluates as it did. *)
Lemma coset_roundtrip (T : {poly F}) (s : seq F) (x : F) :
  (size T <= n)%N -> kappa != 0 ->
  s = coset_evals root_of_unity n T kappa ->
  drop n (coset_coeffs s kappa) = nseq (n * 3) 0
  /\ barycentric_value (dft root_of_unity (take n (coset_coeffs s kappa))) x
     = T.[x].
Proof.
move=> le knz ->; rewrite coset_coeffs_low //.
have sz : size [seq T`_j | j <- iota 0 n] = n by rewrite size_map size_iota.
rewrite (drop_size_cat _ sz) (take_size_cat _ sz); split=> //.
by rewrite barycentric_value_dft // horner_rec_coefs.
Qed.

Definition R_poly : {poly F} :=
  let sc := round_5_scalars in
  (sc_a_eval sc *: interp QLv + sc_b_eval sc *: interp QRv
   + (sc_a_eval sc * sc_b_eval sc) *: interp QMv
   + sc_c_eval sc *: interp QOv + (sc_pi_eval sc)%:P + interp QCv)
  + ((sc_a_eval sc + beta * zeta + gamma)
     * (sc_b_eval sc + beta * 2%:R * zeta + gamma)
     * (sc_c_eval sc + beta * 3%:R * zeta + gamma) * alpha) *: interp Zs
  - ((sc_a_eval sc + beta * sc_s1_eval sc + gamma)
     * (sc_b_eval sc + beta * sc_s2_eval sc + gamma)
     * alpha * sc_z_shifted_eval sc)
    *: ((sc_c_eval sc + gamma)%:P + beta *: interp S3v)
  + (sc_l0_eval sc * alpha ^+ 2) *: (interp Zs - 1%:P)
  - sc_zh_eval sc
    *: (interp T1v + zeta ^+ n *: interp T2v + zeta ^+ (n * 2) *: interp T3v).

Lemma R_item_poly (i : nat) : (i < n * 4)%N ->
  R_item i = R_poly.[kappa * mu ^+ i].
Proof.
move=> lti; have [s1 s2 s3] := sizes_S; have [sL sR sM sO sC] := pk_sizes.
rewrite /R_item /R_poly !nth_coset_list //.
rewrite !(hornerD, hornerN, hornerM, hornerZ, hornerC, hornerX).
by ring.
Qed.

Lemma size_R_poly : (size R_poly <= n)%N.
Proof.
have [s1 s2 s3] := sizes_S; have [sL sR sM sO sC] := pk_sizes.
have lt0 := n_gt0.
have sc (c : F) (p : {poly F}) : (size p <= n)%N -> (size (c *: p) <= n)%N.
  exact: leq_trans (size_scale_leq _ _).
rewrite /R_poly.
apply: size_sub_bound; first apply: size_add_bound;
  first apply: size_sub_bound; first apply: size_add_bound.
- do 5![apply: size_add_bound; last
          by [exact: size_interp | exact: size_const_bound
             | apply: (sc _ _); exact: size_interp]].
  by apply: (sc _ _); exact: size_interp.
- by apply: (sc _ _); exact: size_interp.
- apply: (sc _ _); apply: size_add_bound; first exact: size_const_bound.
  by apply: (sc _ _); exact: size_interp.
- apply: (sc _ _); apply: size_sub_bound; first exact: size_interp.
  exact: size_const_bound.
- apply: (sc _ _); do 2![apply: size_add_bound; last
                     by apply: (sc _ _); exact: size_interp].
  exact: size_interp.
Qed.

Lemma R_values_evals :
  R_values_list = coset_evals root_of_unity n R_poly kappa.
Proof.
rewrite /R_values_list mulnC; apply/eq_in_map => i.
by rewrite mem_iota add0n /=; exact: R_item_poly.
Qed.

(** What the assertion of round_5 on [R] checks, when the coset shift is
    not 0. *)
Lemma linearization_okE : kappa != 0 -> linearization_ok = (R_poly.[zeta] == 0).
Proof.
move=> knz; rewrite /linearization_ok /R_polynomial /=.
by have [_ ->] := coset_roundtrip zeta size_R_poly knz R_values_evals.
Qed.

(** The quotient's coefficient list holds the coefficients of the quotient
    polynomial, when the coset shift is valid. *)
Lemma QUOT_coeffs_coefs :
  gate_rows -> accumulator_rows -> coset_off_domain -> kappa != 0 ->
  QUOT_coeffs_list = [seq quotient_poly`_j | j <- iota 0 (n * 4)].
Proof.
move=> gate perm off knz; rewrite QUOT_coeffs_quotient //.
apply: eq_map => j.
by rewrite -mulrA -exprMn mulfV // expr1n mulr1.
Qed.

(** The assertion of round_5 on [R] holds: at [zeta] the linearization
    polynomial is the numerator minus the quotient times the vanishing
    polynomial. *)
Lemma linearization_holds :
  gate_rows -> accumulator_rows -> coset_off_domain -> kappa != 0 ->
  T1v = values T1_polynomial -> T2v = values T2_polynomial ->
  T3v = values T3_polynomial ->
  linearization_ok.
Proof.
move=> gate perm off knz e1 e2 e3; rewrite linearization_okE //.
have [s1 s2 s3] := sizes_S; have [sL sR sM sO sC] := pk_sizes.
have deg := quotient_degree_holds gate perm off.
have chunks := chunk_horner zeta deg.
rewrite (QUOT_coeffs_coefs gate perm off knz) horner_rec_coefs in chunks.
  by apply: leq_trans size_quotient_poly _; rewrite leq_pmul2l ?n_gt0.
have num : numerator_poly.[zeta] = quotient_poly.[zeta] * (zeta ^+ n - 1).
  by rewrite numerator_polyE // hornerM horner_vanishing.
move: num; rewrite -chunks -e1 -e2 -e3.
rewrite /numerator_poly /gate_poly /permutation_poly /boundary_poly.
rewrite /rlc_X /rlc_S /R_poly /round_5_scalars /round_4_message.
cbn [sc_a_eval sc_b_eval sc_c_eval sc_s1_eval sc_s2_eval sc_z_shifted_eval
     sc_pi_eval sc_l0_eval sc_zh_eval a_eval b_eval c_eval s1_eval s2_eval
     z_shifted_eval].
rewrite !barycentric_value_interp ?size_L0_values ?n_gt0 //.
rewrite !(hornerD, hornerN, hornerM, hornerZ, hornerC, hornerX).
rewrite horner_shifted ?size_interp // [omega * zeta]mulrC.
move/eqP; rewrite -subr_eq0 => /eqP num; apply/eqP; rewrite -[RHS]num.
by ring.
Qed.

(** ** The opening polynomials *)

(** The evaluation point misses the coset when [zeta ^ (4n)] is not
    [kappa ^ (4n)]. *)
Definition zeta_off_coset : bool := zeta ^+ (n * 4) != kappa ^+ (n * 4).

Lemma opening_divisor_neq0 (i : nat) :
  zeta_off_coset -> kappa * mu ^+ i - zeta != 0.
Proof.
apply: contraNneq => /eqP; rewrite subr_eq0 => /eqP <-.
rewrite exprMn -[(mu ^+ i) ^+ _]exprM [(i * _)%N]mulnC [mu ^+ _]exprM.
by rewrite (prim_expr_order prim_4n) expr1n mulr1.
Qed.

Lemma shifted_opening_divisor_neq0 (i : nat) :
  zeta_off_coset -> kappa * mu ^+ i - zeta * omega != 0.
Proof.
apply: contraNneq => /eqP; rewrite subr_eq0 => /eqP eq.
have : (zeta * omega) ^+ (n * 4) = kappa ^+ (n * 4).
  rewrite -eq exprMn -[(mu ^+ i) ^+ _]exprM [(i * _)%N]mulnC [mu ^+ _]exprM.
  by rewrite (prim_expr_order prim_4n) expr1n mulr1.
by rewrite exprMn [omega ^+ _]exprM (prim_expr_order prim_n) expr1n mulr1 => ->.
Qed.

Definition W_z_numerator : {poly F} :=
  let sc := round_5_scalars in
  R_poly + v *: (interp A - (sc_a_eval sc)%:P)
  + v ^+ 2 *: (interp B - (sc_b_eval sc)%:P)
  + v ^+ 3 *: (interp C - (sc_c_eval sc)%:P)
  + v ^+ 4 *: (interp S1v - (sc_s1_eval sc)%:P)
  + v ^+ 5 *: (interp S2v - (sc_s2_eval sc)%:P).

Definition W_zw_numerator : {poly F} :=
  interp Zs - (sc_z_shifted_eval round_5_scalars)%:P.

Definition W_z_poly : {poly F} := W_z_numerator %/ ('X - zeta%:P).

Definition W_zw_poly : {poly F} :=
  W_zw_numerator %/ ('X - (zeta * omega)%:P).

Lemma size_W_z_numerator : (size W_z_numerator <= n)%N.
Proof.
have [s1 s2 s3] := sizes_S; have lt0 := n_gt0.
have term (c e : F) (s : seq F) :
    size s = n -> (size (c *: (interp s - e%:P)) <= n)%N.
  move=> sz; apply: leq_trans (size_scale_leq _ _) _.
  by apply: size_sub_bound; [exact: size_interp | exact: size_const_bound].
rewrite /W_z_numerator.
do 5![apply: size_add_bound; last exact: term].
exact: size_R_poly.
Qed.

Lemma size_W_zw_numerator : (size W_zw_numerator <= n)%N.
Proof.
apply: size_sub_bound; first exact: size_interp.
exact: size_const_bound n_gt0.
Qed.

Lemma size_divp_linear (p : {poly F}) (x : F) :
  (size p <= n)%N -> (size (p %/ ('X - x%:P))%R <= n)%N.
Proof.
move=> le; rewrite size_divp ?polyXsubC_eq0 // size_XsubC /= subn1.
exact: leq_trans (leq_pred _) le.
Qed.

Lemma W_z_root : kappa != 0 -> linearization_ok -> root W_z_numerator zeta.
Proof.
move=> knz; rewrite linearization_okE // => /eqP R0.
have [s1 s2 s3] := sizes_S.
rewrite /root /W_z_numerator /round_5_scalars /round_4_message.
cbn [sc_a_eval sc_b_eval sc_c_eval sc_s1_eval sc_s2_eval a_eval b_eval c_eval
     s1_eval s2_eval].
rewrite !barycentric_value_interp //; move: R_poly R0 => Rp R0.
rewrite !(hornerD, hornerN, hornerZ, hornerC) R0.
by rewrite !subrr !mulr0 !addr0.
Qed.

Lemma W_zw_root : root W_zw_numerator (zeta * omega).
Proof.
rewrite /root /W_zw_numerator /round_5_scalars /round_4_message.
cbn [sc_z_shifted_eval z_shifted_eval].
by rewrite barycentric_value_interp // hornerD hornerN hornerC subrr.
Qed.

Lemma W_z_values_evals :
  kappa != 0 -> linearization_ok -> zeta_off_coset ->
  [seq W_z_item i | i <- iota 0 (n * 4)]
  = coset_evals root_of_unity n W_z_poly kappa.
Proof.
move=> knz lin off; apply/eq_in_map => i; rewrite mem_iota add0n /= => lti.
have [s1 s2 s3] := sizes_S.
have qi : quarter_roots_list`_i = mu ^+ i.
  by rewrite /quarter_roots_list (nth_map 0%N) ?size_iota // nth_iota.
have dvd : 'X - zeta%:P %| W_z_numerator by rewrite dvdp_XsubCl W_z_root.
have -> : W_z_item i
          = W_z_numerator.[kappa * mu ^+ i] / (kappa * mu ^+ i - zeta).
  rewrite /W_z_item /W_z_numerator qi R_values_evals nth_coset_evals //.
  rewrite !nth_coset_list //.
  by rewrite !(hornerD, hornerN, hornerZ, hornerC).
rewrite -(divpK dvd) -/W_z_poly hornerM hornerD hornerN hornerX hornerC.
by rewrite mulfK // opening_divisor_neq0.
Qed.

Lemma W_zw_values_evals :
  zeta_off_coset ->
  [seq W_zw_item i | i <- iota 0 (n * 4)]
  = coset_evals root_of_unity n W_zw_poly kappa.
Proof.
move=> off; apply/eq_in_map => i; rewrite mem_iota add0n /= => lti.
have qi : quarter_roots_list`_i = mu ^+ i.
  by rewrite /quarter_roots_list (nth_map 0%N) ?size_iota // nth_iota.
have dvd : 'X - (zeta * omega)%:P %| W_zw_numerator.
  by rewrite dvdp_XsubCl W_zw_root.
have -> : W_zw_item i
          = W_zw_numerator.[kappa * mu ^+ i]
            / (kappa * mu ^+ i - zeta * omega).
  rewrite /W_zw_item /W_zw_numerator qi nth_coset_list //.
  by rewrite !(hornerD, hornerN, hornerC).
rewrite -(divpK dvd) -/W_zw_poly hornerM hornerD hornerN hornerX hornerC.
by rewrite mulfK // shifted_opening_divisor_neq0.
Qed.

(** The two degree assertions of round_5 hold. *)
Lemma W_z_degree_holds :
  kappa != 0 -> linearization_ok -> zeta_off_coset -> W_z_degree_ok.
Proof.
move=> knz lin off; rewrite /W_z_degree_ok /W_z_coeffs_list.
have le := size_divp_linear zeta size_W_z_numerator.
have [-> _] := coset_roundtrip 0 le knz (W_z_values_evals knz lin off).
exact: eqxx.
Qed.

Lemma W_zw_degree_holds : kappa != 0 -> zeta_off_coset -> W_zw_degree_ok.
Proof.
move=> knz off; rewrite /W_zw_degree_ok /W_zw_coeffs_list.
have le := size_divp_linear (zeta * omega) size_W_zw_numerator.
have [-> _] := coset_roundtrip 0 le knz (W_zw_values_evals off).
exact: eqxx.
Qed.

End WithWires.

End Runs.

(** * What a computation assigns and what it does to the witness *)

Section Effects.

Variable F : fieldType.
Variable root_of_unity : nat -> F.
Variable G : Type.

Notation World := (World F).
Notation M := (M F).
Notation dict := (Dict.t (option string) int).

(** The world [w'] is [w] after the attributes [l] were assigned, each
    once, in this order. *)
Definition assigns (l : seq attr) (w w' : World) : Prop :=
  exists2 new : seq (attr * value F),
    attrs w' = new ++ attrs w & [seq av.1 | av <- new] = rev l.

(** The computation [m] turns the witness [d] into [f d], and assigns the
    attributes [l], all of them when it returns and the first ones when it
    raises. *)
Definition effect (T : Type) (f : dict -> dict) (l : seq attr) (m : M T)
  : Prop :=
  forall w : World,
    witness (m w).2 = f (witness w)
    /\ exists2 k : nat, is_ok (m w).1 -> k = size l
                        & assigns (take k l) w (m w).2.

Lemma assigns_nil (w : World) : assigns [::] w w.
Proof. by exists [::]. Qed.

Lemma assigns_cat (l1 l2 : seq attr) (w w1 w2 : World) :
  assigns l1 w w1 -> assigns l2 w1 w2 -> assigns (l1 ++ l2) w w2.
Proof.
move=> [new1 e1 m1] [new2 e2 m2]; exists (new2 ++ new1).
  by rewrite e2 e1 catA.
by rewrite map_cat rev_cat m1 m2.
Qed.

Lemma effect_pure (T : Type) (m : M T) :
  (forall w, (m w).2 = w) -> effect id [::] m.
Proof.
by move=> same w; rewrite same; split=> //; exists 0%N => //; exact: assigns_nil.
Qed.

Lemma effect_ret (T : Type) (x : T) : effect id [::] (ret x : M T).
Proof. exact: effect_pure. Qed.

Lemma effect_raise (T : Type) (e : exn) : effect id [::] (raise e : M T).
Proof. exact: effect_pure. Qed.

Lemma effect_lift (T : Type) (r : Res T) : effect id [::] (lift r : M T).
Proof. exact: effect_pure. Qed.

Lemma effect_assert_at (s : site) (b : bool) :
  effect id [::] (assert_at s b : M unit).
Proof. by apply: effect_pure => w; case: b. Qed.

Lemma effect_getattr (a : attr) : effect id [::] (@getattr F a).
Proof.
by apply: effect_pure => w; rewrite /getattr; case: (lookup_attr _ _).
Qed.

Lemma effect_witness_get (k : option string) :
  effect id [::] (@witness_get F k).
Proof.
by apply: effect_pure => w; rewrite /witness_get; case: (Dict.get _ _).
Qed.

Lemma effect_setup_commit (self : Prover F G) (p : Polynomial F) :
  effect id [::] (setup_commit self p).
Proof.
by move=> w; split=> //; exists 0%N => //; exists [::].
Qed.

Lemma effect_setattr (a : attr) (v : value F) :
  effect id [:: a] (setattr a v).
Proof.
by move=> w; split=> //; exists 1%N => //; exists [:: (a, v)].
Qed.

Lemma effect_witness_default_None :
  effect witness_after [::] (@witness_default_None F).
Proof.
move=> w; rewrite witness_default_None_run; split=> //.
by exists 0%N => //; exists [::].
Qed.

(** Sequencing: the first computation may change the witness, what follows
    keeps it. *)
Lemma effect_bind (T U : Type) (f : dict -> dict) (l1 l2 : seq attr)
    (m : M T) (k : T -> M U) :
  effect f l1 m -> (forall x, effect id l2 (k x)) ->
  effect f (l1 ++ l2) (bind m k).
Proof.
move=> em ek w; rewrite /bind; have [wm [k1 ok1 as1]] := em w.
case: (m w) wm ok1 as1 => [[x|e] w1] /= wm ok1 as1; last first.
  split=> //; exists (minn k1 (size l1)) => //.
  by rewrite takel_cat ?geq_minr // take_min take_size.
have [wk [k2 ok2 as2]] := ek x w1; rewrite wk wm; split=> //.
exists (size l1 + k2)%N.
  by move=> /ok2 ->; rewrite size_cat.
move: as1; rewrite (ok1 isT) take_size => as1.
by rewrite take_cat ltnNge leq_addr /= addKn; exact: assigns_cat as1 as2.
Qed.

Lemma effect_bind_nil (T U : Type) (l : seq attr) (m : M T)
    (k : T -> M U) :
  effect id [::] m -> (forall x, effect id l (k x)) -> effect id l (bind m k).
Proof. exact: (@effect_bind _ _ id [::] l). Qed.

(** Sequencing after an assignment, which never raises. *)
Lemma effect_bind_set (U : Type) (f : dict -> dict) (l : seq attr) (a : attr)
    (v : value F) (k : unit -> M U) :
  (forall x, effect f l (k x)) -> effect f (a :: l) (bind (setattr a v) k).
Proof.
move=> ek w; rewrite (bind_ok _ (setattr_run a v w)).
have [wk [k2 ok2 as2]] := ek tt (with_attr a v w); split=> //.
exists k2.+1; first by move=> /ok2 ->.
by apply: (@assigns_cat [:: a]) as2; exists [:: (a, v)].
Qed.

End Effects.

Create HintDb effects.

#[global] Hint Resolve effect_ret effect_raise effect_lift effect_assert_at
  effect_getattr effect_witness_get effect_setup_commit : effects.

(** One step through a sequence of computations: an assignment, or a
    computation that assigns nothing. *)
Ltac effect_step :=
  first
    [ apply: effect_bind_set => ?
    | apply: effect_bind_nil; [by auto with effects | move=> ?]
    | by auto with effects ];
  repeat match goal with
         | |- effect _ _ (let: (_, _) := ?x in _) => case: x => * /=
         end.

Ltac effects := repeat effect_step.

Section RoundEffects.

Variable F : fieldType.
Variable root_of_unity : nat -> F.
Variable G : Type.
Variable self : Prover F G.

Notation M := (M F).

Lemma effect_get_poly (a : attr) : effect id [::] (@get_poly F a).
Proof.
by rewrite /get_poly; apply: effect_bind_nil; auto with effects; case; effects.
Qed.

Lemma effect_get_scalar (a : attr) : effect id [::] (@get_scalar F a).
Proof.
by rewrite /get_scalar; apply: effect_bind_nil; auto with effects; case;
   effects.
Qed.

Lemma effect_get_roots (a : attr) : effect id [::] (@get_roots F a).
Proof.
by rewrite /get_roots; apply: effect_bind_nil; auto with effects; case;
   effects.
Qed.

Hint Resolve effect_get_poly effect_get_scalar effect_get_roots : effects.

Lemma effect_mapM (T U : Type) (f : T -> M U) (s : seq T) :
  (forall x, effect id [::] (f x)) -> effect id [::] (mapM f s).
Proof. by move=> ef; elim: s => [|x s IH] /=; effects. Qed.

Lemma effect_forM_ (T : Type) (f : T -> M unit) (s : seq T) :
  (forall x, effect id [::] (f x)) -> effect id [::] (forM_ f s).
Proof. by move=> ef; elim: s => [|x s IH] /=; effects. Qed.

Lemma effect_rlc (t1 t2 : F) : effect id [::] (@rlc F t1 t2).
Proof. by rewrite /rlc; effects. Qed.

Lemma effect_fft_expand (x : Polynomial F) :
  effect id [::] (fft_expand root_of_unity x).
Proof. by rewrite /fft_expand; effects. Qed.

Lemma effect_expanded_evals_to_coeffs (x : Polynomial F) :
  effect id [::] (expanded_evals_to_coeffs root_of_unity x).
Proof. by rewrite /expanded_evals_to_coeffs; effects. Qed.

Lemma effect_attr_value_at (a : attr) (i : nat) :
  effect id [::] (@attr_value_at F a i).
Proof. by rewrite /attr_value_at; effects. Qed.

Hint Resolve effect_rlc effect_fft_expand effect_expanded_evals_to_coeffs
  effect_attr_value_at : effects.

Lemma effect_assign_wires (i : nat) (ws : seq Wire) (As Bs Cs : seq int) :
  effect id [::] (@assign_wires F i ws As Bs Cs).
Proof. by elim: ws i As Bs Cs => [|wire ws IH] i As Bs Cs /=; effects. Qed.

Lemma effect_gate_polynomial : effect id [::] (gate_polynomial self).
Proof. by rewrite /gate_polynomial; effects. Qed.

Hint Resolve effect_assign_wires effect_gate_polynomial : effects.

Lemma effect_round_1 :
  effect witness_after [:: self_A; self_B; self_C] (round_1 self).
Proof.
rewrite /round_1.
apply: (effect_bind (f := witness_after) (l1 := [::])
          (l2 := [:: self_A; self_B; self_C])).
  exact: effect_witness_default_None.
by move=> _; effects.
Qed.

Lemma effect_permutation_numerator (rs : seq F) (i : nat) :
  effect id [::] (@permutation_numerator F rs i).
Proof. by rewrite /permutation_numerator; effects. Qed.

Lemma effect_permutation_denominator (i : nat) :
  effect id [::] (permutation_denominator self i).
Proof. by rewrite /permutation_denominator; effects. Qed.

Hint Resolve effect_permutation_numerator effect_permutation_denominator
  : effects.

Lemma effect_accumulate (rs : seq F) (rows : seq nat) (Zs : seq F) :
  effect id [::] (accumulate self rs rows Zs).
Proof. by elim: rows Zs => [|i rows IH] Zs /=; effects. Qed.

Lemma effect_check_row (rs Zs : seq F) (i : nat) :
  effect id [::] (check_row self rs Zs i).
Proof. by rewrite /check_row; effects. Qed.

Hint Resolve effect_accumulate effect_check_row effect_forM_ effect_mapM
  : effects.

Lemma effect_round_2 : effect id [:: self_Z] (round_2 root_of_unity self).
Proof. by rewrite /round_2; effects. Qed.

Lemma effect_QUOT_value (e : coset_inputs F) (kappa alpha : F)
    (qs : seq F) (i : nat) :
  effect id [::] (QUOT_value e kappa alpha qs i).
Proof. by rewrite /QUOT_value; effects. Qed.

Hint Resolve effect_QUOT_value : effects.

(** The attributes round_3 assigns before its first assertion. *)
Definition quotient_fields : seq attr :=
  [:: self_quarter_roots; self_A_big; self_B_big; self_C_big; self_S1_big;
      self_S2_big; self_S3_big].

Lemma effect_quotient_polynomial (kappa alpha : F) :
  effect id quotient_fields (quotient_polynomial root_of_unity self kappa alpha).
Proof. by rewrite /quotient_polynomial /quotient_fields; effects. Qed.

Lemma effect_chunk_sum (T1 T2 T3 : Polynomial F) (kappa : F) :
  effect id [::] (chunk_sum root_of_unity self T1 T2 T3 kappa).
Proof. by rewrite /chunk_sum; effects. Qed.

Hint Resolve effect_chunk_sum : effects.

Definition round_3_fields : seq attr :=
  quotient_fields ++ [:: self_T1; self_T2; self_T3].

Lemma effect_round_3 : effect id round_3_fields (round_3 root_of_unity self).
Proof.
rewrite /round_3 /round_3_fields; effects.
apply: effect_bind; first exact: effect_quotient_polynomial.
by move=> QUOT_big; effects.
Qed.

Definition round_4_fields : seq attr :=
  [:: self_a_eval; self_b_eval; self_c_eval; self_s1_eval; self_s2_eval;
      self_z_shifted_eval].

Lemma effect_round_4 : effect id round_4_fields (round_4 root_of_unity self).
Proof. by rewrite /round_4 /round_4_fields; effects. Qed.

Lemma effect_round_5_locals :
  effect id [::] (round_5_locals root_of_unity self).
Proof. by rewrite /round_5_locals; effects. Qed.

Hint Resolve effect_round_5_locals : effects.

Lemma effect_round_5 : effect id [::] (round_5 root_of_unity self).
Proof. by rewrite /round_5; effects. Qed.

Lemma public_inputs_run (vars : seq string) (w : World F) :
  mapM (@public_input F) vars w
  = if all (fun x => Dict.contains (Some x) (witness w)) vars
    then (Ok [seq Scalar F (- odflt 0 (Dict.get (Some x) (witness w)))
             | x <- vars], w)
    else (Raise KeyError, w).
Proof.
elim: vars => [|x vars IH] //=.
case: (boolP (Dict.contains _ _)) => [has|hasnt] /=; last first.
  by rewrite (bind_raise _ (bind_raise _ (witness_get_raise hasnt))).
rewrite /public_input; step (bind_ok _ (witness_get_ok has)).
by rewrite /bind IH; case: (all _ _).
Qed.

Variable transcript : Transcript F G.

(** The attributes a call of prove assigns, in order. *)
Definition prove_fields : seq attr :=
  self_PI
  :: [:: self_A; self_B; self_C]
  ++ (self_beta :: self_gamma
      :: [:: self_Z]
      ++ (self_alpha :: self_fft_cofactor
          :: round_3_fields ++ (self_zeta :: round_4_fields ++ [:: self_v]))).

(** The public variables are bound by the witness of the world [w]. *)
Definition public_vars_bound (w : World F) : bool :=
  all (fun x => Dict.contains (Some x) (witness w))
      (get_public_assignments (program self)).

Lemma prove_effect (w : World F) :
  let w' := (prove root_of_unity self transcript w).2 in
  witness w'
  = (if public_vars_bound w then witness_after (witness w) else witness w)
  /\ exists2 k : nat,
       is_ok (prove root_of_unity self transcript w).1 -> k = size prove_fields
       & assigns (take k prove_fields) w w'.
Proof.
cbv zeta; rewrite /prove; set k := (X in bind _ X).
rewrite [bind _ k w]/bind public_inputs_run -/(public_vars_bound w).
case: (public_vars_bound w); last first.
  by split=> //; exists 0%N => //; exact: assigns_nil.
suff ef inputs : effect witness_after prove_fields (k inputs) by exact: ef.
rewrite /k /prove_fields; apply: effect_bind_set => _.
apply: effect_bind; first exact: effect_round_1.
move=> msg_1; case: (transcript_round_1 _ _) => beta gamma.
do 2!apply: effect_bind_set => _.
apply: effect_bind; first exact: effect_round_2.
move=> msg_2; case: (transcript_round_2 _ _ _) => alpha kappa.
do 2!apply: effect_bind_set => _.
apply: effect_bind; first exact: effect_round_3.
move=> msg_3; apply: effect_bind_set => _.
apply: effect_bind; first exact: effect_round_4.
move=> msg_4; apply: effect_bind_set => _.
apply: effect_bind_nil; first exact: effect_round_5.
by move=> msg_5; exact: effect_ret.
Qed.

End RoundEffects.

(** * A whole call of prove *)

Section Pipeline.

Variable F : fieldType.
Variable root_of_unity : nat -> F.
Variable G : Type.
Variable self : Prover F G.
Variable transcript : Transcript F G.

Notation World := (World F).
Notation M := (M F).

Let n := group_order self.

(** The world [prove] is called in; its witness is the caller's dict. *)
Variable w0 : World.

Definition public_vars : seq string := get_public_assignments (program self).

Definition public_bound : bool :=
  all (fun x => Dict.contains (Some x) (witness w0)) public_vars.

Definition PI_values : seq F :=
  [seq Scalar F (- odflt 0 (Dict.get (Some x) (witness w0))) | x <- public_vars]
  ++ nseq (n - size public_vars) (Scalar F 0).

Definition wire_values (proj : Wire -> option string) : seq F :=
  values (wire_polynomial self (witness_after (witness w0)) proj).

Definition message_1 : Message1 G :=
  MkMessage1 (commit (setup self) (lag (wire_values wire_L)))
    (commit (setup self) (lag (wire_values wire_R)))
    (commit (setup self) (lag (wire_values wire_O))).

Definition beta_of : F := (transcript_round_1 transcript message_1).1.
Definition gamma_of : F := (transcript_round_1 transcript message_1).2.

Definition Z_values : seq F :=
  mkseq (Z_value root_of_unity self (wire_values wire_L) (wire_values wire_R)
           (wire_values wire_O) beta_of gamma_of) n.

Definition message_2 : Message2 G :=
  MkMessage2 (commit (setup self) (lag Z_values)).

Definition alpha_of : F := (transcript_round_2 transcript message_1 message_2).1.
Definition kappa_of : F := (transcript_round_2 transcript message_1 message_2).2.

Local Notation Av := (wire_values wire_L).
Local Notation Bv := (wire_values wire_R).
Local Notation Cv := (wire_values wire_O).

Definition quotient_ok : bool :=
  quotient_degree_ok root_of_unity self Av Bv Cv beta_of gamma_of Z_values
    PI_values alpha_of kappa_of.

Definition chunks_ok : bool :=
  chunk_ok root_of_unity self Av Bv Cv beta_of gamma_of Z_values PI_values
    alpha_of kappa_of.

Definition T1_of : Polynomial F :=
  T1_polynomial root_of_unity self Av Bv Cv beta_of gamma_of Z_values
    PI_values alpha_of kappa_of.
Definition T2_of : Polynomial F :=
  T2_polynomial root_of_unity self Av Bv Cv beta_of gamma_of Z_values
    PI_values alpha_of kappa_of.
Definition T3_of : Polynomial F :=
  T3_polynomial root_of_unity self Av Bv Cv beta_of gamma_of Z_values
    PI_values alpha_of kappa_of.

Definition message_3 : Message3 G :=
  MkMessage3 (commit (setup self) T1_of) (commit (setup self) T2_of)
    (commit (setup self) T3_of).

Definition zeta_of : F :=
  transcript_round_3 transcript message_1 message_2 message_3.

Definition message_4 : Message4 F :=
  round_4_message root_of_unity self Av Bv Cv Z_values zeta_of.

Definition v_of : F :=
  transcript_round_4 transcript message_1 message_2 message_3 message_4.

Definition R_ok : bool :=
  linearization_ok root_of_unity self Av Bv Cv beta_of gamma_of Z_values
    PI_values alpha_of kappa_of zeta_of (values T1_of) (values T2_of)
    (values T3_of) v_of.

Definition W_z_ok : bool :=
  W_z_degree_ok root_of_unity self Av Bv Cv beta_of gamma_of Z_values
    PI_values alpha_of kappa_of zeta_of (values T1_of) (values T2_of)
    (values T3_of) v_of.

Definition W_zw_ok : bool :=
  W_zw_degree_ok root_of_unity self Av Bv Cv beta_of gamma_of Z_values
    PI_values alpha_of kappa_of zeta_of v_of.

Definition W_z_of : Polynomial F :=
  W_z_polynomial root_of_unity self Av Bv Cv beta_of gamma_of Z_values
    PI_values alpha_of kappa_of zeta_of (values T1_of) (values T2_of)
    (values T3_of) v_of.

Definition W_zw_of : Polynomial F :=
  W_zw_polynomial root_of_unity self Av Bv Cv beta_of gamma_of Z_values
    PI_values alpha_of kappa_of zeta_of v_of.

Definition message_5 : Message5 G :=
  MkMessage5 (commit (setup self) W_z_of) (commit (setup self) W_zw_of).

(** The worlds between the rounds. *)
Definition world_1 : World :=
  world_after_round_1 self (with_attr self_PI (VPoly (lag PI_values)) w0).

Definition world_1c : World :=
  with_attr self_gamma (VScalar gamma_of)
    (with_attr self_beta (VScalar beta_of) world_1).

Definition world_2c : World :=
  with_attr self_fft_cofactor (VScalar kappa_of)
    (with_attr self_alpha (VScalar alpha_of)
      (world_after_round_2 root_of_unity self Av Bv Cv beta_of gamma_of
         world_1c)).

Definition world_3c : World :=
  with_attr self_zeta (VScalar zeta_of)
    (world_after_round_3 root_of_unity self Av Bv Cv beta_of gamma_of
       Z_values PI_values alpha_of kappa_of world_2c).

Definition world_4c : World :=
  with_attr self_v (VScalar v_of)
    (world_after_round_4 root_of_unity self Av Bv Cv Z_values zeta_of
       world_3c).

Definition world_5 : World := with_commit W_zw_of (with_commit W_z_of world_4c).

(** What a call of [prove] returns and the world it leaves, assertion by
    assertion. *)
Definition prove_outcome : Res (Proof F G) * World :=
  if ~~ public_bound then (Raise KeyError, w0)
  else if ~~ gate_identity self (witness_after (witness w0)) PI_values
  then (Raise (AssertionError gate_check), world_1)
  else if Z_value root_of_unity self Av Bv Cv beta_of gamma_of n != 1
  then (Raise (AssertionError grand_product_check), world_1c)
  else if ~~ quotient_ok
  then (Raise (AssertionError quotient_degree),
        world_after_quotient root_of_unity self Av Bv Cv kappa_of world_2c)
  else if ~~ chunks_ok
  then (Raise (AssertionError chunk_check),
        world_before_chunk_check root_of_unity self Av Bv Cv beta_of gamma_of
          Z_values PI_values alpha_of kappa_of world_2c)
  else if ~~ R_ok then (Raise (AssertionError linearization_check), world_4c)
  else if ~~ W_z_ok then (Raise (AssertionError W_z_degree), world_4c)
  else if ~~ W_zw_ok
  then (Raise (AssertionError W_zw_degree), with_commit W_z_of world_4c)
  else (Ok (MkProof message_1 message_2 message_3 message_4 message_5),
        world_5).

(** The prover and the witness are well formed: the preprocessed input is
    made of LAGRANGE polynomials of [n] values, the gates and the public
    variables fit in [n] rows and the witness binds every wire. *)
Definition well_formed : bool :=
  [&& pk_wf self, (1 < n)%N, (size (wires (program self)) <= n)%N,
      (size public_vars <= n)%N
    & all (wire_bound (witness_after (witness w0))) (wires (program self))].

Lemma size_PI_values : (size public_vars <= n)%N -> size PI_values = n.
Proof. by move=> le; rewrite size_cat size_map size_nseq subnKC. Qed.

Lemma size_wire_values proj :
  (size (wires (program self)) <= n)%N -> size (wire_values proj) = n.
Proof. by move=> le; rewrite size_map size_wire_column. Qed.

Lemma prove_run :
  well_formed -> prove root_of_unity self transcript w0 = prove_outcome.
Proof.
case/and5P => wf lt1 le_wires le_public bound.
have lt0 : (0 < n)%N by exact: ltnW.
have szPI := size_PI_values le_public.
have szA := size_wire_values wire_L le_wires.
have szB := size_wire_values wire_R le_wires.
have szC := size_wire_values wire_O le_wires.
have szZ : size Z_values = n by rewrite size_mkseq.
rewrite /prove /prove_outcome -/public_vars {1}/bind public_inputs_run.
rewrite -/public_bound; case: public_bound; last by [].
cbv beta iota; rewrite -/PI_values [negb true]/=; cbv iota.
step (setattr_run _ _ _).
have := @round_1_run _ _ self (with_attr self_PI (VPoly (lag PI_values)) w0)
          _ wf szPI (erefl _) le_wires bound.
rewrite -/world_1.
case: (gate_identity _ _ _) => run1; last by rewrite (bind_raise _ run1).
step run1; rewrite -/message_1 [negb true]/=; cbv iota.
rewrite (surjective_pairing (transcript_round_1 _ _)) -/beta_of -/gamma_of.
step (setattr_run _ _ _); step (setattr_run _ _ _); rewrite -/world_1c.
have done1 : round_1_done Av Bv Cv beta_of gamma_of world_1c by split.
have := round_2_run root_of_unity wf szA szB szC done1.
case: eqP => [Zn|_] run2; last by rewrite (bind_raise _ run2).
rewrite (all_local_identity Zn) in run2.
step run2; rewrite -/Z_values -/message_2.
rewrite (surjective_pairing (transcript_round_2 _ _ _)) -/alpha_of -/kappa_of.
step (setattr_run _ _ _); step (setattr_run _ _ _); rewrite -/world_2c.
have done2 : round_2_done Av Bv Cv beta_of gamma_of Z_values PI_values
               alpha_of kappa_of world_2c.
  by split=> //; split.
have := round_3_run root_of_unity wf szA szB szC szZ szPI lt0 done2.
rewrite -/quotient_ok -/chunks_ok.
case: quotient_ok => [|run3]; last by rewrite (bind_raise _ run3).
case: chunks_ok => run3; last by rewrite (bind_raise _ run3).
step run3; rewrite -/message_3 -/zeta_of.
step (setattr_run _ _ _); rewrite -/world_3c.
have done3 : round_2_done Av Bv Cv beta_of gamma_of Z_values PI_values
               alpha_of kappa_of world_3c.
  by split=> //; split.
step (round_4_run root_of_unity wf lt1 done3 (erefl _)).
rewrite -/message_4 -/v_of.
step (setattr_run _ _ _); rewrite -/world_4c.
have [szT1 szT2 szT3] :
    [/\ size (values T1_of) = n, size (values T2_of) = n
       & size (values T3_of) = n].
  exact: size_T_polynomials.
have done4 : round_4_done root_of_unity self Av Bv Cv beta_of gamma_of
               Z_values PI_values alpha_of kappa_of zeta_of (values T1_of)
               (values T2_of) (values T3_of) v_of world_4c.
  by split; [split=> //; split | do 17![split=> //]].
have := round_5_run wf szA szB szC szZ szT1 szT2 szT3 lt1 done4.
rewrite -/R_ok -/W_z_ok -/W_zw_ok -/message_5 -/W_z_of -/W_zw_of.
case: R_ok => [|run5]; last by rewrite (bind_raise _ run5).
case: W_z_ok => [|run5]; last by rewrite (bind_raise _ run5).
case: W_zw_ok => run5; last by rewrite (bind_raise _ run5).
by step run5.
Qed.

(** The polynomials a call of [prove] passes to [setup.commit], in call
    order. *)
Definition prove_commits : seq (Polynomial F) :=
  [:: lag Av; lag Bv; lag Cv; lag Z_values; T1_of; T2_of; T3_of; W_z_of;
      W_zw_of].

Lemma size_opening_values (s : seq F) (x : F) :
  size s = (n * 4)%N ->
  size (dft root_of_unity (take n (coset_coeffs root_of_unity s x))) = n.
Proof.
move=> sz; rewrite size_dft size_take size_coset_coeffs sz.
by case: ifP => // /negbT; rewrite -leqNgt => le; size_lia.
Qed.

Lemma prove_commits_lag : well_formed -> all (is_lag n) prove_commits.
Proof.
case/and5P => wf lt1 le_wires le_public bound.
have [szT1 szT2 szT3] :
    [/\ size (values T1_of) = n, size (values T2_of) = n
       & size (values T3_of) = n].
  by apply: size_T_polynomials;
     rewrite ?size_wire_values ?size_mkseq ?size_PI_values.
rewrite /prove_commits /is_lag /= !size_wire_values // size_mkseq.
rewrite szT1 szT2 szT3 !eqxx /=.
by rewrite !size_opening_values ?size_map ?size_iota // !eqxx.
Qed.

Lemma commit_log_outcome :
  exists2 k : nat,
    is_ok prove_outcome.1 -> k = size prove_commits
    & commit_log prove_outcome.2 = commit_log w0 ++ take k prove_commits.
Proof.
rewrite /prove_outcome.
case: public_bound => /=; last by exists 0%N; rewrite ?cats0.
case: (gate_identity _ _ _) => /=; last by exists 3%N.
case: eqP => _ /=; last by exists 3%N.
case: quotient_ok => /=; last first.
  by exists 4%N => //; rewrite -cats1 -catA.
case: chunks_ok => /=; last first.
  by exists 4%N => //; rewrite -cats1 -catA.
case: R_ok => /=; last first.
  by exists 7%N => //; rewrite -!cats1 -!catA.
case: W_z_ok => /=; last first.
  by exists 7%N => //; rewrite -!cats1 -!catA.
case: W_zw_ok => /=; last first.
  by exists 8%N => //; rewrite -!cats1 -!catA.
by exists 9%N => //; rewrite -!cats1 -!catA.
Qed.

End Pipeline.

(** * The properties of the prover *)

Section DictFacts.

Variables (K : eqType) (V : Type).
Implicit Types (d : Dict.t K V) (k : K) (v : V).

Lemma Dict_set_new k v d :
  ~~ Dict.contains k d -> Dict.set k v d = rcons d (k, v).
Proof.
rewrite /Dict.contains /Dict.keys.
elim: d => [|[k' v'] d IH] //=; rewrite in_cons negb_or eq_sym.
by case/andP => /negbTE -> /IH ->.
Qed.

Lemma Dict_get_set k v d : Dict.get k (Dict.set k v d) = Some v.
Proof.
elim: d => [|[k' v'] d IH] /=; first by rewrite eqxx.
by case: (boolP (k' == k)) => [eq|/negbTE neq] /=; rewrite ?eq ?neq.
Qed.

Lemma Dict_get_set_other k k' v d :
  k' != k -> Dict.get k' (Dict.set k v d) = Dict.get k' d.
Proof.
move=> neq; elim: d => [|[k1 v1] d IH] /=.
  by rewrite eq_sym (negbTE neq).
case: (boolP (k1 == k)) => [/eqP eq|ne] /=; last by rewrite IH.
by rewrite eq eq_sym (negbTE neq).
Qed.

End DictFacts.

Section Claims.

Variable F : fieldType.
Variable root_of_unity : nat -> F.
Variable G : Type.
Variable self : Prover F G.
Variable transcript : Transcript F G.

Notation World := (World F).
Notation n := (group_order self).

(** C7: [Proof.flatten] returns the fifteen fields [a_1, b_1, c_1, z_1,
    t_lo_1, t_mid_1, t_hi_1, a_eval, b_eval, c_eval, s1_eval, s2_eval,
    z_shifted_eval, W_z_1, W_zw_1], in this order and no other, each bound
    to the component of the round message it is named after. *)
Theorem flatten_fields (p : Proof F G) :
  flatten p
  = [:: ("a_1"%string, Point F (a_1 (msg_1 p)));
        ("b_1"%string, Point F (b_1 (msg_1 p)));
        ("c_1"%string, Point F (c_1 (msg_1 p)));
        ("z_1"%string, Point F (z_1 (msg_2 p)));
        ("t_lo_1"%string, Point F (t_lo_1 (msg_3 p)));
        ("t_mid_1"%string, Point F (t_mid_1 (msg_3 p)));
        ("t_hi_1"%string, Point F (t_hi_1 (msg_3 p)));
        ("a_eval"%string, Element G (a_eval (msg_4 p)));
        ("b_eval"%string, Element G (b_eval (msg_4 p)));
        ("c_eval"%string, Element G (c_eval (msg_4 p)));
        ("s1_eval"%string, Element G (s1_eval (msg_4 p)));
        ("s2_eval"%string, Element G (s2_eval (msg_4 p)));
        ("z_shifted_eval"%string, Element G (z_shifted_eval (msg_4 p)));
        ("W_z_1"%string, Point F (W_z_1 (msg_5 p)));
        ("W_zw_1"%string, Point F (W_zw_1 (msg_5 p)))].
Proof. by []. Qed.

(** C10, amended: for every witness dict that does not contain the key
    [None] and binds every public variable, a call of prove, whether it
    returns or raises, leaves the caller's dict with the one new entry
    [None : 0], added at the end; no other entry is added, removed or
    changed. *)
Theorem prove_inserts_None (w : World) :
  ~~ Dict.contains None (witness w) -> public_vars_bound self w ->
  let d' := witness (prove root_of_unity self transcript w).2 in
  [/\ d' = rcons (witness w) (None, 0), Dict.get None d' = Some 0
     & forall k, k != None -> Dict.get k d' = Dict.get k (witness w)].
Proof.
move=> noNone bound d'.
have [eq _] := prove_effect root_of_unity self transcript w.
have {eq} eq : d' = Dict.set None 0 (witness w).
  by rewrite /d' eq bound /witness_after noNone.
rewrite eq; split; first exact: Dict_set_new.
  exact: Dict_get_set.
by move=> k neq; exact: Dict_get_set_other.
Qed.

Lemma lookup_attr_cat (a : attr) (h1 h2 : seq (attr * value F)) :
  lookup_attr a h1 -> lookup_attr a (h1 ++ h2).
Proof. by elim: h1 => [|[b v] h1 IH] //=; case: (attr_eqb b a). Qed.

Lemma lookup_attr_has (a : attr) (h : seq (attr * value F)) :
  has (attr_eqb^~ a) [seq bv.1 | bv <- h] -> lookup_attr a h.
Proof. by elim: h => [|[b v] h IH] //=; case: (attr_eqb b a). Qed.

(** C9, amended: in every call of prove each proof-state field (the wire
    polynomials, the public-input polynomial, the accumulator, the
    quotient chunks, the round-4 evaluations, the challenges and the coset
    vectors of round 3) is assigned at most once, in the order of
    [prove_fields], and exactly once when the call returns; no field is
    assigned a second time, and the fields stay stored on the prover object
    after the call, on top of what it held before. *)
Theorem prove_assigns_once (w : World) :
  let r := prove root_of_unity self transcript w in
  [/\ uniq [seq attr_code a | a <- prove_fields],
      exists2 k : nat, is_ok r.1 -> k = size prove_fields
                       & assigns (take k prove_fields) w r.2
    & is_ok r.1 ->
      all (fun a => lookup_attr a (attrs r.2) : bool) prove_fields].
Proof.
move=> r; have [_ [k ok asg]] := prove_effect root_of_unity self transcript w.
split=> //; first by exists k.
move=> /ok eqk; move: asg; rewrite eqk take_size => -[new -> keys].
have look a :
    has (attr_eqb^~ a) (rev prove_fields) -> lookup_attr a (new ++ attrs w).
  by move=> h; apply/lookup_attr_cat/lookup_attr_has; rewrite keys.
by rewrite /= !look.
Qed.

(** C8, amended: for a well-formed prover and witness, every polynomial
    passed to [setup.commit] during a call of prove (A, B, C in round 1, Z
    in round 2, T1, T2, T3 in round 3, W_z and W_zw in round 5, in this
    order, and the first ones of them when the call raises) is in LAGRANGE
    basis with exactly [n] values, the values over the roots of unity of a
    polynomial of degree less than [n]. *)
Theorem commits_are_lagrange (w : World) :
  well_formed self w ->
  let r := prove root_of_unity self transcript w in
  let ps := prove_commits root_of_unity self transcript w in
  [/\ all (fun p => Basis_eqb (basis p) LAGRANGE && (size (values p) == n)) ps,
      all (fun p => size (interpolant root_of_unity (values p)) <= n)%N ps
    & exists2 k : nat, is_ok r.1 -> k = size ps
                       & commit_log r.2 = commit_log w ++ take k ps].
Proof.
move=> wf r ps; have lagr := prove_commits_lag root_of_unity transcript wf.
split=> //; last first.
  rewrite /r (prove_run root_of_unity transcript wf).
  exact: commit_log_outcome.
apply: sub_all lagr => p /andP [_ /eqP sz].
by rewrite -[X in (_ <= X)%N]sz size_interpolant.
Qed.

(** C1, amended: for a well-formed prover (preprocessed polynomials in
    LAGRANGE basis with [n] values, at most [n] gates, a public-input
    polynomial of [n] values) and every witness that binds every wire
    variable, round_1 raises, and returns no message, if and only if the
    gate identity A QL + B QR + A B QM + C QO + PI + QC = 0 fails at some
    row [i < n], that is at some root of unity, for the wire polynomials
    built from the witness; when the identity holds at every row, round_1
    returns the commitments to A, B and C. *)
Theorem round_1_gate_check (w : World) (PI : seq F) :
  let d := witness_after (witness w) in
  let A := wire_polynomial self d wire_L in
  let B := wire_polynomial self d wire_R in
  let C := wire_polynomial self d wire_O in
  pk_wf self -> size PI = n -> has_attr w self_PI (VPoly (lag PI)) ->
  (size (wires (program self)) <= n)%N ->
  all (wire_bound d) (wires (program self)) ->
  (is_ok (round_1 self w).1 = false
   <-> exists2 i, (i < n)%N
         & gate_row self (values A) (values B) (values C) PI i != 0)
  /\ ((forall i, (i < n)%N ->
         gate_row self (values A) (values B) (values C) PI i = 0) ->
      (round_1 self w).1
      = Ok (MkMessage1 (commit (setup self) A) (commit (setup self) B)
              (commit (setup self) C))).
Proof.
move=> d A B C wf szPI hPI le bound.
rewrite (round_1_run wf szPI hPI le bound) -/d -/A -/B -/C /gate_identity.
case: (boolP (all _ _)) => [/allP gate|/allPn [i]] /=.
  split=> //; split=> // -[i lti].
  by rewrite (eqP (gate i _)) ?eqxx // mem_iota.
rewrite mem_iota add0n /= => lti nz; split; first by split=> // _; exists i.
by move=> gate; rewrite gate ?eqxx in nz.
Qed.

(** One call of [check_row], for any list [zs] of [n] accumulator values:
    it reads nothing but the stored wires and challenges, leaves the world
    as it is, and raises exactly when the identity of row [i] between
    [zs_i] and [zs_((i+1) mod n)] fails. *)
Lemma check_row_any (A B C : seq F) (beta gamma : F) (zs : seq F)
    (w : World) (i : nat) :
  pk_wf self -> size A = n -> size B = n -> size C = n ->
  round_1_done A B C beta gamma w -> size zs = n -> (i < n)%N ->
  check_row self (roots_of_unity root_of_unity n) zs i w
  = (if numerator root_of_unity self A B C beta gamma i * zs`_i
        - denominator self A B C beta gamma i * zs`_((i + 1) %% n) == 0
     then Ok tt else Raise (AssertionError local_check), w).
Proof.
move=> wf szA szB szC done szZ lti; rewrite /check_row.
have n_gt0 : (0 < n)%N by apply: leq_ltn_trans lti.
have lt1 : (i < size zs)%N by rewrite szZ.
have lt2 : ((i + 1) %% n < size zs)%N by rewrite szZ ltn_mod.
step (permutation_numerator_ok root_of_unity szA szB szC done lti).
rewrite /numerators.
step_lift (index_list_ok 0 lt1).
step (permutation_denominator_ok wf szA szB szC done lti).
rewrite /denominators.
step_lift (index_list_ok 0 lt2).
by rewrite /assert_at -/n /numerator /denominator; case: ifP.
Qed.

(** C2: in a world where round 1 has stored the wire polynomials
    A, B, C and the challenges beta and gamma, round_2 computes the
    accumulator by Z_0 = 1 and
    Z_{i+1} = Z_i rlc(A_i, w^i) rlc(B_i, 2 w^i) rlc(C_i, 3 w^i)
              / (rlc(A_i, S1_i) rlc(B_i, S2_i) rlc(C_i, S3_i)),
    with rlc(u, x) = u + beta x + gamma, and raises unless Z_n = 1.
    The verification is [check_row]: on any [n] values [zs] it raises
    at row [i] exactly when num_i zs_i - den_i zs_((i+1) mod n) is not 0,
    so the loop over the rows [0 .. n-1] passes exactly when the
    wrap-around identity holds at every row.  round_2 runs this loop on
    Z = [Z_0, ..., Z_(n-1)] after the test Z_n = 1 and before the
    commitment: a failing row ends the round with nothing committed or
    stored (and no row fails once Z_n = 1); otherwise the round commits
    to Z, a LAGRANGE polynomial of [n] values with Z_0 = 1, and
    stores it. *)
Theorem round_2_accumulator (A B C : seq F) (beta gamma : F) (w : World) :
  pk_wf self -> size A = n -> size B = n -> size C = n ->
  round_1_done A B C beta gamma w ->
  let omega := root_of_unity n in
  let S1v := values (S1 (pk self)) in
  let S2v := values (S2 (pk self)) in
  let S3v := values (S3 (pk self)) in
  let rlc u x := u + beta * x + gamma in
  let num i :=
    rlc A`_i (omega ^+ i) * rlc B`_i (2%:R * omega ^+ i)
    * rlc C`_i (3%:R * omega ^+ i) in
  let den i := rlc A`_i S1v`_i * rlc B`_i S2v`_i * rlc C`_i S3v`_i in
  let Z := Z_value root_of_unity self A B C beta gamma in
  let Zs := mkseq Z n in
  let roots := roots_of_unity root_of_unity n in
  [/\ accumulate self roots (iota 0 n) [:: Scalar F 1] w
      = (Ok (mkseq Z n.+1), w),
      Z 0%N = 1 /\ (forall i, (i < n)%N -> Z i.+1 = Z i * num i / den i),
      forall zs, size zs = n ->
        (forall i, (i < n)%N ->
           check_row self roots zs i w
           = (if num i * zs`_i - den i * zs`_((i + 1) %% n) == 0
              then Ok tt else Raise (AssertionError local_check), w))
        /\ forM_ (check_row self roots zs) (iota 0 n) w
           = (if all (fun i => num i * zs`_i - den i * zs`_((i + 1) %% n) == 0)
                     (iota 0 n)
              then Ok tt else Raise (AssertionError local_check), w),
      round_2 root_of_unity self w
      = (if Z n == 1 then
           match forM_ (check_row self roots Zs) (iota 0 n) w with
           | (Ok _, w') =>
               (Ok (MkMessage2 (commit (setup self) (lag Zs))),
                with_attr self_Z (VPoly (lag Zs)) (with_commit (lag Zs) w'))
           | (Raise e, w') => (Raise e, w')
           end
         else (Raise (AssertionError grand_product_check), w))
    & [/\ round_2 root_of_unity self w
          = (if Z n == 1 then
               if all (fun i => num i * Zs`_i - den i * Zs`_((i + 1) %% n) == 0)
                      (iota 0 n)
               then (Ok (MkMessage2 (commit (setup self) (lag Zs))),
                     with_attr self_Z (VPoly (lag Zs))
                       (with_commit (lag Zs) w))
               else (Raise (AssertionError local_check), w)
             else (Raise (AssertionError grand_product_check), w)),
          Z n = 1 ->
          forall i, (i < n)%N -> num i * Zs`_i - den i * Zs`_((i + 1) %% n) = 0
        & size Zs = n /\ ((0 < n)%N -> Zs`_0 = 1)]].
Proof.
move=> wf szA szB szC done omega S1v S2v S3v rlc num den Z Zs roots.
have numE i : numerator root_of_unity self A B C beta gamma i = num i.
  rewrite /numerator /numerators /rlc_of /num /rlc.
  by rewrite ![_ * beta]mulrC.
have denE i : denominator self A B C beta gamma i = den i.
  rewrite /denominator /denominators /rlc_of /den /rlc.
  by rewrite ![_ * beta]mulrC.
have localE i :
    local_identity root_of_unity self A B C beta gamma i
    = (num i * Zs`_i - den i * Zs`_((i + 1) %% n) == 0).
  by rewrite -numE -denE.
have row zs i : size zs = n -> (i < n)%N ->
    check_row self roots zs i w
    = (if num i * zs`_i - den i * zs`_((i + 1) %% n) == 0
       then Ok tt else Raise (AssertionError local_check), w).
  move=> szZ lti; rewrite -numE -denE.
  exact: (check_row_any wf szA szB szC done szZ lti).
have loop zs : size zs = n ->
    forM_ (check_row self roots zs) (iota 0 n) w
    = (if all (fun i => num i * zs`_i - den i * zs`_((i + 1) %% n) == 0)
              (iota 0 n)
       then Ok tt else Raise (AssertionError local_check), w).
  move=> szZ; apply: forM__run => i; rewrite mem_iota add0n => /andP [_ lti].
  exact: row.
have run :
    round_2 root_of_unity self w
    = (if Z n == 1 then
         if all (fun i => num i * Zs`_i - den i * Zs`_((i + 1) %% n) == 0)
                (iota 0 n)
         then (Ok (MkMessage2 (commit (setup self) (lag Zs))),
               with_attr self_Z (VPoly (lag Zs)) (with_commit (lag Zs) w))
         else (Raise (AssertionError local_check), w)
       else (Raise (AssertionError grand_product_check), w)).
  rewrite (round_2_run root_of_unity wf szA szB szC done).
  by rewrite (eq_all localE).
have szZs : size Zs = n by rewrite size_mkseq.
split.
- have := @accumulate_ok _ root_of_unity _ self A B C beta gamma wf szA szB szC
            w 0 n done (leqnn _).
  by rewrite add0n.
- split=> // i _; rewrite -numE -denE /Z /= /accumulator_step.
  rewrite /numerator /denominator.
  case: (numerators _ _ _ _ _ _ _ _) => [[fa fb] fc].
  case: (denominators _ _ _ _ _ _) => [[ga gb] gc].
  by rewrite !invfM !mulrA.
- by move=> zs szZ; split; [move=> i; exact: row | exact: loop].
- by rewrite run (loop _ szZs); case: (Z n == 1) => //; case: (all _ _).
- split=> //.
  + move=> Zn i lti; apply/eqP; rewrite -localE.
    exact: local_identity_holds.
  + by split=> // lt0; rewrite nth_mkseq.
Qed.

Section Round3.

Variables (A B C PI : seq F) (beta gamma alpha kappa : F).

Hypothesis wf : pk_wf self.
Hypotheses (szA : size A = n) (szB : size B = n) (szC : size C = n).
Hypothesis szPI : size PI = n.
Hypothesis prim_n : n.-primitive_root (root_of_unity n).
Hypothesis prim_4n : (n * 4).-primitive_root (root_of_unity (n * 4)).
Hypothesis root_compat : root_of_unity (n * 4) ^+ 4 = root_of_unity n.

Lemma accumulator_rows_Z :
  Z_value root_of_unity self A B C beta gamma n = 1 ->
  accumulator_rows root_of_unity self A B C beta gamma
    (mkseq (Z_value root_of_unity self A B C beta gamma) n).
Proof.
move=> Zn; apply/andP; split; first exact: all_local_identity.
by rewrite nth_mkseq ?(prim_order_gt0 prim_n).
Qed.

Lemma gate_rows_all :
  (forall i, (i < n)%N -> gate_row self A B C PI i = 0) ->
  gate_rows self A B C PI.
Proof.
by move=> gate; apply/allP => i; rewrite mem_iota add0n /= => /gate ->.
Qed.

End Round3.

(** C3, amended: in a world where rounds 1 and 2 succeeded (the gate
    identity holds at every row and Z_n = 1) and the coset shift kappa
    satisfies kappa^(4n) <> 1, so that no point of the coset is a root of
    unity of order n, the coefficient form of the quotient computed
    pointwise on the coset in round_3 has 4n coefficients, those at the
    indices [3n, 4n) are zero, and round_3 returns: its assertion on the
    top n coefficients does not fail. *)
Theorem round_3_quotient_degree (A B C PI : seq F)
    (beta gamma alpha kappa : F) (w : World) :
  let Zs := mkseq (Z_value root_of_unity self A B C beta gamma) n in
  let coeffs :=
    QUOT_coeffs_list root_of_unity self A B C beta gamma Zs PI alpha kappa in
  pk_wf self -> size A = n -> size B = n -> size C = n -> size PI = n ->
  n.-primitive_root (root_of_unity n) ->
  (n * 4).-primitive_root (root_of_unity (n * 4)) ->
  root_of_unity (n * 4) ^+ 4 = root_of_unity n ->
  round_2_done A B C beta gamma Zs PI alpha kappa w ->
  (forall i, (i < n)%N -> gate_row self A B C PI i = 0) ->
  Z_value root_of_unity self A B C beta gamma n = 1 ->
  kappa ^+ (n * 4) != 1 ->
  [/\ bind (quotient_polynomial root_of_unity self kappa alpha)
        (expanded_evals_to_coeffs root_of_unity) w
      = (Ok (MkPolynomial coeffs MONOMIAL),
         world_after_quotient root_of_unity self A B C kappa w),
      size coeffs = (n * 4)%N,
      forall j, (n * 3 <= j)%N -> coeffs`_j = 0
    & round_3 root_of_unity self w
      = (Ok (round_3_message root_of_unity self A B C beta gamma Zs PI alpha
               kappa),
         world_after_round_3 root_of_unity self A B C beta gamma Zs PI alpha
           kappa w)].
Proof.
move=> Zs coeffs wf szA szB szC szPI prim_n prim_4n compat done gate Zn off.
have lt0 : (0 < n)%N := prim_order_gt0 prim_n.
have szZ : size Zs = n by rewrite size_mkseq.
have grows := gate_rows_all gate.
have arows : accumulator_rows root_of_unity self A B C beta gamma Zs.
  exact: accumulator_rows_Z.
have deg : quotient_degree_ok root_of_unity self A B C beta gamma Zs PI alpha
             kappa.
  exact: quotient_degree_holds.
have chunk : chunk_ok root_of_unity self A B C beta gamma Zs PI alpha kappa.
  exact: chunk_check_holds.
have [_ _ _ _ hk] := round_2_done_after_quotient root_of_unity self done.
split.
- step (quotient_polynomial_run root_of_unity wf szA szB szC szZ szPI lt0 done).
  exact: expanded_evals_to_coeffs_run.
- by rewrite /coeffs size_QUOT_coeffs.
- by move=> j lej; apply: QUOT_coeffs_top.
- by rewrite (round_3_run root_of_unity wf szA szB szC szZ szPI lt0 done) deg
             chunk.
Qed.

(** C4: in a world where rounds 1 and 2 have stored their results,
    round_3 never fails at its cross-check: when its degree assertion
    passes it splits the quotient's coefficients into the chunks T1, T2,
    T3 of [n] coefficients each, finds
    T1(kappa) + kappa^n T2(kappa) + kappa^(2n) T3(kappa) = T_big[0], the
    value of the quotient at the first point of the coset, and returns the
    three commitments. *)
Theorem round_3_chunk_check (A B C Zs PI : seq F)
    (beta gamma alpha kappa : F) (w : World) :
  let T1 :=
    T1_polynomial root_of_unity self A B C beta gamma Zs PI alpha kappa in
  let T2 :=
    T2_polynomial root_of_unity self A B C beta gamma Zs PI alpha kappa in
  let T3 :=
    T3_polynomial root_of_unity self A B C beta gamma Zs PI alpha kappa in
  let T_big :=
    QUOT_values_list root_of_unity self A B C beta gamma Zs PI alpha kappa in
  let lhs :=
    barycentric_value root_of_unity (values T1) kappa
    + barycentric_value root_of_unity (values T2) kappa * kappa ^+ n
    + barycentric_value root_of_unity (values T3) kappa * kappa ^+ (n * 2) in
  pk_wf self -> size A = n -> size B = n -> size C = n -> size Zs = n ->
  size PI = n ->
  n.-primitive_root (root_of_unity n) ->
  (n * 4).-primitive_root (root_of_unity (n * 4)) ->
  root_of_unity (n * 4) ^+ 4 = root_of_unity n ->
  round_2_done A B C beta gamma Zs PI alpha kappa w ->
  [/\ (round_3 root_of_unity self w).1 <> Raise (AssertionError chunk_check),
      forall w', chunk_sum root_of_unity self T1 T2 T3 kappa w' = (Ok lhs, w')
    & is_ok (round_3 root_of_unity self w).1 ->
      lhs = T_big`_0
      /\ round_3 root_of_unity self w
         = (Ok (MkMessage3 (commit (setup self) T1) (commit (setup self) T2)
                  (commit (setup self) T3)),
            world_after_round_3 root_of_unity self A B C beta gamma Zs PI
              alpha kappa w)].
Proof.
move=> T1 T2 T3 T_big lhs wf szA szB szC szZ szPI prim_n prim_4n compat done.
have lt0 : (0 < n)%N := prim_order_gt0 prim_n.
have chunk :
    quotient_degree_ok root_of_unity self A B C beta gamma Zs PI alpha kappa ->
    chunk_ok root_of_unity self A B C beta gamma Zs PI alpha kappa.
  exact: chunk_check_holds.
rewrite (round_3_run root_of_unity wf szA szB szC szZ szPI lt0 done).
split.
- by case: (quotient_degree_ok _ _ _ _ _ _ _ _ _ _ _) chunk => // ->.
- by move=> w'; exact: chunk_sum_run.
- case deg: (quotient_degree_ok _ _ _ _ _ _ _ _ _ _ _) chunk => // chunk.
  by rewrite (chunk isT) => _; split=> //; apply/eqP; exact: (chunk isT).
Qed.

Lemma nth_drop_zeros (s : seq F) (k m j : nat) :
  drop k s == nseq m 0 -> (k <= j)%N -> s`_j = 0.
Proof.
move=> /eqP top lekj.
by rewrite -(subnKC lekj) -nth_drop top nth_nseq if_same.
Qed.


(** C6: in a world where rounds 1 to 4 have stored their results, both
    opening polynomials of round_5 are read back from the coset as lists
    of 4n coefficients.  Whenever round_5 returns, the coefficients at the
    indices [n, 4n) of both lists are zero, and what was committed is the
    FFT of the low [n] coefficients of each.  And the two degree
    assertions do not fail once the assertion on R has passed, when kappa
    is not 0 and zeta misses the coset (zeta^(4n) <> kappa^(4n)). *)
Theorem round_5_opening_degrees (A B C Zs PI T1v T2v T3v : seq F)
    (beta gamma alpha kappa zeta v : F) (w : World) :
  let W_z_coeffs :=
    W_z_coeffs_list root_of_unity self A B C beta gamma Zs PI alpha kappa
      zeta T1v T2v T3v v in
  let W_zw_coeffs :=
    W_zw_coeffs_list root_of_unity self A B C beta gamma Zs PI alpha kappa
      zeta v in
  let W_z := lag (dft root_of_unity (take n W_z_coeffs)) in
  let W_zw := lag (dft root_of_unity (take n W_zw_coeffs)) in
  pk_wf self -> size A = n -> size B = n -> size C = n -> size Zs = n ->
  size PI = n -> size T1v = n -> size T2v = n -> size T3v = n -> (1 < n)%N ->
  round_4_done root_of_unity self A B C beta gamma Zs PI alpha kappa zeta
    T1v T2v T3v v w ->
  [/\ size W_z_coeffs = (n * 4)%N /\ size W_zw_coeffs = (n * 4)%N,
      is_ok (round_5 root_of_unity self w).1 ->
      [/\ forall j, (n <= j)%N -> W_z_coeffs`_j = 0,
          forall j, (n <= j)%N -> W_zw_coeffs`_j = 0
        & round_5 root_of_unity self w
          = (Ok (MkMessage5 (commit (setup self) W_z)
                   (commit (setup self) W_zw)),
             with_commit W_zw (with_commit W_z w))]
    & n.-primitive_root (root_of_unity n) ->
      (n * 4).-primitive_root (root_of_unity (n * 4)) ->
      linearization_ok root_of_unity self A B C beta gamma Zs PI alpha kappa
        zeta T1v T2v T3v v ->
      kappa != 0 -> zeta ^+ (n * 4) != kappa ^+ (n * 4) ->
      is_ok (round_5 root_of_unity self w).1].
Proof.
move=> W_z_coeffs W_zw_coeffs W_z W_zw wf szA szB szC szZ szPI.
move=> szT1 szT2 szT3 lt1 done.
have run := round_5_run wf szA szB szC szZ szT1 szT2 szT3 lt1 done.
split.
- by rewrite !size_coset_coeffs !size_map !size_iota.
- rewrite run.
  case lin: (linearization_ok _ _ _ _ _ _ _ _ _ _ _ _ _ _ _ _) => //.
  case dz: (W_z_degree_ok _ _ _ _ _ _ _ _ _ _ _ _ _ _ _ _) => //.
  case dzw: (W_zw_degree_ok _ _ _ _ _ _ _ _ _ _ _ _ _) => // _.
  by split=> // j; [exact: nth_drop_zeros dz | exact: nth_drop_zeros dzw].
- move=> prim_n prim_4n lin knz off; rewrite run lin.
  have -> : W_z_degree_ok root_of_unity self A B C beta gamma Zs PI alpha
              kappa zeta T1v T2v T3v v.
    exact: W_z_degree_holds.
  have -> // : W_zw_degree_ok root_of_unity self A B C beta gamma Zs PI alpha
                 kappa zeta v.
  exact: (W_zw_degree_holds beta gamma szA szB szC alpha szZ szPI prim_n
            prim_4n v szT1 szT2 szT3 knz off).
Qed.

End Claims.

(** * A circuit of two gates over the field of 17 elements *)

(** The gates [x * y = z] and [z + x = u], on a domain of [n = 2] rows.
    In the field of 17 elements 16 generates the roots of unity of order 2
    and 2 those of order 8, and 2 ^ 4 = 16. *)
Definition F17 : fieldType := 'F_17.

Definition root17 (m : nat) : F17 :=
  if m == 8%N then 2%:R else if m == 2%N then 16%:R else 1.

Definition lag17 (s : seq nat) : Polynomial F17 :=
  MkPolynomial [seq x%:R | x <- s] LAGRANGE.

Definition pk17 : CommonPreprocessedInput F17 :=
  MkCommonPreprocessedInput (lag17 [:: 1; 0]) (lag17 [:: 0; 1])
    (lag17 [:: 0; 1]) (lag17 [:: 16; 16]) (lag17 [:: 0; 0])
    (lag17 [:: 15; 3]) (lag17 [:: 2; 1]) (lag17 [:: 16; 14]).

Definition wires17 : seq Wire :=
  [:: MkWire (Some "x"%string) (Some "y"%string) (Some "z"%string);
      MkWire (Some "z"%string) (Some "x"%string) (Some "u"%string)].

Definition program17 : Program F17 := MkProgram 2 wires17 [::] pk17.

(** The commitment to a polynomial is the value at 3 of its value list,
    read as coefficients. *)
Definition setup17 : Setup F17 F17 :=
  MkSetup (fun p => horner_rec (values p) 3%:R).

Definition self17 : Prover F17 F17 := Prover_init setup17 program17.

(** The transcript answers with fixed challenges; [kappa] is the coset
    shift. *)
Definition transcript17 (kappa : F17) : Transcript F17 F17 :=
  MkTranscript (fun _ => (2%:R, 3%:R)) (fun _ _ => (5%:R, kappa))
    (fun _ _ _ => 2%:R) (fun _ _ _ _ => 7%:R).

Definition witness17 : Dict.t (option string) int :=
  [:: (Some "x"%string, 3%:Z); (Some "y"%string, 5%:Z);
      (Some "z"%string, 15%:Z); (Some "u"%string, 18%:Z)].

Definition world17 : World F17 := MkWorld [::] witness17 [::].

Lemma prim17_8 : 8.-primitive_root (root17 8).
Proof.
apply/andP; split=> //; apply/forallP => i; rewrite unity_rootE.
by case: i => [[|[|[|[|[|[|[|[|k]]]]]]]] lt] //; vm_compute.
Qed.

Lemma prim17_2 : 2.-primitive_root (root17 2).
Proof.
apply/andP; split=> //; apply/forallP => i; rewrite unity_rootE.
by case: i => [[|[|k]] lt] //; vm_compute.
Qed.

Lemma root17_compat : root17 8 ^+ 4 = root17 2.
Proof. by apply/eqP; vm_compute. Qed.

Lemma well_formed17 : well_formed self17 world17.
Proof. by vm_compute. Qed.

(** The world round_1 is called in: the public-input polynomial is
    stored. *)
Definition world17_PI : World F17 :=
  with_attr self_PI (VPoly (lag (PI_values self17 world17))) world17.

Lemma round_1_gate_check_witness :
  (forall i, (i < 2)%N ->
     gate_row self17
       (wire_values self17 world17 wire_L) (wire_values self17 world17 wire_R)
       (wire_values self17 world17 wire_O) (PI_values self17 world17) i = 0)
  /\ is_ok (round_1 self17 world17_PI).1.
Proof.
have gate : forall i, (i < 2)%N ->
    gate_row self17
      (wire_values self17 world17 wire_L) (wire_values self17 world17 wire_R)
      (wire_values self17 world17 wire_O) (PI_values self17 world17) i = 0.
  by move=> [|[|i]] // _; apply/eqP; vm_compute.
split; first exact: gate.
have [_ ok] :=
  @round_1_gate_check F17 F17 self17 world17_PI (PI_values self17 world17)
    ltac:(by vm_compute) (erefl _) (erefl _) ltac:(by vm_compute)
    ltac:(by vm_compute).
by rewrite (ok gate).
Defined.

(** The challenges and the worlds of a call of prove with the coset shift
    3, for which the call returns. *)
Notation tr17 := (transcript17 3%:R).
Notation A17 := (wire_values self17 world17 wire_L).
Notation B17 := (wire_values self17 world17 wire_R).
Notation C17 := (wire_values self17 world17 wire_O).
Notation PI17 := (PI_values self17 world17).
Notation beta17 := (beta_of self17 tr17 world17).
Notation gamma17 := (gamma_of self17 tr17 world17).
Notation Z17 := (Z_values root17 self17 tr17 world17).
Notation alpha17 := (alpha_of root17 self17 tr17 world17).
Notation kappa17 := (kappa_of root17 self17 tr17 world17).
Notation zeta17 := (zeta_of root17 self17 tr17 world17).
Notation v17 := (v_of root17 self17 tr17 world17).
Notation T1_17 := (values (T1_of root17 self17 tr17 world17)).
Notation T2_17 := (values (T2_of root17 self17 tr17 world17)).
Notation T3_17 := (values (T3_of root17 self17 tr17 world17)).

Lemma gate17 (i : nat) :
  (i < 2)%N -> gate_row self17 A17 B17 C17 PI17 i = 0.
Proof. by case: i => [|[|i]] // _; apply/eqP; vm_compute. Qed.

Lemma grand_product17 :
  Z_value root17 self17 A17 B17 C17 beta17 gamma17 2 = 1.
Proof. by apply/eqP; vm_compute. Qed.

Lemma round_1_done17 :
  round_1_done A17 B17 C17 beta17 gamma17 (world_1c self17 tr17 world17).
Proof. by split. Qed.

Lemma round_2_done17 :
  round_2_done A17 B17 C17 beta17 gamma17 Z17 PI17 alpha17 kappa17
    (world_2c root17 self17 tr17 world17).
Proof. by split=> //; split. Qed.

Lemma round_4_done17 :
  round_4_done root17 self17 A17 B17 C17 beta17 gamma17 Z17 PI17 alpha17
    kappa17 zeta17 T1_17 T2_17 T3_17 v17 (world_4c root17 self17 tr17 world17).
Proof. by split; [split=> //; split | do 17![split=> //]]. Qed.

Lemma round_2_accumulator_witness :
  [/\ Z_value root17 self17 A17 B17 C17 beta17 gamma17 2 = 1,
      is_ok (round_2 root17 self17 (world_1c self17 tr17 world17)).1
    & (check_row self17 (roots_of_unity root17 2) [:: 1; 2%:R] 0
         (world_1c self17 tr17 world17)).1
      = Raise (AssertionError local_check)].
Proof.
have [_ _ rows _ [run _ _]] :=
  @round_2_accumulator F17 root17 F17 self17 A17 B17 C17 beta17 gamma17
    (world_1c self17 tr17 world17) ltac:(by vm_compute) (erefl _) (erefl _)
    (erefl _) round_1_done17.
split; first exact: grand_product17.
- rewrite run grand_product17 eqxx.
  set b := all _ _; have -> : b = true by vm_compute.
  exact: isT.
- have [row _] := rows [:: 1; 2%:R] (erefl _); rewrite (row 0%N isT).
  set b := (_ == 0); have -> : b = false by vm_compute.
  exact: erefl.
Defined.

Lemma round_3_quotient_degree_witness :
  kappa17 ^+ 8 != 1
  /\ is_ok (round_3 root17 self17 (world_2c root17 self17 tr17 world17)).1.
Proof.
split; first by vm_compute.
have [_ _ _ run] :=
  @round_3_quotient_degree F17 root17 F17 self17 A17 B17 C17 PI17 beta17
    gamma17 alpha17 kappa17 (world_2c root17 self17 tr17 world17)
    ltac:(by vm_compute) (erefl _) (erefl _) (erefl _) (erefl _)
    prim17_2 prim17_8 root17_compat round_2_done17 gate17 grand_product17
    ltac:(by vm_compute).
rewrite run; exact: isT.
Defined.

Lemma round_3_chunk_check_witness :
  (round_3 root17 self17 (world_2c root17 self17 tr17 world17)).1
  <> Raise (AssertionError chunk_check).
Proof.
have [ok _ _] :=
  @round_3_chunk_check F17 root17 F17 self17 A17 B17 C17 Z17 PI17 beta17
    gamma17 alpha17 kappa17 (world_2c root17 self17 tr17 world17)
    ltac:(by vm_compute) (erefl _) (erefl _) (erefl _) (erefl _) (erefl _)
    prim17_2 prim17_8 root17_compat round_2_done17.
exact: ok.
Defined.


Lemma szT17 : [/\ size T1_17 = 2%N, size T2_17 = 2%N & size T3_17 = 2%N].
Proof. by vm_compute. Qed.

Lemma linearization17 :
  linearization_ok root17 self17 A17 B17 C17 beta17 gamma17 Z17 PI17 alpha17
    kappa17 zeta17 T1_17 T2_17 T3_17 v17.
Proof.
have [sz1 sz2 sz3] := szT17.
exact: (@linearization_holds F17 root17 F17 self17 A17 B17 C17 beta17 gamma17
          ltac:(by vm_compute) (erefl _) (erefl _) (erefl _) Z17 PI17 alpha17
          kappa17 (erefl _) (erefl _) prim17_2 prim17_8 root17_compat zeta17
          T1_17 T2_17 T3_17 v17 sz1 sz2 sz3
          (@gate_rows_all F17 F17 self17 A17 B17 C17 PI17 gate17)
          (@accumulator_rows_Z F17 root17 F17 self17 A17 B17 C17 beta17
             gamma17 prim17_2 grand_product17)
          ltac:(by vm_compute) ltac:(by vm_compute) (erefl _) (erefl _)
          (erefl _)).
Qed.

Lemma round_5_opening_degrees_witness :
  zeta17 ^+ 8 != kappa17 ^+ 8
  /\ is_ok (round_5 root17 self17 (world_4c root17 self17 tr17 world17)).1.
Proof.
split; first by vm_compute.
have [sz1 sz2 sz3] := szT17.
have [_ _ ok] :=
  @round_5_opening_degrees F17 root17 F17 self17 A17 B17 C17 Z17 PI17 T1_17
    T2_17 T3_17 beta17 gamma17 alpha17 kappa17 zeta17 v17
    (world_4c root17 self17 tr17 world17)
    ltac:(by vm_compute) (erefl _) (erefl _) (erefl _) (erefl _) (erefl _)
    sz1 sz2 sz3 isT round_4_done17.
exact: (ok prim17_2 prim17_8 linearization17 ltac:(by vm_compute)
          ltac:(by vm_compute)).
Defined.

Lemma commits_are_lagrange_witness :
  all (fun p => Basis_eqb (basis p) LAGRANGE && (size (values p) == 2%N))
      (prove_commits root17 self17 tr17 world17).
Proof.
have [lagr _ _] :=
  @commits_are_lagrange F17 root17 F17 self17 tr17 world17 well_formed17.
exact: lagr.
Defined.

(** A prover whose program has the public variable [x], which the witness
    binds: the call raises at the gate assertion of round 1, after the
    witness got its default entry. *)
Definition self17x : Prover F17 F17 :=
  Prover_init setup17 (MkProgram 2 wires17 [:: "x"%string] pk17).

Lemma prove_inserts_None_witness :
  [/\ ~~ Dict.contains None witness17, public_vars_bound self17x world17
     & Dict.get None (witness (prove root17 self17x tr17 world17).2) = Some 0].
Proof.
have noNone : ~~ Dict.contains None (witness world17) by vm_compute.
have bound : public_vars_bound self17x world17 by vm_compute.
split; [exact: noNone | exact: bound |].
have [_ get _] :=
  @prove_inserts_None F17 root17 F17 self17x tr17 world17 noNone bound.
exact: get.
Defined.

(** ** Where the sentences of the specification fail as stated *)

(** A prover whose selectors are all zero, and whose only gate reads the
    variable [q], which the witness does not bind. *)
Definition pk17_zero : CommonPreprocessedInput F17 :=
  MkCommonPreprocessedInput (lag17 [:: 0; 0]) (lag17 [:: 0; 0])
    (lag17 [:: 0; 0]) (lag17 [:: 0; 0]) (lag17 [:: 0; 0])
    (lag17 [:: 1; 2]) (lag17 [:: 16; 15]) (lag17 [:: 3; 6]).

Definition self17_zero : Prover F17 F17 :=
  Prover_init setup17
    (MkProgram 2 [:: MkWire (Some "q"%string) None None] [::] pk17_zero).

Definition world17_zero : World F17 :=
  with_attr self_PI (VPoly (lag [:: 0; 0])) world17.

(** C1 as stated fails: round_1 raises KeyError on a witness that does not
    bind a wire variable, although the gate identity holds at every row
    whatever the wire polynomials are. *)
Lemma round_1_key_error :
  [/\ pk_wf self17_zero,
      has_attr world17_zero self_PI (VPoly (lag [:: 0; 0])),
      (round_1 self17_zero world17_zero).1 = Raise KeyError
    & forall (A B C : seq F17) (i : nat),
        gate_row self17_zero A B C [:: 0; 0] i = 0].
Proof.
split=> //.
move=> A B C i; rewrite /gate_row.
have zero (s : seq F17) : s = [:: 0; 0] -> s`_i = 0.
  by move=> ->; case: i => [|[|i]] //=; rewrite nth_nil.
pose pk := pk self17_zero.
rewrite ?(zero (values (QL pk)) (erefl _)) ?(zero (values (QR pk)) (erefl _)).
rewrite ?(zero (values (QM pk)) (erefl _)) ?(zero (values (QO pk)) (erefl _)).
rewrite ?(zero (values (QC pk)) (erefl _)) ?(zero [:: 0; 0] (erefl _)).
by rewrite !mulr0 !addr0.
Qed.

(** C3 as stated fails: with the coset shift 1 the coset is the domain of
    the roots of unity of order 4n, rounds 1 and 2 succeed and round_3
    fails at its degree assertion. *)
Lemma quotient_degree_fails_on_domain :
  let tr := transcript17 1 in
  let w := world_2c root17 self17 tr world17 in
  [/\ (forall i, (i < 2)%N -> gate_row self17 A17 B17 C17 PI17 i = 0),
      Z_value root17 self17 A17 B17 C17 beta17 gamma17 2 = 1,
      round_2_done A17 B17 C17 beta17 gamma17 Z17 PI17 alpha17 1 w,
      (round_3 root17 self17 w).1 = Raise (AssertionError quotient_degree)
    & (prove root17 self17 tr world17).1
      = Raise (AssertionError quotient_degree)].
Proof.
move=> tr w; split.
- exact: gate17.
- exact: grand_product17.
- by split=> //; split.
- by vm_compute.
- by vm_compute.
Qed.






(** C8 as stated fails: in a call that returns, none of the nine
    polynomials passed to [setup.commit] is in MONOMIAL basis. *)
Lemma commits_not_monomial :
  let r := prove root17 self17 tr17 world17 in
  [/\ is_ok r.1, size (commit_log r.2) = 9%N
     & all (fun p => ~~ Basis_eqb (basis p) MONOMIAL) (commit_log r.2)].
Proof. by move=> r; split; vm_compute. Qed.

(** C9 as stated fails: after a call that returns, the prover object holds
    the fields the call assigned. *)
Lemma prove_retains_fields :
  let r := prove root17 self17 tr17 world17 in
  [/\ is_ok r.1, attrs world17 = [::], size (attrs r.2) = 27%N
     & lookup_attr self_A (attrs r.2) : bool].
Proof. by move=> r; split; vm_compute. Qed.

(** A prover whose program has the public variable [p], which the witness
    does not bind. *)
Definition self17p : Prover F17 F17 :=
  Prover_init setup17 (MkProgram 2 wires17 [:: "p"%string] pk17).

(** C10 as stated fails: on a witness without the key [None] that does not
    bind a public variable, prove raises KeyError before round 1 and the
    dict is as it was. *)
Lemma prove_leaves_witness :
  let r := prove root17 self17p tr17 world17 in
  [/\ ~~ Dict.contains None witness17, r.1 = Raise KeyError
     & witness r.2 = witness17].
Proof. by move=> r; split; vm_compute. Qed.

(** * Errors, edge cases and what the rounds compute *)

Section Errors.

Variable F : fieldType.
Variable root_of_unity : nat -> F.
Variable G : Type.
Variable self : Prover F G.
Variable transcript : Transcript F G.

Notation World := (World F).
Notation n := (group_order self).

(** prove reads the public variables first: when the witness does not bind
    one of them it raises KeyError and leaves the world as it found it: no
    attribute assigned, no commitment made, the witness dict untouched. *)
Theorem prove_missing_public_variable (w : World) :
  ~~ public_vars_bound self w ->
  prove root_of_unity self transcript w = (Raise KeyError, w).
Proof.
move=> /negbTE unbound; rewrite /prove; set k := (X in bind _ X).
by rewrite [bind _ k w]/bind public_inputs_run -/(public_vars_bound self w)
           unbound.
Qed.

Lemma store_list_ok (T : Type) (s : seq T) (i : nat) (x : T) :
  (i < size s)%N -> store_list s i x = Ok (set_nth x s i x).
Proof. by rewrite /store_list => ->. Qed.

Lemma store_list_raise (T : Type) (s : seq T) (i : nat) (x : T) :
  (size s <= i)%N -> store_list s i x = Raise IndexError.
Proof. by rewrite /store_list ltnNge => ->. Qed.

Lemma size_store (T : Type) (s : seq T) (i : nat) (x : T) :
  (i < size s)%N -> size (set_nth x s i x) = size s.
Proof. by move=> lt; rewrite size_set_nth; apply/maxn_idPr. Qed.

(** The loop of round_1 over the wires, when a wire variable is not
    bound. *)
Lemma assign_wires_KeyError (w : World) (ws : seq Wire) (i : nat)
    (As Bs Cs : seq int) :
  ~~ all (wire_bound (witness w)) ws ->
  (i + size ws <= size As)%N -> (i + size ws <= size Bs)%N ->
  (i + size ws <= size Cs)%N ->
  assign_wires i ws As Bs Cs w = (Raise KeyError, w).
Proof.
elim: ws i As Bs Cs => [|wire ws IH] i As Bs Cs //=.
rewrite addnS => unbound leA leB leC.
have ltA : (i < size As)%N by apply: leq_trans leA; rewrite ltnS leq_addr.
have ltB : (i < size Bs)%N by apply: leq_trans leB; rewrite ltnS leq_addr.
have ltC : (i < size Cs)%N by apply: leq_trans leC; rewrite ltnS leq_addr.
case: (boolP (Dict.contains (wire_L wire) (witness w))) => [bL|nL]; last first.
  by rewrite (bind_raise _ (witness_get_raise nL)).
step (witness_get_ok bL); step_lift (store_list_ok _ ltA).
case: (boolP (Dict.contains (wire_R wire) (witness w))) => [bR|nR]; last first.
  by rewrite (bind_raise _ (witness_get_raise nR)).
step (witness_get_ok bR); step_lift (store_list_ok _ ltB).
case: (boolP (Dict.contains (wire_O wire) (witness w))) => [bO|nO]; last first.
  by rewrite (bind_raise _ (witness_get_raise nO)).
step (witness_get_ok bO); step_lift (store_list_ok _ ltC).
apply: IH; rewrite ?size_store ?addSn //.
by move: unbound; rewrite /wire_bound bL bR bO.
Qed.

(** The loop of round_1 over the wires, when there are more gates than
    rows. *)
Lemma assign_wires_IndexError (w : World) (ws : seq Wire) (i k : nat)
    (As Bs Cs : seq int) :
  all (wire_bound (witness w)) ws ->
  size As = k -> size Bs = k -> size Cs = k ->
  (i <= k)%N -> (k < i + size ws)%N ->
  assign_wires i ws As Bs Cs w = (Raise IndexError, w).
Proof.
elim: ws i As Bs Cs => [|wire ws IH] i As Bs Cs /=.
  by move=> _ _ _ _ leik; rewrite addn0 ltnNge leik.
case/andP => /and3P [bL bR bO] bound szA szB szC leik; rewrite addnS ltnS.
move=> leki; step (witness_get_ok bL).
move: leik; rewrite leq_eqVlt => /orP [/eqP eqik|ltik].
  have ge : (size As <= i)%N by rewrite szA eqik.
  by rewrite (bind_lift_raise _ _ (store_list_raise _ ge)).
have ltA : (i < size As)%N by rewrite szA.
have ltB : (i < size Bs)%N by rewrite szB.
have ltC : (i < size Cs)%N by rewrite szC.
step_lift (store_list_ok _ ltA); step (witness_get_ok bR).
step_lift (store_list_ok _ ltB); step (witness_get_ok bO).
step_lift (store_list_ok _ ltC).
by apply: (IH _ _ _ _ bound); rewrite ?size_store ?szA ?szB ?szC // addSn.
Qed.

(** round_1 on a witness that does not bind a wire variable (of a program
    with at most [n] gates): it raises KeyError after the default entry for
    [None] went into the witness, before any attribute is assigned or any
    commitment made. *)
Theorem round_1_missing_wire (w : World) :
  (size (wires (program self)) <= n)%N ->
  ~~ all (wire_bound (witness_after (witness w))) (wires (program self)) ->
  round_1 self w
  = (Raise KeyError,
     MkWorld (attrs w) (witness_after (witness w)) (commit_log w)).
Proof.
move=> le unbound; rewrite /round_1.
step (witness_default_None_run w).
by rewrite (bind_raise _ (@assign_wires_KeyError (with_witness_default w) _ 0
                            _ _ _ unbound _ _ _)) ?add0n ?size_nseq.
Qed.

(** round_1 on a program with more gates than rows, all wires bound: the
    store into row [n] raises IndexError, again before any attribute is
    assigned or any commitment made. *)
Theorem round_1_too_many_gates (w : World) :
  (n < size (wires (program self)))%N ->
  all (wire_bound (witness_after (witness w))) (wires (program self)) ->
  round_1 self w
  = (Raise IndexError,
     MkWorld (attrs w) (witness_after (witness w)) (commit_log w)).
Proof.
move=> lt bound; rewrite /round_1.
step (witness_default_None_run w).
by rewrite (bind_raise _ (@assign_wires_IndexError (with_witness_default w) _
                            0 n _ _ _ bound _ _ _ _ _)) ?size_nseq.
Qed.

(** round_1 assigns the wire polynomials and commits to them before it
    checks the gate identity: whether the check passes or fails, the world
    it leaves holds A, B and C as attributes and the three polynomials at
    the end of the commit log. *)
Theorem round_1_commits_before_check (w : World) (PI : seq F) :
  let d := witness_after (witness w) in
  let A := wire_polynomial self d wire_L in
  let B := wire_polynomial self d wire_R in
  let C := wire_polynomial self d wire_O in
  pk_wf self -> size PI = n -> has_attr w self_PI (VPoly (lag PI)) ->
  (size (wires (program self)) <= n)%N ->
  all (wire_bound d) (wires (program self)) ->
  (round_1 self w).2
  = MkWorld [:: (self_C, VPoly C), (self_B, VPoly B), (self_A, VPoly A)
              & attrs w] d (commit_log w ++ [:: A; B; C]).
Proof.
move=> d A B C wf szPI hPI le bound.
by rewrite (round_1_run wf szPI hPI le bound).
Qed.

Lemma get_poly_missing (w : World) (a : attr) :
  lookup_attr a (attrs w) = None -> get_poly a w = (Raise AttributeError, w).
Proof. by rewrite /get_poly /bind /getattr => ->. Qed.

Lemma get_scalar_missing (w : World) (a : attr) :
  lookup_attr a (attrs w) = None -> get_scalar a w = (Raise AttributeError, w).
Proof. by rewrite /get_scalar /bind /getattr => ->. Qed.

(** A round called on a prover object that holds no attribute yet (before
    prove or the earlier rounds ran) raises AttributeError at its first
    read and changes nothing: round_2 at [self.A] (when there is a row),
    round_3 at [self.fft_cofactor], round_4 at [self.zeta], round_5 at
    [self.alpha]. *)
Theorem rounds_need_their_attributes (w : World) :
  attrs w = [::] -> (0 < n)%N ->
  [/\ round_2 root_of_unity self w = (Raise AttributeError, w),
      round_3 root_of_unity self w = (Raise AttributeError, w),
      round_4 root_of_unity self w = (Raise AttributeError, w)
    & round_5 root_of_unity self w = (Raise AttributeError, w)].
Proof.
move=> empty lt0.
have none a : lookup_attr a (attrs w) = None by rewrite empty.
split.
- rewrite /round_2; apply: bind_raise; case: (n) lt0 => // k _.
  rewrite [iota 0 k.+1]/= accumulate_cons.
  step_lift (erefl : index_last [:: Scalar F 1] = Ok (Scalar F 1)).
  apply: bind_raise; rewrite /permutation_numerator.
  by apply: bind_raise; rewrite /attr_value_at;
     exact: bind_raise (get_poly_missing (none _)).
- by rewrite /round_3; exact: bind_raise (get_scalar_missing (none _)).
- by rewrite /round_4; exact: bind_raise (get_scalar_missing (none _)).
- rewrite /round_5; apply: bind_raise; rewrite /round_5_locals.
  exact: bind_raise (get_scalar_missing (none _)).
Qed.

(** round_4 returns the values at zeta of the polynomials of degree less
    than [n] that interpolate A, B, C, S1 and S2 over the roots of unity,
    and the value at zeta * omega of the one that interpolates Z; it assigns
    them to the six evaluation attributes, in the order of the message, and
    commits to nothing. *)
Theorem round_4_evaluations (A B C Zs PI : seq F)
    (beta gamma alpha kappa zeta : F) (w : World) :
  let P s := interpolant root_of_unity s in
  let msg :=
    MkMessage4 (P A).[zeta] (P B).[zeta] (P C).[zeta]
      (P (values (S1 (pk self)))).[zeta] (P (values (S2 (pk self)))).[zeta]
      (P Zs).[zeta * root_of_unity n] in
  pk_wf self -> size A = n -> size B = n -> size C = n -> size Zs = n ->
  n.-primitive_root (root_of_unity n) -> (1 < n)%N ->
  round_2_done A B C beta gamma Zs PI alpha kappa w ->
  has_attr w self_zeta (VScalar zeta) ->
  round_4 root_of_unity self w
  = (Ok msg,
     MkWorld
       ([:: (self_z_shifted_eval, VScalar (z_shifted_eval msg));
            (self_s2_eval, VScalar (s2_eval msg));
            (self_s1_eval, VScalar (s1_eval msg));
            (self_c_eval, VScalar (c_eval msg));
            (self_b_eval, VScalar (b_eval msg));
            (self_a_eval, VScalar (a_eval msg))] ++ attrs w)
       (witness w) (commit_log w)).
Proof.
move=> P msg wf szA szB szC szZ prim_n lt1 done hz.
have [s1 s2 s3] := sizes_S wf.
rewrite (round_4_run root_of_unity wf lt1 done hz).
rewrite /round_4_message /world_after_round_4 /with_attr /=.
by rewrite !(barycentric_value_interp prim_n).
Qed.

(** Division by zero does not raise in round_2: a row whose numerator or
    denominator is 0 makes every later accumulator value 0, and round_2
    fails at its assertion Z_n = 1, leaving the world as it was. *)
Theorem round_2_zero_factor (A B C : seq F) (beta gamma : F) (w : World)
    (i : nat) :
  pk_wf self -> size A = n -> size B = n -> size C = n ->
  round_1_done A B C beta gamma w -> (i < n)%N ->
  numerator root_of_unity self A B C beta gamma i
  * denominator self A B C beta gamma i = 0 ->
  round_2 root_of_unity self w
  = (Raise (AssertionError grand_product_check), w).
Proof.
move=> wf szA szB szC done lti zero.
rewrite (round_2_run root_of_unity wf szA szB szC done).
have Z0 : Z_value root_of_unity self A B C beta gamma i.+1 = 0.
  move: zero; rewrite /= /accumulator_step /numerator /denominator.
  case: (numerators _ _ _ _ _ _ _ _) => [[fa fb] fc].
  case: (denominators _ _ _ _ _ _) => [[ga gb] gc].
  move/eqP; rewrite !mulf_eq0 -!orbA.
  by case/or4P => [/eqP ->|/eqP ->|/eqP ->|/or3P [] /eqP ->];
     rewrite ?invr0 ?mulr0 ?mul0r.
by rewrite (Z_value_eq0 lti Z0) eq_sym oner_eq0.
Qed.

Lemma Dict_contains_set (K : eqType) (V : Type) (k : K) (v : V)
    (d : Dict.t K V) :
  Dict.contains k (Dict.set k v d).
Proof. by rewrite Dict_get_contains Dict_get_set. Qed.

Lemma witness_after_idem (d : Dict.t (option string) int) :
  witness_after (witness_after d) = witness_after d.
Proof.
rewrite {2 3}/witness_after.
case: (boolP (Dict.contains None d)) => [has|hasnt] /=.
  by rewrite /witness_after has.
by rewrite /witness_after Dict_contains_set.
Qed.

(** A call of prove after a first call, on the same prover object and the
    same dict, leaves the dict as the first call left it: the entry for
    [None] is added once. *)
Theorem prove_twice_same_witness (transcript' : Transcript F G) (w : World) :
  let w1 := (prove root_of_unity self transcript w).2 in
  witness (prove root_of_unity self transcript' w1).2 = witness w1.
Proof.
move=> w1.
have [eq1 _] := prove_effect root_of_unity self transcript w.
have [-> _] := prove_effect root_of_unity self transcript' w1.
case bound1: (public_vars_bound self w1) => //.
move: bound1; rewrite /public_vars_bound -/w1 eq1 -/(public_vars_bound self w).
case bound: (public_vars_bound self w).
  by move=> _; exact: witness_after_idem.
by rewrite -/(public_vars_bound self w) bound.
Qed.

End Errors.

Section CosetRoundTrip.

Variable F : fieldType.
Variable root_of_unity : nat -> F.

Notation World := (World F).
Notation P := (interpolant root_of_unity).

(** [fft_expand] followed by [expanded_evals_to_coeffs] gives back the
    coefficients: for a LAGRANGE polynomial of [m] values and a coset shift
    that is not 0, the result is in MONOMIAL basis and lists the [m]
    coefficients of the interpolating polynomial, then 3m zeros. *)
Theorem coset_round_trip (s : seq F) (kappa : F) (w : World) :
  (size s * 4).-primitive_root (root_of_unity (size s * 4)) ->
  kappa != 0 ->
  has_attr w self_fft_cofactor (VScalar kappa) ->
  bind (fft_expand root_of_unity (lag s))
    (expanded_evals_to_coeffs root_of_unity) w
  = (Ok (MkPolynomial
           ([seq (P s)`_j | j <- iota 0 (size s)] ++ nseq (size s * 3) 0)
           MONOMIAL), w).
Proof.
move=> prim4 knz hk; step (fft_expand_run root_of_unity s hk).
rewrite (expanded_evals_to_coeffs_run root_of_unity _ hk).
have lt0 : (0 < size s)%N.
  by have := prim_order_gt0 prim4; rewrite muln_gt0 => /andP [].
have le : (size (P s) <= size s * 4)%N.
  by apply: leq_trans (size_interpolant _ _) _; rewrite leq_pmulr.
have := coset_extended_lagrange_to_coeffsE prim4 kappa le.
rewrite -/(lag _) coset_to_coeffs_lag => -[eq].
congr (Ok (MkPolynomial _ _), _).
rewrite /coset_list -/(coset_evals root_of_unity (size s) (P s) kappa) eq.
have -> : (size s * 4 = size s + size s * 3)%N by rewrite -mulnS.
rewrite iotaD map_cat add0n; congr (_ ++ _).
  by apply: eq_map => j; rewrite -mulrA -exprMn mulfV // expr1n mulr1.
apply: (@eq_from_nth _ 0); first by rewrite size_map size_iota size_nseq.
move=> j; rewrite size_map size_iota => ltj.
rewrite (nth_map 0%N) ?size_iota // nth_iota // nth_nseq ltj.
have /leq_sizeP z := size_interpolant root_of_unity s.
by rewrite z ?leq_addr // !mul0r.
Qed.

End CosetRoundTrip.

Section Identities.

Variable F : fieldType.
Variable root_of_unity : nat -> F.
Variable G : Type.
Variable self : Prover F G.

Notation World := (World F).
Notation n := (group_order self).
Notation P := (interpolant root_of_unity).

Variables (A B C Zs PI : seq F) (beta gamma alpha kappa : F).

Hypothesis wf : pk_wf self.
Hypotheses (szA : size A = n) (szB : size B = n) (szC : size C = n).
Hypotheses (szZ : size Zs = n) (szPI : size PI = n).
Hypothesis prim_n : n.-primitive_root (root_of_unity n).
Hypothesis prim_4n : (n * 4).-primitive_root (root_of_unity (n * 4)).
Hypothesis root_compat : root_of_unity (n * 4) ^+ 4 = root_of_unity n.

Let T1 := T1_polynomial root_of_unity self A B C beta gamma Zs PI alpha kappa.
Let T2 := T2_polynomial root_of_unity self A B C beta gamma Zs PI alpha kappa.
Let T3 := T3_polynomial root_of_unity self A B C beta gamma Zs PI alpha kappa.

(** The quotient identity: when the gate identity and the accumulator
    identities hold at every row and the coset shift is valid, the
    polynomials T1, T2, T3 that round_3 stores and commits to satisfy, at
    every point [x],
    N(x) = (T1(x) + x^n T2(x) + x^(2n) T3(x)) (x^n - 1),
    where N is the numerator: gate, permutation and boundary terms of the
    interpolating polynomials. *)
Theorem quotient_identity (x : F) :
  gate_rows self A B C PI ->
  accumulator_rows root_of_unity self A B C beta gamma Zs ->
  kappa != 0 -> kappa ^+ (n * 4) != 1 ->
  (numerator_poly root_of_unity self A B C beta gamma Zs PI alpha).[x]
  = ((P (values T1)).[x] + x ^+ n * (P (values T2)).[x]
     + x ^+ (n * 2) * (P (values T3)).[x]) * (x ^+ n - 1).
Proof.
move=> gate perm knz off.
have deg : quotient_degree_ok root_of_unity self A B C beta gamma Zs PI alpha
             kappa.
  exact: quotient_degree_holds.
have [szT1 szT2 szT3] :
    [/\ size (values T1) = n, size (values T2) = n & size (values T3) = n].
  exact: size_T_polynomials.
have chunks :
    barycentric_value root_of_unity (values T1) x
    + barycentric_value root_of_unity (values T2) x * x ^+ n
    + barycentric_value root_of_unity (values T3) x * x ^+ (n * 2)
    = horner_rec
        (QUOT_coeffs_list root_of_unity self A B C beta gamma Zs PI alpha
           kappa) x.
  exact: chunk_horner.
have coefs :
    QUOT_coeffs_list root_of_unity self A B C beta gamma Zs PI alpha kappa
    = [seq (quotient_poly root_of_unity self A B C beta gamma Zs PI alpha)`_j
      | j <- iota 0 (n * 4)].
  exact: QUOT_coeffs_coefs.
have le : (size (quotient_poly root_of_unity self A B C beta gamma Zs PI
                   alpha) <= n * 4)%N.
  have le3 : (size (quotient_poly root_of_unity self A B C beta gamma Zs PI
                      alpha) <= n * 3)%N.
    exact: size_quotient_poly.
  by apply: leq_trans le3 _; rewrite leq_pmul2l ?(prim_order_gt0 prim_n).
have numE :
    numerator_poly root_of_unity self A B C beta gamma Zs PI alpha
    = quotient_poly root_of_unity self A B C beta gamma Zs PI alpha
      * ('X^n - 1).
  exact: numerator_polyE.
move: chunks; rewrite coefs horner_rec_coefs //.
rewrite !(barycentric_value_interp prim_n) // => chunks.
rewrite numE hornerM horner_vanishing -chunks.
by congr (_ * _); ring.
Qed.

Variables (T1v T2v T3v : seq F) (zeta v : F).
Hypotheses (szT1 : size T1v = n) (szT2 : size T2v = n) (szT3 : size T3v = n).

Let R :=
  R_polynomial root_of_unity self A B C beta gamma Zs PI alpha kappa zeta T1v
    T2v T3v v.
Let W_z :=
  W_z_polynomial root_of_unity self A B C beta gamma Zs PI alpha kappa zeta
    T1v T2v T3v v.
Let W_zw :=
  W_zw_polynomial root_of_unity self A B C beta gamma Zs PI alpha kappa zeta
    v.

Lemma size_take_coeffs (s : seq F) :
  size s = (n * 4)%N ->
  size (dft root_of_unity (take n (coset_coeffs root_of_unity s kappa))) = n.
Proof.
move=> sz; rewrite size_dft size_take size_coset_coeffs sz.
have lt0 := prim_order_gt0 prim_n.
by rewrite -[X in (X < _)%N]muln1 ltn_pmul2l.
Qed.

(** The opening identities: when the coset shift is not 0, zeta misses the
    coset and the assertion on R has passed, the polynomials W_z and W_zw
    that round_5 commits to are the quotients they stand for: at every
    point [x],
    W_z(x) (x - zeta) = R(x) + v (A(x) - A(zeta)) + v^2 (B(x) - B(zeta))
      + v^3 (C(x) - C(zeta)) + v^4 (S1(x) - S1(zeta))
      + v^5 (S2(x) - S2(zeta))
    and W_zw(x) (x - zeta omega) = Z(x) - Z(zeta omega). *)
Theorem opening_identities (x : F) :
  kappa != 0 -> zeta ^+ (n * 4) != kappa ^+ (n * 4) ->
  linearization_ok root_of_unity self A B C beta gamma Zs PI alpha kappa zeta
    T1v T2v T3v v ->
  (P (values W_z)).[x] * (x - zeta)
  = (P (values R)).[x] + v * ((P A).[x] - (P A).[zeta])
    + v ^+ 2 * ((P B).[x] - (P B).[zeta])
    + v ^+ 3 * ((P C).[x] - (P C).[zeta])
    + v ^+ 4 * ((P (values (S1 (pk self)))).[x]
                - (P (values (S1 (pk self)))).[zeta])
    + v ^+ 5 * ((P (values (S2 (pk self)))).[x]
                - (P (values (S2 (pk self)))).[zeta])
  /\ (P (values W_zw)).[x] * (x - zeta * root_of_unity n)
     = (P Zs).[x] - (P Zs).[zeta * root_of_unity n].
Proof.
move=> knz off lin; have [s1 s2 s3] := sizes_S wf.
pose Rp := R_poly root_of_unity self A B C beta gamma Zs PI alpha kappa zeta
             T1v T2v T3v v.
pose Nz := W_z_numerator root_of_unity self A B C beta gamma Zs PI alpha
             kappa zeta T1v T2v T3v v.
pose Qz := W_z_poly root_of_unity self A B C beta gamma Zs PI alpha kappa
             zeta T1v T2v T3v v.
pose Nzw := W_zw_numerator root_of_unity self A B C beta gamma Zs PI alpha
              kappa zeta v.
pose Qzw := W_zw_poly root_of_unity self A B C beta gamma Zs PI alpha kappa
              zeta v.
have szR : size (values R) = n.
  by apply: size_take_coeffs; rewrite size_R_values.
have szWz : size (values W_z) = n.
  by apply: size_take_coeffs; rewrite size_map size_iota.
have szWzw : size (values W_zw) = n.
  by apply: size_take_coeffs; rewrite size_map size_iota.
have leR : (size Rp <= n)%N by exact: size_R_poly.
have leNz : (size Nz <= n)%N by exact: size_W_z_numerator.
have leNzw : (size Nzw <= n)%N by exact: size_W_zw_numerator.
have leQz : (size Qz <= n)%N by exact: size_divp_linear.
have leQzw : (size Qzw <= n)%N by exact: size_divp_linear.
have evR : R_values_list root_of_unity self A B C beta gamma Zs PI alpha kappa
             zeta T1v T2v T3v v
           = coset_evals root_of_unity n Rp kappa.
  exact: R_values_evals.
have evz : [seq W_z_item root_of_unity self A B C beta gamma Zs PI alpha
                  kappa zeta T1v T2v T3v v i | i <- iota 0 (n * 4)]
           = coset_evals root_of_unity n Qz kappa.
  exact: W_z_values_evals.
have evzw : [seq W_zw_item root_of_unity self A B C beta gamma Zs PI alpha
                   kappa zeta v i | i <- iota 0 (n * 4)]
            = coset_evals root_of_unity n Qzw kappa.
  exact: W_zw_values_evals.
have rt := fun T s le ev =>
  proj2 (@coset_roundtrip _ root_of_unity _ self A B C szA szB szC Zs PI kappa
           szZ szPI prim_n prim_4n T1v T2v T3v szT1 szT2 szT3 T s x le knz ev).
have ER : (P (values R)).[x] = Rp.[x].
  by rewrite -(barycentric_value_interp prim_n) // (rt Rp _ leR evR).
have Ez : (P (values W_z)).[x] = Qz.[x].
  by rewrite -(barycentric_value_interp prim_n) // (rt Qz _ leQz evz).
have Ezw : (P (values W_zw)).[x] = Qzw.[x].
  by rewrite -(barycentric_value_interp prim_n) // (rt Qzw _ leQzw evzw).
have dz : Qz * ('X - zeta%:P) = Nz.
  apply: divpK; rewrite dvdp_XsubCl.
  exact: W_z_root.
have dzw : Qzw * ('X - (zeta * root_of_unity n)%:P) = Nzw.
  apply: divpK; rewrite dvdp_XsubCl.
  exact: W_zw_root.
split.
- have -> : x - zeta = ('X - zeta%:P).[x].
    by rewrite hornerD hornerN hornerX hornerC.
  rewrite Ez -hornerM dz ER /Nz /W_z_numerator -/Rp.
  rewrite /round_5_scalars /round_4_message.
  cbn [sc_a_eval sc_b_eval sc_c_eval sc_s1_eval sc_s2_eval a_eval b_eval
       c_eval s1_eval s2_eval].
  rewrite !(barycentric_value_interp prim_n) //.
  move: Rp {leR evR ER} => Rp.
  by rewrite !(hornerD, hornerN, hornerZ, hornerC).
- have -> : x - zeta * root_of_unity n
            = ('X - (zeta * root_of_unity n)%:P).[x].
    by rewrite hornerD hornerN hornerX hornerC.
  rewrite Ezw -hornerM dzw /Nzw /W_zw_numerator.
  rewrite /round_5_scalars /round_4_message.
  cbn [sc_z_shifted_eval z_shifted_eval].
  rewrite !(barycentric_value_interp prim_n) //.
  by rewrite !(hornerD, hornerN, hornerC).
Qed.

End Identities.

Section WholeCall.

Variable F : fieldType.
Variable root_of_unity : nat -> F.
Variable G : Type.
Variable self : Prover F G.
Variable transcript : Transcript F G.

Notation World := (World F).
Notation n := (group_order self).

Variable w : World.

Hypothesis wf : well_formed self w.
Hypothesis prim_n : n.-primitive_root (root_of_unity n).
Hypothesis prim_4n : (n * 4).-primitive_root (root_of_unity (n * 4)).
Hypothesis root_compat : root_of_unity (n * 4) ^+ 4 = root_of_unity n.

Let Av := wire_values self w wire_L.
Let Bv := wire_values self w wire_R.
Let Cv := wire_values self w wire_O.
Let PIv := PI_values self w.
Let beta := beta_of self transcript w.
Let gamma := gamma_of self transcript w.
Let Zv := Z_values root_of_unity self transcript w.
Let alpha := alpha_of root_of_unity self transcript w.
Let kappa := kappa_of root_of_unity self transcript w.
Let zeta := zeta_of root_of_unity self transcript w.
Let v := v_of root_of_unity self transcript w.

Lemma pipeline_sizes :
  [/\ pk_wf self, size Av = n, size Bv = n, size Cv = n
     & size PIv = n /\ size Zv = n].
Proof.
case/and5P: wf => pkwf lt1 le_wires le_public bound.
by split; rewrite ?size_wire_values ?size_PI_values ?size_mkseq.
Qed.

Lemma chunks_ok_holds :
  quotient_ok root_of_unity self transcript w ->
  chunks_ok root_of_unity self transcript w.
Proof.
have [pkwf szA szB szC [szPI szZ]] := pipeline_sizes.
exact: chunk_check_holds.
Qed.

(** The exceptions a call of prove raises on well-formed input. *)
Definition expected_failure (e : exn) : bool :=
  match e with
  | KeyError => true
  | AssertionError gate_check | AssertionError grand_product_check
  | AssertionError quotient_degree | AssertionError linearization_check
  | AssertionError W_z_degree | AssertionError W_zw_degree => true
  | _ => false
  end.

(** On a well-formed prover and a witness binding its wires, prove raises
    nothing but KeyError (a public variable is not bound) or an assertion
    error at the gate check, the grand-product check, the degree check of
    the quotient, the check on R or one of the two degree checks of the
    openings: never IndexError or AttributeError, and never at the row
    check of round 2 or at the chunk check of round 3, which cannot
    fail. *)
Theorem prove_raises_only (e : exn) :
  (prove root_of_unity self transcript w).1 = Raise e -> expected_failure e.
Proof.
rewrite (prove_run root_of_unity transcript wf) /prove_outcome.
case: (public_bound self w) => /=; last by case=> <-.
case: (gate_identity _ _ _) => /=; last by case=> <-.
case: eqP => _ /=; last by case=> <-.
case qok: (quotient_ok _ _ _ _) => /=; last by case=> <-.
rewrite (chunks_ok_holds qok) /=.
case: (R_ok _ _ _ _) => /=; last by case=> <-.
case: (W_z_ok _ _ _ _) => /=; last by case=> <-.
by case: (W_zw_ok _ _ _ _) => /=; last by case=> <-.
Qed.

(** Completeness of prove: when the witness binds the public variables,
    the gate identity holds at every row, the accumulator comes back to
    Z_n = 1 and the challenges are valid (kappa is not 0, no point of the
    coset is in the domain, zeta misses the coset), prove returns the proof
    made of the five round messages. *)
Theorem prove_completes :
  public_bound self w ->
  gate_identity self (witness_after (witness w)) PIv ->
  Z_value root_of_unity self Av Bv Cv beta gamma n = 1 ->
  kappa != 0 -> kappa ^+ (n * 4) != 1 ->
  zeta ^+ (n * 4) != kappa ^+ (n * 4) ->
  prove root_of_unity self transcript w
  = (Ok (MkProof (message_1 self w) (message_2 root_of_unity self transcript w)
           (message_3 root_of_unity self transcript w)
           (message_4 root_of_unity self transcript w)
           (message_5 root_of_unity self transcript w)),
     world_5 root_of_unity self transcript w).
Proof.
move=> bound gate Zn knz off zoff.
have [pkwf szA szB szC [szPI szZ]] := pipeline_sizes.
have [szT1 szT2 szT3] :
    [/\ size (values (T1_of root_of_unity self transcript w)) = n,
        size (values (T2_of root_of_unity self transcript w)) = n
      & size (values (T3_of root_of_unity self transcript w)) = n].
  exact: size_T_polynomials.
have arows : accumulator_rows root_of_unity self Av Bv Cv beta gamma Zv.
  exact: accumulator_rows_Z.
have qok : quotient_ok root_of_unity self transcript w.
  exact: quotient_degree_holds.
have lin : R_ok root_of_unity self transcript w.
  exact: linearization_holds.
have wz : W_z_ok root_of_unity self transcript w.
  exact: W_z_degree_holds.
have wzw : W_zw_ok root_of_unity self transcript w.
  exact: (W_zw_degree_holds beta gamma szA szB szC alpha szZ szPI prim_n
            prim_4n v szT1 szT2 szT3 knz zoff).
rewrite (prove_run root_of_unity transcript wf) /prove_outcome.
by rewrite bound gate Zn eqxx qok (chunks_ok_holds qok) lin wz wzw.
Qed.

End WholeCall.

(** ** The errors and the identities on the circuit of two gates *)

Lemma prove_missing_public_variable_witness :
  ~~ public_vars_bound self17p world17
  /\ prove root17 self17p tr17 world17 = (Raise KeyError, world17).
Proof.
have unbound : ~~ public_vars_bound self17p world17 by vm_compute.
split; first exact: unbound.
exact: (@prove_missing_public_variable F17 root17 F17 self17p tr17 world17
          unbound).
Defined.

Lemma round_1_missing_wire_witness :
  (round_1 self17_zero world17_zero).1 = Raise KeyError.
Proof.
by rewrite (@round_1_missing_wire F17 F17 self17_zero world17_zero
              ltac:(by vm_compute) ltac:(by vm_compute)).
Defined.

(** A prover whose program has three gates on two rows. *)
Definition self17_long : Prover F17 F17 :=
  Prover_init setup17
    (MkProgram 2
       (rcons wires17
          (MkWire (Some "x"%string) (Some "x"%string) (Some "x"%string)))
       [::] pk17).

Lemma round_1_too_many_gates_witness :
  (round_1 self17_long world17).1 = Raise IndexError.
Proof.
by rewrite (@round_1_too_many_gates F17 F17 self17_long world17
              ltac:(by vm_compute) ltac:(by vm_compute)).
Defined.

Lemma round_1_commits_before_check_witness :
  size (commit_log (round_1 self17 world17_PI).2) = 3%N.
Proof.
by rewrite (@round_1_commits_before_check F17 F17 self17 world17_PI
              (PI_values self17 world17) ltac:(by vm_compute) (erefl _)
              (erefl _) ltac:(by vm_compute) ltac:(by vm_compute)).
Defined.

Lemma rounds_need_their_attributes_witness :
  round_3 root17 self17 world17 = (Raise AttributeError, world17).
Proof.
have [_ r3 _ _] :=
  @rounds_need_their_attributes F17 root17 F17 self17 world17 (erefl _) isT.
exact: r3.
Defined.

Lemma round_2_done17_zeta :
  round_2_done A17 B17 C17 beta17 gamma17 Z17 PI17 alpha17 kappa17
    (world_3c root17 self17 tr17 world17).
Proof. by split=> //; split. Qed.

Lemma round_4_evaluations_witness :
  is_ok (round_4 root17 self17 (world_3c root17 self17 tr17 world17)).1.
Proof.
by rewrite (@round_4_evaluations F17 root17 F17 self17 A17 B17 C17 Z17 PI17
              beta17 gamma17 alpha17 kappa17 zeta17
              (world_3c root17 self17 tr17 world17) ltac:(by vm_compute)
              (erefl _) (erefl _) (erefl _) (erefl _) prim17_2 isT
              round_2_done17_zeta (erefl _)).
Defined.

(** A world after round 1 with the challenges beta = 2 and gamma = 12, for
    which the first factor of the numerator of row 0 is 0. *)
Definition world17_zero_factor : World F17 :=
  with_attr self_gamma (VScalar 12%:R)
    (with_attr self_beta (VScalar 2%:R)
       (world_after_round_1 self17 world17_PI)).

Lemma round_2_zero_factor_witness :
  round_2 root17 self17 world17_zero_factor
  = (Raise (AssertionError grand_product_check), world17_zero_factor).
Proof.
have done : round_1_done A17 B17 C17 (2%:R : F17) 12%:R world17_zero_factor.
  by split.
have zero : numerator root17 self17 A17 B17 C17 (2%:R : F17) 12%:R 0
            * denominator self17 A17 B17 C17 (2%:R : F17) 12%:R 0 = 0.
  by apply/eqP; vm_compute.
exact: (@round_2_zero_factor F17 root17 F17 self17 A17 B17 C17 _ _
          world17_zero_factor 0 ltac:(by vm_compute) (erefl _) (erefl _)
          (erefl _) done isT zero).
Defined.

Lemma coset_round_trip_witness :
  is_ok (bind (fft_expand root17 (lag [:: 1; 2%:R]))
           (expanded_evals_to_coeffs root17)
           (world_2c root17 self17 tr17 world17)).1.
Proof.
by rewrite (@coset_round_trip F17 root17 [:: 1; 2%:R] kappa17
              (world_2c root17 self17 tr17 world17) prim17_8
              ltac:(by vm_compute) (erefl _)).
Defined.

Lemma gate_rows17 : gate_rows self17 A17 B17 C17 PI17.
Proof. by vm_compute. Qed.

Lemma accumulator_rows17 :
  accumulator_rows root17 self17 A17 B17 C17 beta17 gamma17 Z17.
Proof. by vm_compute. Qed.

Lemma quotient_identity_witness :
  kappa17 != 0 /\ kappa17 ^+ 8 != 1
  /\ (numerator_poly root17 self17 A17 B17 C17 beta17 gamma17 Z17 PI17
        alpha17).[5%:R]
     = ((interpolant root17 T1_17).[5%:R]
        + 5%:R ^+ 2 * (interpolant root17 T2_17).[5%:R]
        + 5%:R ^+ (2 * 2) * (interpolant root17 T3_17).[5%:R])
       * (5%:R ^+ 2 - 1).
Proof.
have knz : kappa17 != 0 by vm_compute.
have off : kappa17 ^+ (group_order self17 * 4) != 1 by vm_compute.
split; first exact: knz.
split; first exact: off.
exact: (@quotient_identity F17 root17 F17 self17 A17 B17 C17 Z17 PI17 beta17
          gamma17 alpha17 kappa17 ltac:(by vm_compute) (erefl _) (erefl _)
          (erefl _) (erefl _) (erefl _) prim17_2 prim17_8 root17_compat
          5%:R gate_rows17 accumulator_rows17 knz off).
Defined.

Lemma opening_identities_witness :
  zeta17 ^+ 8 != kappa17 ^+ 8
  /\ (interpolant root17
        (values (W_zw_polynomial root17 self17 A17 B17 C17 beta17 gamma17 Z17
                   PI17 alpha17 kappa17 zeta17 v17))).[5%:R]
     * (5%:R - zeta17 * root17 2)
     = (interpolant root17 Z17).[5%:R]
       - (interpolant root17 Z17).[zeta17 * root17 2].
Proof.
have knz : kappa17 != 0 by vm_compute.
have off : zeta17 ^+ (group_order self17 * 4)
           != kappa17 ^+ (group_order self17 * 4) by vm_compute.
split; first exact: off.
have [sz1 sz2 sz3] := szT17.
have [_ id] :=
  @opening_identities F17 root17 F17 self17 A17 B17 C17 Z17 PI17 beta17
    gamma17 alpha17 kappa17 ltac:(by vm_compute) (erefl _) (erefl _)
    (erefl _) (erefl _) (erefl _) prim17_2 prim17_8 T1_17 T2_17 T3_17 zeta17
    v17 sz1 sz2 sz3 5%:R knz off linearization17.
exact: id.
Defined.

Lemma prove_raises_only_witness :
  (prove root17 self17 (transcript17 1) world17).1
  = Raise (AssertionError quotient_degree)
  /\ expected_failure (AssertionError quotient_degree).
Proof.
have raised : (prove root17 self17 (transcript17 1) world17).1
              = Raise (AssertionError quotient_degree) by vm_compute.
split; first exact: raised.
exact: (@prove_raises_only F17 root17 F17 self17 (transcript17 1) world17
          well_formed17 prim17_2 prim17_8 root17_compat _ raised).
Defined.

Lemma prove_completes_witness :
  is_ok (prove root17 self17 tr17 world17).1.
Proof.
by rewrite (@prove_completes F17 root17 F17 self17 tr17 world17 well_formed17
              prim17_2 prim17_8 root17_compat ltac:(by vm_compute)
              gate_rows17 grand_product17 ltac:(by vm_compute)
              ltac:(by vm_compute) ltac:(by vm_compute)).
Defined.
